(** * Call trace storage: a chain of open-addressed hash tables

    Shallow embedding of [src/callTraceStorage.cpp] (async-profiler) and
    proofs about its sequential behaviour: the probe sequence, the ID
    encoding, table growth, [put], [collect] and [clear].

    Conventions of the embedding.
    - [u32] and [u64] values are [Z] with the wrap-around written out.
    - A [LongHashTable*] is the list of tables reached from it through
      [_prev] links, newest first; [NULL] is the empty list.  The [_prev]
      field of a table is therefore the tail of the list it heads.
    - The [keys] and [values] arrays of a table are finite maps from the slot
      to the cell; an absent cell is a zeroed cell (the pages come zero-filled
      from [OS::safeAlloc]).
    - A [CallTrace*] is a [Z]: 0 is [NULL], [p > 0] is the [p]-th object
      allocated from the arena.
    - Whether [OS::safeAlloc] and the arena allocation succeed is decided by
      the environment; [put] receives the two outcomes as an [Env].
    - Threads are not modelled: a compare-and-swap always finds the value that
      was just read. *)

From Stdlib Require Import ZArith Lia List Zdivisibility.
From Stdlib.Strings Require Import Byte.
From stdpp Require Import base option list gmap fin_maps.

Local Open Scope Z_scope.

(** ** Machine integers *)

Definition u32 (x : Z) : Z := x mod 2 ^ 32.
Definition u64 (x : Z) : Z := Z.land x 0xFFFFFFFFFFFFFFFF.

(** Narrowing of a [size_t] to a two's complement [int]. *)
Definition int32 (x : Z) : Z := (x + 2 ^ 31) mod 2 ^ 32 - 2 ^ 31.

Definition INITIAL_CAPACITY : Z := 65536.

Definition NULL : Z := 0.

(** ** Frames and call traces *)

(** [ASGCT_CallFrame] is declared in a header that is not part of the file;
    the storage only needs its size and the bytes it occupies in memory. *)
Class FrameLayout := {
  ASGCT_CallFrame : Type;
  sizeof_ASGCT_CallFrame : Z;
  frame_bytes : ASGCT_CallFrame -> list byte
}.

(** The JVM TI layout on an LP64 target: [jint bci], four bytes of padding
    (taken as zero), [jmethodID method_id]. *)
Fixpoint le_split (n : nat) (w : Z) : list byte :=
  match n with
  | O => []
  | S n' =>
      match Byte.of_N (Z.to_N (w mod 256)) with
      | Some b => b
      | None => x00
      end :: le_split n' (w / 256)
  end.

#[export] Instance lp64_layout : FrameLayout := {|
  ASGCT_CallFrame := Z * Z;
  sizeof_ASGCT_CallFrame := 16;
  frame_bytes := fun f => le_split 4 (fst f) ++ le_split 4 0 ++ le_split 8 (snd f)
|}.

Section Storage.

Context {layout : FrameLayout}.

Record CallTrace := mkCallTrace {
  num_frames : Z;
  frames : list ASGCT_CallFrame
}.

(** ** LongHashTable *)

Record LongHashTable := mkTable {
  _capacity : Z;
  _size : Z;
  keys : gmap Z Z;
  values : gmap Z Z
}.

Definition key_at (table : LongHashTable) (slot : Z) : Z :=
  default 0 (keys table !! slot).

Definition value_at (table : LongHashTable) (slot : Z) : Z :=
  default NULL (values table !! slot).

(** [allocate(prev, capacity)]: the new table in front of [prev], or [NULL]
    when [OS::safeAlloc] fails. *)
Definition allocate (safeAlloc_ok : bool) (prev : list LongHashTable)
    (capacity : Z) : list LongHashTable :=
  if safeAlloc_ok then mkTable capacity 0 ∅ ∅ :: prev else [].

Definition destroy (this : list LongHashTable) : list LongHashTable :=
  tail this.

Definition prev (this : list LongHashTable) : list LongHashTable :=
  tail this.

Definition incSize (table : LongHashTable) : LongHashTable * Z :=
  let size := u32 (_size table + 1) in
  (mkTable (_capacity table) size (keys table) (values table), size).

Definition LongHashTable_clear (table : LongHashTable) : LongHashTable :=
  mkTable (_capacity table) 0 ∅ ∅.

(** *** getSize *)

(** [sizeof(LongHashTable)] on an LP64 target: two pointers, then [_capacity]
    and [_size], each followed by fifteen words of padding. *)
Definition sizeof_LongHashTable : Z := 8 + 8 + 4 + 4 * 15 + 4 + 4 * 15.

(** [getSize(capacity)], in [size_t] arithmetic; [page_size] is what
    [sysconf(_SC_PAGESIZE)] returned when [PAGE_ALIGNMENT] was set. *)
Definition getSize (page_size capacity : Z) : Z :=
  let PAGE_ALIGNMENT := u64 (page_size - 1) in
  let size := u64 (sizeof_LongHashTable + u64 (u64 (8 + 8) * capacity)) in
  Z.land (u64 (size + PAGE_ALIGNMENT)) (u64 (Z.lnot PAGE_ALIGNMENT)).

(** The byte offsets of [keys()] and [values()] from the table, and the
    number of bytes that [clear] zeroes from [keys()] on. *)
Definition keys_offset : Z := sizeof_LongHashTable.
Definition values_offset (capacity : Z) : Z := keys_offset + 8 * capacity.
Definition clear_bytes (capacity : Z) : Z := u64 (u64 (8 + 8) * capacity).

(** ** The arena *)

(** Modelled from the spec: the chunked arena ([LinearAllocator], in a file
    that is not part of the sources).  [alloc] bumps a cursor and returns a
    pointer, or returns null; [clear] releases everything.  Addresses are
    abstract: the [n]-th object allocated since the last [clear] is at [n]. *)
Record LinearAllocator := mkArena {
  objects : gmap Z CallTrace;
  cursor : Z
}.

Definition allocator_new : LinearAllocator := mkArena ∅ 0.

Definition allocator_clear (a : LinearAllocator) : LinearAllocator :=
  allocator_new.

Definition deref (a : LinearAllocator) (p : Z) : option CallTrace :=
  objects a !! p.

(** ** CallTraceStorage *)

Record CallTraceStorage := mkStorage {
  _current_table : list LongHashTable;
  _allocator : LinearAllocator
}.

(** What the environment decides during one call of [put]. *)
Record Env := mkEnv {
  safeAlloc_ok : bool;
  alloc_ok : bool
}.

(** The constructor, when the first table can be allocated. *)
Definition CallTraceStorage_new : CallTraceStorage :=
  mkStorage (allocate true [] INITIAL_CAPACITY) allocator_new.

(** *** clear *)

Fixpoint clear_loop (table : list LongHashTable) : list LongHashTable :=
  match table with
  | _ :: (_ :: _) as p => clear_loop p
  | _ => table
  end.

(** [None] is the dereference of a null [_current_table]. *)
Definition clear (st : CallTraceStorage) : option CallTraceStorage :=
  match clear_loop (_current_table st) with
  | [] => None
  | table :: p =>
      Some (mkStorage (LongHashTable_clear table :: p)
                      (allocator_clear (_allocator st)))
  end.

(** *** collect *)

(** The ID of [slot] in a table of [capacity] slots, in [u32] arithmetic. *)
Definition slot_id (capacity slot : Z) : Z :=
  u32 (u32 (capacity - u32 (INITIAL_CAPACITY - 1)) + slot).

(** The inner loop, from [slot] on, with [n] iterations left. *)
Fixpoint collect_slots (n : nat) (table : LongHashTable) (slot : Z)
    (map : gmap Z Z) : gmap Z Z :=
  match n with
  | O => map
  | S n' =>
      collect_slots n' table (slot + 1)
        (if key_at table slot =? 0 then map
         else <[slot_id (_capacity table) slot := value_at table slot]> map)
  end.

Fixpoint collect_tables (table : list LongHashTable) (map : gmap Z Z)
    : gmap Z Z :=
  match table with
  | [] => map
  | t :: p =>
      collect_tables p (collect_slots (Z.to_nat (_capacity t)) t 0 map)
  end.

Definition collect (st : CallTraceStorage) (map : gmap Z Z) : gmap Z Z :=
  collect_tables (_current_table st) map.

(** *** calcHash *)

Definition M : Z := 0xc6a4a7935bd1e995.
Definition R : Z := 47.

(** Little-endian read of the bytes at the front of [data]. *)
Fixpoint le_combine (bs : list byte) : Z :=
  match bs with
  | [] => 0
  | b :: r => Z.of_N (Byte.to_N b) + 256 * le_combine r
  end.

Definition read_u64 (data : list byte) : Z := le_combine (take 8 data).
Definition read_u32 (data : list byte) : Z := le_combine (take 4 data).

(** The [while (data != end)] loop over [n] words. *)
Fixpoint hash_loop (n : nat) (data : list byte) (h : Z) : Z * list byte :=
  match n with
  | O => (h, data)
  | S n' =>
      let k := read_u64 data in
      let k := u64 (k * M) in
      let k := Z.lxor k (Z.shiftr k R) in
      let k := u64 (k * M) in
      let h := Z.lxor h k in
      let h := u64 (h * M) in
      hash_loop n' (drop 8 data) h
  end.

(** [len] is an [int].  When it is negative ([num_frames < 0], or a byte
    count that does not fit) the loop of the source does not meet [end]
    inside the buffer; the embedding then runs no iteration and says nothing
    about such a call: [op_ok] names the arguments it is meant for. *)
Definition calcHash (num_frames : Z) (frames : list ASGCT_CallFrame) : Z :=
  let len := int32 (num_frames * sizeof_ASGCT_CallFrame) in
  let h := u64 (len * M) in
  let data := flat_map frame_bytes frames in
  let '(h, data) := hash_loop (Z.to_nat (Z.quot len 8)) data h in
  let h :=
    if Z.land len 4 =? 0 then h
    else u64 (Z.lxor h (read_u32 data) * M) in
  let h := Z.lxor h (Z.shiftr h R) in
  let h := u64 (h * M) in
  let h := Z.lxor h (Z.shiftr h R) in
  h.

(** *** storeCallTrace *)

(** The copy loop [for (i = 0; i < num_frames; i++) buf->frames[i] = frames[i]]. *)
Fixpoint copy_frames (n : nat) (frames : list ASGCT_CallFrame)
    : list ASGCT_CallFrame :=
  match n, frames with
  | S n', f :: rest => f :: copy_frames n' rest
  | _, _ => []
  end.

(** Returns the arena after the call and the pointer ([NULL] on failure). *)
Definition storeCallTrace (ok : bool) (a : LinearAllocator) (num_frames : Z)
    (frames : list ASGCT_CallFrame) : LinearAllocator * Z :=
  if ok then
    let buf := cursor a + 1 in
    (mkArena
       (<[buf := mkCallTrace num_frames
                   (copy_frames (Z.to_nat num_frames) frames)]> (objects a))
       buf,
     buf)
  else (a, NULL).

(** *** The probe sequence *)

(** The slot examined after [k] misses: [hash & (capacity - 1)] at first,
    then [(slot + step) & (capacity - 1)] with [step] counting the misses. *)
Fixpoint probe_slot (capacity hash : Z) (k : nat) : Z :=
  match k with
  | O => u32 (Z.land hash (u32 (capacity - 1)))
  | S k' =>
      Z.land (u32 (probe_slot capacity hash k' + u32 (Z.of_nat k' + 1)))
             (u32 (capacity - 1))
  end.

(** How a probe ends: on a slot that holds the hash, on an empty slot, or
    after [capacity] misses. *)
Inductive Outcome :=
  | Found (slot : Z)
  | Vacant (slot : Z)
  | Full.

(** The control flow that the loops of [findCallTrace] and [put] have in
    common, without their effects; [find_loop_probe] and [put_loop_probe]
    relate the two loops to it. *)
Fixpoint probe_loop (fuel : nat) (table : LongHashTable) (hash capacity : Z)
    (slot step : Z) : option Outcome :=
  if key_at table slot =? hash then Some (Found slot)
  else if key_at table slot =? 0 then Some (Vacant slot)
  else
    let step := u32 (step + 1) in
    if capacity <=? step then Some Full
    else
      match fuel with
      | O => None
      | S fuel' =>
          probe_loop fuel' table hash capacity
            (Z.land (u32 (slot + step)) (u32 (capacity - 1))) step
      end.

Definition probe (table : LongHashTable) (hash : Z) : option Outcome :=
  let capacity := _capacity table in
  probe_loop (Z.to_nat capacity) table hash capacity
    (u32 (Z.land hash (u32 (capacity - 1)))) 0.

(** *** findCallTrace *)

(** The [while] loop with [fuel] further iterations allowed; [None] when the
    fuel runs out. *)
Fixpoint find_loop (fuel : nat) (table : LongHashTable) (hash capacity : Z)
    (slot step : Z) : option Z :=
  if key_at table slot =? hash then Some (value_at table slot)
  else if key_at table slot =? 0 then Some NULL
  else
    let step := u32 (step + 1) in
    if capacity <=? step then Some NULL
    else
      match fuel with
      | O => None
      | S fuel' =>
          find_loop fuel' table hash capacity
            (Z.land (u32 (slot + step)) (u32 (capacity - 1))) step
      end.

Definition findCallTrace_fuel (fuel : nat) (table : LongHashTable) (hash : Z)
    : option Z :=
  let capacity := _capacity table in
  let slot := u32 (Z.land hash (u32 (capacity - 1))) in
  find_loop fuel table hash capacity slot 0.

Definition findCallTrace (table : LongHashTable) (hash : Z) : option Z :=
  findCallTrace_fuel (Z.to_nat (_capacity table)) table hash.

(** *** put *)

(** The body of [if (keys[slot] == 0)] once the compare-and-swap has
    succeeded: count the slot, reserve a new table at the threshold, inherit
    or store the trace, publish it.  The new table's [_prev] aliases [table],
    whose [values[slot]] is written after the allocation; the list in front
    of which the model allocates is therefore the one that already holds the
    written table.  A compare-and-swap of [_current_table] succeeds, as no
    other thread can have replaced it.  [fuel] bounds the lookup in the
    previous table. *)
Definition claim (fuel : nat) (env : Env) (st : CallTraceStorage)
    (table : LongHashTable) (p : list LongHashTable)
    (num_frames : Z) (frames : list ASGCT_CallFrame)
    (hash capacity slot : Z) : option CallTraceStorage :=
  let table := mkTable (_capacity table) (_size table)
                 (<[slot := hash]> (keys table)) (values table) in
  let '(table, size) := incSize table in
  let reserve := size =? u32 (capacity * 3) / 4 in
  trace ← match prev (table :: p) with
          | [] => Some NULL
          | pt :: _ => findCallTrace_fuel fuel pt hash
          end;
  let '(a, trace) :=
    if trace =? NULL
    then storeCallTrace (alloc_ok env) (_allocator st) num_frames frames
    else (_allocator st, trace) in
  let table := mkTable (_capacity table) (_size table) (keys table)
                 (<[slot := trace]> (values table)) in
  let current_table :=
    if reserve then
      match allocate (safeAlloc_ok env) (table :: p) (u32 (capacity * 2)) with
      | [] => table :: p
      | new_table => new_table
      end
    else table :: p in
  Some (mkStorage current_table a).

(** The [while] loop of [put]; returns the storage and the ID. *)
Fixpoint put_loop (fuel fuel_find : nat) (env : Env) (st : CallTraceStorage)
    (table : LongHashTable) (p : list LongHashTable)
    (num_frames : Z) (frames : list ASGCT_CallFrame)
    (hash capacity slot step : Z) : option (CallTraceStorage * Z) :=
  if key_at table slot =? hash then Some (st, slot_id capacity slot)
  else if key_at table slot =? 0 then
    st' ← claim fuel_find env st table p num_frames frames hash capacity slot;
    Some (st', slot_id capacity slot)
  else
    let step := u32 (step + 1) in
    if capacity <=? step then Some (st, 0)
    else
      match fuel with
      | O => None
      | S fuel' =>
          put_loop fuel' fuel_find env st table p num_frames frames hash capacity
            (Z.land (u32 (slot + step)) (u32 (capacity - 1))) step
      end.

(** [put] with explicit bounds on the iterations of its two loops. *)
Definition put_fuel (fuel fuel_find : nat) (env : Env) (st : CallTraceStorage)
    (num_frames : Z) (frames : list ASGCT_CallFrame)
    : option (CallTraceStorage * Z) :=
  let hash := calcHash num_frames frames in
  match _current_table st with
  | [] => None
  | table :: p =>
      let capacity := _capacity table in
      let slot := u32 (Z.land hash (u32 (capacity - 1))) in
      put_loop fuel fuel_find env st table p num_frames frames hash capacity slot 0
  end.

(** [put]: each loop may run for as many iterations as its table has slots.
    [None] is the dereference of a null [_current_table] (or a loop that
    would not stop, which [put_total] excludes). *)
Definition put (env : Env) (st : CallTraceStorage)
    (num_frames : Z) (frames : list ASGCT_CallFrame)
    : option (CallTraceStorage * Z) :=
  match _current_table st with
  | [] => None
  | table :: p =>
      put_fuel (Z.to_nat (_capacity table))
        (match p with [] => O | pt :: _ => Z.to_nat (_capacity pt) end)
        env st num_frames frames
  end.

(** *** Executions *)

(** One call of [put]: what the environment decides, and the arguments. *)
Definition Op : Type := Env * (Z * list ASGCT_CallFrame).

(** A sequence of calls of [put]; returns the final storage and the IDs in
    the order of the calls. *)
Fixpoint run_puts (st : CallTraceStorage) (ops : list Op)
    : option (CallTraceStorage * list Z) :=
  match ops with
  | [] => Some (st, [])
  | (env, (n, fr)) :: rest =>
      match put env st n fr with
      | None => None
      | Some (st', id) =>
          match run_puts st' rest with
          | None => None
          | Some (st'', ids) => Some (st'', id :: ids)
          end
      end
  end.

(** Calls of [put] during which [_current_table] stays the same table. *)
Inductive puts_same_table : CallTraceStorage -> CallTraceStorage -> Prop :=
  | pst_refl st : puts_same_table st st
  | pst_step st1 st2 env n fr st3 id :
      puts_same_table st1 st2 ->
      put env st2 n fr = Some (st3, id) ->
      length (_current_table st3) = length (_current_table st2) ->
      puts_same_table st1 st3.

(** *** The shape of the chain *)

(** A table of [capacity] slots whose capacity is a power of two that fits
    a [u32]. *)
Definition pow2_capacity (capacity : Z) : Prop :=
  exists n, 0 <= n <= 31 /\ capacity = 2 ^ n.

(** The chain invariant: the oldest table has [INITIAL_CAPACITY] slots, every
    other table twice as many as its predecessor, within the range of [u32]. *)
Fixpoint chain_ok (table : list LongHashTable) : Prop :=
  match table with
  | [] => False
  | t :: p =>
      _capacity t <= 2 ^ 31 /\
      match p with
      | [] => _capacity t = INITIAL_CAPACITY
      | pt :: _ => _capacity t = 2 * _capacity pt /\ chain_ok p
      end
  end.

(** The hashes of the calls. *)
Definition op_hash (op : Op) : Z := calcHash (fst (snd op)) (snd (snd op)).

(** ** Vocabulary of the statements *)

(** The [k]-th triangular number. *)
Definition tri (k : Z) : Z := k * (k + 1) / 2.

(** The slots probed in a table of [capacity] slots, in order. *)
Definition probes (capacity hash : Z) : list Z :=
  probe_slot capacity hash <$> seq 0 (Z.to_nat capacity).

(** A slot that holds neither the hash nor zero. *)
Definition miss (table : LongHashTable) (hash slot : Z) : Prop :=
  key_at table slot <> hash /\ key_at table slot <> 0.

(** What [findCallTrace] returns for an outcome of the probe. *)
Definition find_result (table : LongHashTable) (o : Outcome) : Z :=
  match o with
  | Found slot => value_at table slot
  | _ => NULL
  end.

(** What [put] does and returns for an outcome of the probe. *)
Definition put_result (fuel_find : nat) (env : Env) (st : CallTraceStorage)
    (table : LongHashTable) (p : list LongHashTable) (num_frames : Z)
    (frames : list ASGCT_CallFrame) (hash capacity : Z) (o : Outcome)
    : option (CallTraceStorage * Z) :=
  match o with
  | Found slot => Some (st, slot_id capacity slot)
  | Vacant slot =>
      st' ← claim fuel_find env st table p num_frames frames hash capacity slot;
      Some (st', slot_id capacity slot)
  | Full => Some (st, 0)
  end.

(** The outcome at a slot that is not a miss. *)
Definition stop_outcome (table : LongHashTable) (hash slot : Z) : Outcome :=
  if key_at table slot =? hash then Found slot else Vacant slot.

(** What an outcome says about the keys. *)
Definition outcome_keys (table : LongHashTable) (hash : Z) (o : Outcome)
    : Prop :=
  match o with
  | Found slot => key_at table slot = hash
  | Vacant slot => key_at table slot = 0 /\ hash <> 0
  | Full => True
  end.

(** The slot on which the probe ended, if any. *)
Definition outcome_slot (o : Outcome) : option Z :=
  match o with
  | Found slot | Vacant slot => Some slot
  | Full => None
  end.

(** The bound that [put] gives the lookup in the previous table. *)
Definition find_fuel (p : list LongHashTable) : nat :=
  match p with
  | [] => O
  | pt :: _ => Z.to_nat (_capacity pt)
  end.

(** What [put] finds in the previous table. *)
Definition inherited (p : list LongHashTable) (hash : Z) : option Z :=
  match p with
  | [] => Some NULL
  | pt :: _ => findCallTrace pt hash
  end.

(** The trace published in the slot, and the arena afterwards. *)
Definition publish (env : Env) (a : LinearAllocator) (n : Z)
    (fr : list ASGCT_CallFrame) (trace : Z) : LinearAllocator * Z :=
  if trace =? NULL then storeCallTrace (alloc_ok env) a n fr else (a, trace).

(** The table after the claim of [slot]. *)
Definition claimed_table (t : LongHashTable) (slot hash trace : Z)
    : LongHashTable :=
  mkTable (_capacity t) (u32 (_size t + 1)) (<[slot := hash]> (keys t))
          (<[slot := trace]> (values t)).

(** Whether the claim installs a new table. *)
Definition grows (env : Env) (t : LongHashTable) : bool :=
  (u32 (_size t + 1) =? u32 (_capacity t * 3) / 4) && safeAlloc_ok env.

(** The storage after the claim of [slot], when the previous table gave
    [trace] for the hash. *)
Definition claim_result (env : Env) (st : CallTraceStorage)
    (t : LongHashTable) (p : list LongHashTable) (n : Z)
    (fr : list ASGCT_CallFrame) (hash slot trace : Z) : CallTraceStorage :=
  let t' := claimed_table t slot hash
              (snd (publish env (_allocator st) n fr trace)) in
  mkStorage
    (if grows env t then mkTable (u32 (_capacity t * 2)) 0 ∅ ∅ :: t' :: p
     else t' :: p)
    (fst (publish env (_allocator st) n fr trace)).

(** An ID that some occupied slot of the chain has. *)
Definition occupied (chain : list LongHashTable) (id : Z) : Prop :=
  exists t s, t ∈ chain /\ 0 <= s < _capacity t /\ key_at t s <> 0 /\
              slot_id (_capacity t) s = id.

(** A table of [capacity] slots of the chain has the key [hash] in [slot]. *)
Definition holds (chain : list LongHashTable) (capacity slot hash : Z) : Prop :=
  exists t, t ∈ chain /\ _capacity t = capacity /\ key_at t slot = hash.

(** The objects of the arena lie at the addresses up to the cursor. *)
Definition arena_ok (a : LinearAllocator) : Prop :=
  0 <= cursor a /\
  forall ptr, is_Some (objects a !! ptr) -> 0 < ptr <= cursor a.

(** [t'] has the capacity of [t] and the keys of [t], and more. *)
Definition extends (t t' : LongHashTable) : Prop :=
  _capacity t' = _capacity t /\
  forall s, key_at t s <> 0 -> key_at t' s = key_at t s.

(** The invariant of an execution: [hs] are the hashes put so far, [ids]
    the IDs returned. *)
Definition run_inv (st : CallTraceStorage) (hs ids : list Z) : Prop :=
  chain_ok (_current_table st) /\
  (exists t p, _current_table st = t :: p /\
     0 <= _size t <= Z.of_nat (length hs) /\
     forall s, key_at t s <> 0 -> key_at t s ∈ hs) /\
  (forall id, occupied (_current_table st) id <-> id ∈ ids) /\
  NoDup ids.

(** The steps of [calcHash]: [h ^= h >> R], [h *= M], what the loop does to
    a word, and the final avalanche. *)
Definition xorshift (h : Z) : Z := Z.lxor h (Z.shiftr h R).
Definition mulM (h : Z) : Z := u64 (h * M).
Definition mix (k : Z) : Z := mulM (xorshift (mulM k)).
Definition avalanche (h : Z) : Z := xorshift (mulM (xorshift h)).

(** [t'] has the capacity of [t], and the keys and values of its occupied
    slots. *)
Definition preserves (t t' : LongHashTable) : Prop :=
  _capacity t' = _capacity t /\
  forall s, key_at t s <> 0 ->
            key_at t' s = key_at t s /\ value_at t' s = value_at t s.

(** The first table while it fills: [hs] are the hashes put so far. *)
Definition fill_inv (t : LongHashTable) (hs : list Z) : Prop :=
  _capacity t = INITIAL_CAPACITY /\
  _size t = Z.of_nat (length hs) /\
  (size (keys t) <= length hs)%nat /\
  forall s, key_at t s <> 0 -> key_at t s ∈ hs.

(** One iteration of the loop of [calcHash], on the word [k]. *)
Definition hash_step (h k : Z) : Z := mulM (Z.lxor h (mix k)).

(** What [calcHash] does after the loop: the odd four bytes, if any, and the
    final mixing. *)
Definition hash_finish (len h : Z) (data : list byte) : Z :=
  avalanche (if Z.land len 4 =? 0 then h
             else u64 (Z.lxor h (read_u32 data) * M)).

(** The frames occupy [sizeof(ASGCT_CallFrame)] bytes each. *)
Definition layout_ok : Prop :=
  0 < sizeof_ASGCT_CallFrame /\
  forall f, length (frame_bytes f) = Z.to_nat sizeof_ASGCT_CallFrame.

(** *** Invariants of an execution *)

(** The slots of a table that hold a key. *)
Definition occupied_slots (t : LongHashTable) : list Z :=
  filter (fun s => key_at t s <> 0) (seqZ 0 (_capacity t)).

(** One call of [put] with the ID it returned. *)
Definition Event : Type := Op * Z.

(** A call that left its hash in a slot: the hash is not 0 and the call did
    not give up. *)
Definition stored (ev : Event) : Prop :=
  op_hash (fst ev) <> 0 /\ snd ev <> 0.

(** The arguments of a call whose frames fit an [int] count of bytes. *)
Definition op_ok (op : Op) : Prop :=
  0 <= fst (snd op) /\ fst (snd op) * sizeof_ASGCT_CallFrame < 2 ^ 31.

(** The sizes: the chain has its shape, the size of every table is the
    number of its occupied slots, which lie within the capacity, and the
    current table has seen no more claims than there were calls. *)
Definition sizes_ok (st : CallTraceStorage) (calls : nat) : Prop :=
  chain_ok (_current_table st) /\
  (forall t, t ∈ _current_table st ->
     _size t = Z.of_nat (length (occupied_slots t)) /\
     forall s, key_at t s <> 0 -> 0 <= s < _capacity t) /\
  exists t p, _current_table st = t :: p /\ _size t <= Z.of_nat calls.

(** The IDs: the occupied slots are those of the calls that stored, and the
    slot of such a call holds the hash of the call. *)
Definition ids_ok (st : CallTraceStorage) (log : list Event) : Prop :=
  (forall id, occupied (_current_table st) id ->
     exists ev, ev ∈ log /\ stored ev /\ snd ev = id) /\
  (forall ev, ev ∈ log -> stored ev ->
     exists t s, t ∈ _current_table st /\ 0 <= s < _capacity t /\
                 slot_id (_capacity t) s = snd ev /\
                 key_at t s = op_hash (fst ev)).

(** The values: a value that is not null belongs to an occupied slot and
    addresses a stored trace whose hash is the key of the slot. *)
Definition values_ok (st : CallTraceStorage) : Prop :=
  arena_ok (_allocator st) /\
  forall t s, t ∈ _current_table st -> value_at t s <> NULL ->
    key_at t s <> 0 /\
    exists c, deref (_allocator st) (value_at t s) = Some c /\
              calcHash (num_frames c) (frames c) = key_at t s.

(** Every occupied slot has a value. *)
Definition values_nonnull (st : CallTraceStorage) : Prop :=
  forall t s, t ∈ _current_table st -> key_at t s <> 0 ->
              value_at t s <> NULL.

(** The current table is below the threshold. *)
Definition has_room (st : CallTraceStorage) : Prop :=
  exists t p, _current_table st = t :: p /\
              _size t < _capacity t * 3 / 4.

(** No table is loaded above three quarters of its capacity. *)
Definition load_ok (st : CallTraceStorage) : Prop :=
  forall t, t ∈ _current_table st -> _size t <= _capacity t * 3 / 4.

(** The calls of an execution with the IDs they returned. *)
Definition events (ops : list Op) (ids : list Z) : list Event := zip ops ids.

(** The sizes of the tables of a chain, added up. *)
Definition total_size (chain : list LongHashTable) : Z :=
  foldr (fun t acc => _size t + acc) 0 chain.

End Storage.

(** * Executions on the LP64 layout *)

Definition always : Env := mkEnv true true.

(** One-frame traces that differ in their [method_id]. *)
Fixpoint distinct_traces (count : nat) (method_id : Z) : list Op :=
  match count with
  | O => []
  | S count' =>
      (always, (1, [(0, method_id)])) :: distinct_traces count' (method_id + 1)
  end.

(** The trace with [method_id] 1, 49151 other traces, which together fill
    the first table up to the threshold, and then the first trace again. *)
Definition growth_ops : list Op :=
  (always, (1, [(0, 1)])) ::
  distinct_traces (Z.to_nat 49151) 2 ++ [(always, (1, [(0, 1)]))].

(** The hash of the one-frame trace with [method_id] 1, and the slot it
    probes first in tables of 65536 and of 131072 slots. *)
Definition hash_1 : Z := 7284306523449778148.
Definition slot_1 : Z := 57316.

(** The [method_id] of the one-frame trace whose hash is 0. *)
Definition method_0 : Z := 501249664404917684.

(** A trace whose hash is 0, then a trace whose hash is not. *)
Definition zero_hash_ops : list Op :=
  [(always, (1, [(0, method_0)])); (always, (1, [(0, 1)]))].

(** Two distinct traces. *)
Definition two_ops : list Op :=
  [(always, (1, [(0, 1)])); (always, (1, [(0, 2)]))].

(** The arena that holds the trace with [method_id] 1. *)
Definition arena_1 : LinearAllocator :=
  mkArena {[1 := mkCallTrace 1 [(0, 1)]]} 1.

(** A storage after growth: the old table holds the trace, the new table
    is empty. *)
Definition grown_storage : CallTraceStorage :=
  mkStorage [mkTable 131072 0 ∅ ∅;
             mkTable 65536 49152 {[slot_1 := hash_1]} {[slot_1 := 1]}]
            arena_1.

(** The same once the trace has been put again. *)
Definition inherited_storage : CallTraceStorage :=
  mkStorage [mkTable 131072 1 {[slot_1 := hash_1]} {[slot_1 := 1]};
             mkTable 65536 49152 {[slot_1 := hash_1]} {[slot_1 := 1]}]
            arena_1.


(** The storage after the first [put] of the trace with [method_id] 1. *)
Definition storage_1 : CallTraceStorage :=
  mkStorage [mkTable 65536 1 {[slot_1 := hash_1]} {[slot_1 := 1]}] arena_1.

(** The hash of the one-frame trace with [method_id] 2, and its slot. *)
Definition hash_2 : Z := 5247118762948069667.
Definition slot_2 : Z := 35107.

(** The storage after the [put] of the traces with [method_id] 1 and 2. *)
Definition storage_2 : CallTraceStorage :=
  mkStorage
    [mkTable 65536 2 (<[slot_2 := hash_2]> {[slot_1 := hash_1]})
                     (<[slot_2 := 2]> {[slot_1 := 1]})]
    (mkArena (<[2 := mkCallTrace 1 [(0, 2)]]> {[1 := mkCallTrace 1 [(0, 1)]]}) 2).





(** A trace whose hash is 0, then the one-frame trace with [method_id]
    135703, whose hash is not 0 and whose first slot is slot 0. *)
Definition hash_3 : Z := 17274355216762732544.

Definition shared_id_ops : list Op :=
  [(always, (1, [(0, method_0)])); (always, (1, [(0, 135703)]))].

(** The [method_id] with which a frame of [bci] 1 makes a one-frame trace
    that has the hash of the trace with [bci] 0 and [method_id] 1. *)
Definition method_twin : Z := 12598293237790916873.

(** Two different traces with the same hash. *)
Definition twin_ops : list Op :=
  [(always, (1, [(0, 1)])); (always, (1, [(1, method_twin)]))].

(** The same, and then the first trace again. *)
Definition reused_id_ops : list Op :=
  shared_id_ops ++ [(always, (1, [(0, method_0)]))].

Definition storage_3 : CallTraceStorage :=
  mkStorage [mkTable 65536 1 {[0 := hash_3]} {[0 := 1]}]
            (mkArena {[1 := mkCallTrace 1 [(0, 135703)]]} 1).

(** What the two words of a frame do to the hash in the loop of [calcHash]:
    the [bci] with its padding, then the [method_id]. *)
Definition frame_step (h : Z) (f : Z * Z) : Z :=
  hash_step (hash_step h (fst f mod 2 ^ 32)) (snd f mod 2 ^ 64).

(** Frames that differ, in memory, in the [bci] alone or in the
    [method_id] alone. *)
Definition differ_in_one_field (f g : Z * Z) : Prop :=
  (fst f mod 2 ^ 32 <> fst g mod 2 ^ 32 /\ snd f mod 2 ^ 64 = snd g mod 2 ^ 64) \/
  (fst f mod 2 ^ 32 = fst g mod 2 ^ 32 /\ snd f mod 2 ^ 64 <> snd g mod 2 ^ 64).

(** * Properties *)

Section Properties.

Context {layout : FrameLayout}.

(** ** Machine arithmetic *)

Lemma u32_small x : 0 <= x < 2 ^ 32 -> u32 x = x.
Proof. intros H. unfold u32. apply Z.mod_small. lia. Qed.

Lemma u32_range x : 0 <= u32 x < 2 ^ 32.
Proof. unfold u32. apply Z.mod_pos_bound. lia. Qed.

Lemma pow2_capacity_range c : pow2_capacity c -> 1 <= c <= 2 ^ 31.
Proof.
  intros [n [Hn ->]]. split.
  - assert (0 < 2 ^ n) by (apply Z.pow_pos_nonneg; lia). lia.
  - apply Z.pow_le_mono_r; lia.
Qed.

Lemma pow2_capacity_u32 c : pow2_capacity c -> u32 (c - 1) = c - 1.
Proof. intros H%pow2_capacity_range. apply u32_small. lia. Qed.

(** With a power-of-two capacity the mask is the remainder. *)
Lemma pow2_mask c x : pow2_capacity c -> Z.land x (u32 (c - 1)) = x mod c.
Proof.
  intros Hc. rewrite pow2_capacity_u32 by done.
  destruct Hc as [n [Hn ->]].
  replace (2 ^ n - 1) with (Z.ones n) by (rewrite Z.ones_equiv; lia).
  apply Z.land_ones. lia.
Qed.

Lemma pow2_mod_u32 c x : pow2_capacity c -> u32 x mod c = x mod c.
Proof.
  intros [n [Hn ->]]. unfold u32.
  apply Z.mod_mod_divide.
  exists (2 ^ (32 - n)). rewrite <- Z.pow_add_r by lia. f_equal. lia.
Qed.

Lemma mask_range c x : pow2_capacity c -> 0 <= Z.land x (u32 (c - 1)) < c.
Proof.
  intros Hc. rewrite pow2_mask by done.
  apply Z.mod_pos_bound. apply pow2_capacity_range in Hc. lia.
Qed.

Lemma first_slot c h :
  pow2_capacity c -> u32 (Z.land h (u32 (c - 1))) = h mod c.
Proof.
  intros Hc. pose proof (mask_range c h Hc) as Hr.
  pose proof (pow2_capacity_range c Hc).
  rewrite u32_small by lia. by apply pow2_mask.
Qed.

Lemma next_slot c slot step :
  pow2_capacity c ->
  Z.land (u32 (slot + step)) (u32 (c - 1)) = (slot + step) mod c.
Proof. intros Hc. rewrite pow2_mask by done. by apply pow2_mod_u32. Qed.

(** ** Triangular numbers *)

Lemma tri_succ k : tri (k + 1) = tri k + (k + 1).
Proof.
  unfold tri.
  replace ((k + 1) * (k + 1 + 1)) with (k * (k + 1) + (k + 1) * 2) by lia.
  apply Z.div_add. lia.
Qed.

Lemma tri_double k : 2 * tri k = k * (k + 1).
Proof.
  unfold tri.
  assert (H : (k * (k + 1)) mod 2 = 0).
  { rewrite Z.mul_mod by lia.
    destruct (Z.mod_pos_bound k 2) as [? ?]; [lia|].
    assert (Hk : k mod 2 = 0 \/ k mod 2 = 1) by lia.
    destruct Hk as [Hk | Hk].
    - rewrite Hk. reflexivity.
    - rewrite <- Zplus_mod_idemp_l, Hk. reflexivity. }
  pose proof (Z.div_mod (k * (k + 1)) 2). lia.
Qed.

Lemma odd_coprime_pow2 x m : 0 <= m -> x mod 2 = 1 -> Z.gcd (2 ^ m) x = 1.
Proof.
  intros Hm Hx. apply Z.coprime_pow_l; [lia|].
  apply Z.coprime_prime_l; [apply Z.prime_2|].
  intros Hd%Z.mod0_divide. lia.
Qed.

Lemma small_not_multiple d x : 0 < x < d -> ~ (d | x).
Proof. intros Hx Hd. apply Z.divide_pos_le in Hd; lia. Qed.

(** Two triangular numbers below a power of two differ modulo it. *)
Lemma tri_mod_inj n i j :
  0 <= n -> 0 <= i < j -> j < 2 ^ n -> tri i mod 2 ^ n <> tri j mod 2 ^ n.
Proof.
  intros Hn Hij Hj Heq.
  assert (Hpos : 0 < 2 ^ n) by (apply Z.pow_pos_nonneg; lia).
  assert (Hd : (2 ^ n | tri j - tri i)).
  { apply Z.mod_divide; [lia|].
    rewrite Zminus_mod, Heq, Z.sub_diag. apply Z.mod_0_l. lia. }
  assert (Hd2 : (2 ^ (n + 1) | (j - i) * (j + i + 1))).
  { replace ((j - i) * (j + i + 1)) with (2 * (tri j - tri i))
      by (pose proof (tri_double i); pose proof (tri_double j); lia).
    rewrite Z.pow_add_r, Z.pow_1_r, Z.mul_comm by lia.
    by apply Z.mul_divide_mono_l. }
  assert (Hpow : 2 ^ (n + 1) = 2 * 2 ^ n)
    by (rewrite Z.pow_add_r by lia; lia).
  destruct (Z.mod_pos_bound (j - i) 2) as [? ?]; [lia|].
  assert (Hpar : (j - i) mod 2 = 1 \/ (j - i) mod 2 = 0) by lia.
  destruct Hpar as [Hodd | Heven].
  - apply (small_not_multiple (2 ^ (n + 1)) (j + i + 1)); [lia|].
    apply Z.gauss with (j - i); [done|].
    by apply odd_coprime_pow2; [lia|].
  - apply (small_not_multiple (2 ^ (n + 1)) (j - i)); [lia|].
    apply Z.gauss with (j + i + 1); [by rewrite Z.mul_comm|].
    apply odd_coprime_pow2; [lia|].
    replace (j + i + 1) with ((j - i) + (2 * i + 1)) by lia.
    rewrite Zplus_mod, Heven.
    replace (2 * i + 1) with (1 + i * 2) by lia.
    rewrite Z_mod_plus_full. reflexivity.
Qed.

(** ** The probe sequence *)

Lemma probe_slot_range c h k : pow2_capacity c -> 0 <= probe_slot c h k < c.
Proof.
  intros Hc. destruct k as [|k]; simpl.
  - rewrite first_slot by done. apply Z.mod_pos_bound.
    apply pow2_capacity_range in Hc. lia.
  - by apply mask_range.
Qed.

(** The closed form: the start plus a triangular number. *)
Lemma probe_slot_closed c h k :
  pow2_capacity c -> Z.of_nat k < 2 ^ 32 ->
  probe_slot c h k = (h + tri (Z.of_nat k)) mod c.
Proof.
  intros Hc. induction k as [|k IH]; intros Hk.
  - simpl. rewrite first_slot by done. change (tri 0) with 0.
    by rewrite Z.add_0_r.
  - cbn [probe_slot]. rewrite next_slot by done.
    rewrite IH by lia. rewrite (u32_small (Z.of_nat k + 1)) by lia.
    rewrite Zplus_mod_idemp_l. f_equal.
    replace (Z.of_nat (S k)) with (Z.of_nat k + 1) by lia.
    rewrite tri_succ. lia.
Qed.

Lemma probe_slot_inj c h i j :
  pow2_capacity c -> (i < j)%nat -> Z.of_nat j < c ->
  probe_slot c h i <> probe_slot c h j.
Proof.
  intros Hc Hij Hj Heq.
  pose proof (pow2_capacity_range c Hc) as Hr.
  rewrite !probe_slot_closed in Heq by (done || lia).
  destruct Hc as [n [Hn ->]].
  apply (tri_mod_inj n (Z.of_nat i) (Z.of_nat j)); [lia | lia | lia |].
  replace (tri (Z.of_nat i)) with ((h + tri (Z.of_nat i)) - h) by lia.
  replace (tri (Z.of_nat j)) with ((h + tri (Z.of_nat j)) - h) by lia.
  rewrite Zminus_mod, Heq, <- Zminus_mod. reflexivity.
Qed.

Lemma probes_NoDup c h : pow2_capacity c -> NoDup (probes c h).
Proof.
  intros Hc. apply NoDup_alt. intros i j x Hi Hj. unfold probes in *.
  rewrite list_lookup_fmap in Hi, Hj.
  destruct (seq 0 (Z.to_nat c) !! i) as [i'|] eqn:Ei; [|done].
  destruct (seq 0 (Z.to_nat c) !! j) as [j'|] eqn:Ej; [|done].
  apply lookup_seq in Ei as [-> Hil], Ej as [-> Hjl]. simpl in *.
  injection Hi as Hi. injection Hj as Hj.
  destruct (Nat.lt_trichotomy i j) as [Hlt | [-> | Hlt]]; [|done|].
  - exfalso. apply (probe_slot_inj c h i j); [done | done | lia | congruence].
  - exfalso. apply (probe_slot_inj c h j i); [done | done | lia | congruence].
Qed.

(** Every slot of the table is one of the first [capacity] probes. *)
Lemma probes_cover c h s :
  pow2_capacity c -> 0 <= s < c ->
  exists k, (k < Z.to_nat c)%nat /\ probe_slot c h k = s.
Proof.
  intros Hc Hs.
  assert (Hin : List.In s (probes c h)).
  { pose proof (proj1 (NoDup_ListNoDup _) (probes_NoDup c h Hc)) as Hnd.
    apply (NoDup_length_incl Hnd (l' := Z.of_nat <$> seq 0 (Z.to_nat c))).
    - unfold probes. rewrite !length_fmap. done.
    - intros x Hx. apply list_elem_of_In in Hx. unfold probes in Hx.
      apply list_elem_of_fmap in Hx as [k [-> Hk]].
      pose proof (probe_slot_range c h k Hc) as Hr.
      apply list_elem_of_In, list_elem_of_fmap.
      exists (Z.to_nat (probe_slot c h k)). split; [lia|].
      apply elem_of_seq. lia.
    - apply list_elem_of_In, list_elem_of_fmap.
      exists (Z.to_nat s). split; [lia|]. apply elem_of_seq. lia. }
  apply list_elem_of_In in Hin. unfold probes in Hin.
  apply list_elem_of_fmap in Hin as [k [-> Hk]].
  apply elem_of_seq in Hk. exists k. split; [lia | done].
Qed.

(** ** The loops and the probe *)

Lemma find_loop_probe fuel table hash capacity slot step :
  find_loop fuel table hash capacity slot step =
  find_result table <$> probe_loop fuel table hash capacity slot step.
Proof.
  revert slot step. induction fuel as [|fuel IH]; intros slot step; simpl;
    repeat case_match; try done; apply IH.
Qed.

Lemma put_loop_probe fuel ff env st table p n fr hash capacity slot step :
  put_loop fuel ff env st table p n fr hash capacity slot step =
  probe_loop fuel table hash capacity slot step ≫=
    put_result ff env st table p n fr hash capacity.
Proof.
  revert slot step. induction fuel as [|fuel IH]; intros slot step; simpl;
    repeat case_match; try done; apply IH.
Qed.

Lemma findCallTrace_probe table hash :
  findCallTrace table hash = find_result table <$> probe table hash.
Proof. apply find_loop_probe. Qed.

(** Both loops stop: the probe has an outcome once the fuel covers the
    remaining misses. *)
Lemma probe_loop_total fuel table hash c slot step :
  0 <= step < 2 ^ 32 - 1 -> c < 2 ^ 32 -> c <= Z.of_nat fuel + step + 1 ->
  is_Some (probe_loop fuel table hash c slot step).
Proof.
  revert slot step. induction fuel as [|fuel IH]; intros slot step Hs Hc Hf;
    simpl; repeat case_match; try done; rewrite Z.leb_gt in *;
    rewrite u32_small in * by lia; [lia|].
  apply IH; rewrite ?u32_small by lia; lia.
Qed.

Lemma probe_loop_fuel_mono fuel fuel' table hash c slot step o :
  probe_loop fuel table hash c slot step = Some o -> (fuel <= fuel')%nat ->
  probe_loop fuel' table hash c slot step = Some o.
Proof.
  revert fuel' slot step.
  induction fuel as [|fuel IH]; intros fuel' slot step H Hle; simpl in H.
  - destruct fuel'; simpl; repeat case_match; done.
  - destruct fuel' as [|fuel']; [lia|]. simpl.
    repeat case_match; try done. apply IH; [done | lia].
Qed.

(** One miss moves the loop from the [k]-th probe to the next. *)
Lemma probe_loop_miss fuel table hash c k :
  miss table hash (probe_slot c hash k) -> Z.of_nat k + 1 < c -> c < 2 ^ 32 ->
  probe_loop (S fuel) table hash c (probe_slot c hash k) (Z.of_nat k) =
  probe_loop fuel table hash c (probe_slot c hash (S k)) (Z.of_nat (S k)).
Proof.
  intros [Hh H0] Hk Hc. cbn [probe_loop].
  apply Z.eqb_neq in Hh, H0. rewrite Hh, H0.
  rewrite (u32_small (Z.of_nat k + 1)) by lia.
  destruct (Z.leb_spec c (Z.of_nat k + 1)); [lia|].
  cbn [probe_slot]. rewrite (u32_small (Z.of_nat k + 1)) by lia.
  f_equal. lia.
Qed.

(** The probe stops at the first of its slots that is not a miss. *)
Lemma probe_loop_first table hash c j k fuel :
  c < 2 ^ 32 -> (k <= j)%nat -> Z.of_nat j < c ->
  (forall i, (k <= i < j)%nat -> miss table hash (probe_slot c hash i)) ->
  ~ miss table hash (probe_slot c hash j) ->
  (j - k <= fuel)%nat ->
  probe_loop fuel table hash c (probe_slot c hash k) (Z.of_nat k) =
  Some (stop_outcome table hash (probe_slot c hash j)).
Proof.
  intros Hc Hkj Hj Hmiss Hstop. revert fuel.
  remember (j - k)%nat as d eqn:Hd. revert k Hkj Hmiss Hd.
  induction d as [|d IH]; intros k Hkj Hmiss Hd fuel Hfuel.
  - assert (k = j) as -> by lia.
    unfold miss, stop_outcome in *.
    destruct fuel; simpl;
      destruct (Z.eqb_spec (key_at table (probe_slot c hash j)) hash);
      try done;
      destruct (Z.eqb_spec (key_at table (probe_slot c hash j)) 0);
      try done; exfalso; apply Hstop; done.
  - destruct fuel as [|fuel]; [lia|].
    rewrite probe_loop_miss; [| apply Hmiss; lia | lia | done].
    apply IH; [lia | | lia | lia]. intros i Hi. apply Hmiss. lia.
Qed.

(** After [capacity] misses the probe gives up. *)
Lemma probe_loop_full table hash c k fuel :
  c < 2 ^ 32 -> Z.of_nat k < c ->
  (forall i, (k <= i)%nat -> Z.of_nat i < c ->
             miss table hash (probe_slot c hash i)) ->
  c <= Z.of_nat fuel + Z.of_nat k + 1 ->
  probe_loop fuel table hash c (probe_slot c hash k) (Z.of_nat k) = Some Full.
Proof.
  intros Hc. revert k. induction fuel as [|fuel IH]; intros k Hk Hmiss Hfuel.
  - destruct (Hmiss k) as [Hh H0]; [lia | lia |].
    apply Z.eqb_neq in Hh, H0. simpl. rewrite Hh, H0.
    rewrite u32_small by lia.
    destruct (Z.leb_spec c (Z.of_nat k + 1)); [done | lia].
  - destruct (Z_lt_dec (Z.of_nat k + 1) c) as [Hlt | Hge].
    + rewrite probe_loop_miss; [| apply Hmiss; lia | lia | done].
      apply IH; [lia | | lia]. intros i Hi. apply Hmiss. lia.
    + destruct (Hmiss k) as [Hh H0]; [lia | lia |].
      apply Z.eqb_neq in Hh, H0. cbn [probe_loop]. rewrite Hh, H0.
      rewrite u32_small by lia.
      destruct (Z.leb_spec c (Z.of_nat k + 1)); [done | lia].
Qed.

Lemma probe_loop_keys fuel table hash c slot step o :
  probe_loop fuel table hash c slot step = Some o -> outcome_keys table hash o.
Proof.
  revert slot step. induction fuel as [|fuel IH]; intros slot step; simpl;
    destruct (Z.eqb_spec (key_at table slot) hash);
    try (intros [= <-]; done);
    destruct (Z.eqb_spec (key_at table slot) 0);
    try (intros [= <-]; simpl; split; congruence);
    case_match; try (intros [= <-]; done); try done.
  apply IH.
Qed.

Lemma probe_loop_slot_range fuel table hash c slot step o s :
  pow2_capacity c -> 0 <= slot < c ->
  probe_loop fuel table hash c slot step = Some o ->
  outcome_slot o = Some s -> 0 <= s < c.
Proof.
  intros Hc. revert slot step.
  induction fuel as [|fuel IH]; intros slot step Hslot; simpl;
    repeat case_match; try done;
    try (intros [= <-] [= <-]; done).
  apply IH. by apply mask_range.
Qed.

Lemma probe_keys table hash o :
  probe table hash = Some o -> outcome_keys table hash o.
Proof. apply probe_loop_keys. Qed.

Lemma probe_slot_in_range table hash o s :
  pow2_capacity (_capacity table) ->
  probe table hash = Some o -> outcome_slot o = Some s ->
  0 <= s < _capacity table.
Proof.
  intros Hc. apply probe_loop_slot_range; [done|].
  apply (probe_slot_range _ hash 0 Hc).
Qed.

Lemma probe_total table hash :
  _capacity table < 2 ^ 32 -> is_Some (probe table hash).
Proof. intros Hc. apply probe_loop_total; lia. Qed.

(** ** put in terms of the probe *)

Lemma put_probe env st n fr t p :
  _current_table st = t :: p ->
  put env st n fr =
  probe t (calcHash n fr) ≫=
    put_result (find_fuel p) env st t p n fr (calcHash n fr) (_capacity t).
Proof.
  intros Hct. unfold put, put_fuel. rewrite Hct. apply put_loop_probe.
Qed.

Lemma claim_spec env st t p n fr hash slot :
  claim (find_fuel p) env st t p n fr hash (_capacity t) slot =
  claim_result env st t p n fr hash slot <$> inherited p hash.
Proof.
  unfold claim, claim_result, inherited, grows, publish, claimed_table.
  cbn [incSize prev tail _capacity _size keys values].
  assert (Hf : match p with
               | [] => Some NULL
               | pt :: _ => findCallTrace_fuel (find_fuel p) pt hash
               end = match p with
                     | [] => Some NULL
                     | pt :: _ => findCallTrace pt hash
                     end) by (destruct p; done).
  rewrite Hf.
  generalize (match p with [] => Some NULL | pt :: _ => findCallTrace pt hash end).
  intros [tr|]; [|done].
  cbn [mbind option_bind fmap option_fmap option_map].
  destruct (tr =? NULL); unfold storeCallTrace, allocate;
    destruct (alloc_ok env), (safeAlloc_ok env),
      (u32 (_size t + 1) =? u32 (_capacity t * 3) / 4); done.
Qed.

(** [put], case by case. *)
Lemma put_Found env st n fr t p slot :
  _current_table st = t :: p ->
  probe t (calcHash n fr) = Some (Found slot) ->
  put env st n fr = Some (st, slot_id (_capacity t) slot).
Proof. intros Hct Hp. rewrite (put_probe _ _ _ _ t p Hct), Hp. done. Qed.

Lemma put_Full env st n fr t p :
  _current_table st = t :: p ->
  probe t (calcHash n fr) = Some Full ->
  put env st n fr = Some (st, 0).
Proof. intros Hct Hp. rewrite (put_probe _ _ _ _ t p Hct), Hp. done. Qed.

Lemma put_Vacant env st n fr t p slot :
  _current_table st = t :: p ->
  probe t (calcHash n fr) = Some (Vacant slot) ->
  put env st n fr =
  (fun trace => (claim_result env st t p n fr (calcHash n fr) slot trace,
                 slot_id (_capacity t) slot)) <$> inherited p (calcHash n fr).
Proof.
  intros Hct Hp. rewrite (put_probe _ _ _ _ t p Hct), Hp.
  cbn [mbind option_bind put_result]. rewrite claim_spec.
  by destruct (inherited p (calcHash n fr)).
Qed.

(** ** The chain invariant and the IDs *)

Lemma chain_ok_head t p : chain_ok (t :: p) -> _capacity t <= 2 ^ 31.
Proof. by intros [H _]. Qed.

Lemma chain_ok_tail t p : chain_ok (t :: p) -> p <> [] -> chain_ok p.
Proof. intros [_ H] Hp. destruct p; [done|]. by destruct H. Qed.

Lemma chain_ok_pow2 chain t :
  chain_ok chain -> t ∈ chain ->
  pow2_capacity (_capacity t) /\ INITIAL_CAPACITY <= _capacity t.
Proof.
  revert t. induction chain as [|t0 p IH]; intros t Hok Hin; [done|].
  destruct p as [|pt p'].
  - apply list_elem_of_singleton in Hin as ->. destruct Hok as [_ ->].
    split; [|done]. exists 16. split; [lia | done].
  - destruct Hok as [Hle [Hcap Hok]].
    destruct (IH pt Hok) as [[m [Hm Hpt]] Hge]; [by left|].
    apply elem_of_cons in Hin as [-> | Hin]; [|by apply IH].
    unfold INITIAL_CAPACITY in *. split; [|lia].
    exists (m + 1). split.
    + assert (m + 1 <= 31); [|lia].
      apply (Z.pow_le_mono_r_iff 2); [lia | lia |].
      rewrite Z.pow_add_r by lia. lia.
    + rewrite Z.pow_add_r by lia. lia.
Qed.

Lemma chain_ok_tail_in t p t' : chain_ok (t :: p) -> t' ∈ p -> chain_ok p.
Proof.
  intros Hok Hin. apply (chain_ok_tail t); [done|].
  intros ->. by apply elem_of_nil in Hin.
Qed.

(** A table has at least twice the slots of every older one. *)
Lemma chain_ok_older t p t' :
  chain_ok (t :: p) -> t' ∈ p -> 2 * _capacity t' <= _capacity t.
Proof.
  revert t. induction p as [|pt p IH]; intros t Hok Hin; [by apply elem_of_nil in Hin|].
  destruct Hok as [_ [Hcap Hok]].
  apply elem_of_cons in Hin as [-> | Hin]; [lia|].
  specialize (IH pt Hok Hin).
  destruct (chain_ok_pow2 _ t' Hok) as [_ Hge]; [by right|].
  unfold INITIAL_CAPACITY in *. lia.
Qed.

Lemma chain_ok_capacity_range chain t :
  chain_ok chain -> t ∈ chain ->
  INITIAL_CAPACITY <= _capacity t <= 2 ^ 31.
Proof.
  intros Hok Hin. split; [by apply (chain_ok_pow2 chain)|].
  by apply pow2_capacity_range, (chain_ok_pow2 chain).
Qed.

(** Without wrap-around the ID is [capacity - (INITIAL_CAPACITY - 1) + slot]. *)
Lemma slot_id_exact c s :
  INITIAL_CAPACITY <= c <= 2 ^ 31 -> 0 <= s < c ->
  slot_id c s = c - (INITIAL_CAPACITY - 1) + s.
Proof.
  unfold slot_id, INITIAL_CAPACITY. intros Hc Hs.
  rewrite (u32_small (65536 - 1)) by lia.
  rewrite (u32_small (c - _)) by lia.
  apply u32_small. lia.
Qed.

Lemma slot_id_range c s :
  INITIAL_CAPACITY <= c <= 2 ^ 31 -> 0 <= s < c ->
  c - (INITIAL_CAPACITY - 1) <= slot_id c s <= 2 * c - INITIAL_CAPACITY.
Proof. intros Hc Hs. rewrite slot_id_exact by done. lia. Qed.

Lemma slot_id_nonzero c s :
  INITIAL_CAPACITY <= c <= 2 ^ 31 -> 0 <= s < c -> slot_id c s <> 0.
Proof.
  intros Hc Hs. pose proof (slot_id_range c s Hc Hs).
  unfold INITIAL_CAPACITY in *. lia.
Qed.

Lemma slot_id_inj c s s' :
  INITIAL_CAPACITY <= c <= 2 ^ 31 -> 0 <= s < c -> 0 <= s' < c ->
  slot_id c s = slot_id c s' -> s = s'.
Proof. intros Hc Hs Hs'. rewrite !slot_id_exact by done. lia. Qed.

(** The IDs of two tables of a chain do not meet. *)
Lemma slot_id_older t p t' s s' :
  chain_ok (t :: p) -> t' ∈ p ->
  0 <= s < _capacity t -> 0 <= s' < _capacity t' ->
  slot_id (_capacity t') s' < slot_id (_capacity t) s.
Proof.
  intros Hok Hin Hs Hs'.
  pose proof (chain_ok_older t p t' Hok Hin).
  pose proof (chain_ok_capacity_range (t :: p) t Hok ltac:(by left)).
  pose proof (chain_ok_capacity_range (t :: p) t' Hok ltac:(by right)).
  rewrite !slot_id_exact by done. lia.
Qed.

Lemma chain_ok_same_capacity chain t t' :
  chain_ok chain -> t ∈ chain -> t' ∈ chain ->
  _capacity t = _capacity t' -> t = t'.
Proof.
  induction chain as [|t0 p IH]; [done|]. intros Hok Hin Hin' Hcap.
  pose proof (chain_ok_capacity_range _ t Hok Hin) as Hr.
  unfold INITIAL_CAPACITY in Hr.
  apply elem_of_cons in Hin as [-> | Hin], Hin' as [-> | Hin'].
  - done.
  - pose proof (chain_ok_older _ _ _ Hok Hin'). lia.
  - pose proof (chain_ok_older _ _ _ Hok Hin). lia.
  - apply IH; [|done..]. by apply (chain_ok_tail_in t0 p t).
Qed.

Lemma slot_id_chain_inj chain t s t' s' :
  chain_ok chain -> t ∈ chain -> t' ∈ chain ->
  0 <= s < _capacity t -> 0 <= s' < _capacity t' ->
  slot_id (_capacity t) s = slot_id (_capacity t') s' ->
  t = t' /\ s = s'.
Proof.
  induction chain as [|t0 p IH]; [done|]. intros Hok Hin Hin' Hs Hs' Hid.
  pose proof (chain_ok_capacity_range _ t Hok Hin) as Hr.
  apply elem_of_cons in Hin as [-> | Hin], Hin' as [-> | Hin'].
  - split; [done|]. by apply (slot_id_inj (_capacity t0)).
  - pose proof (slot_id_older _ _ _ s s' Hok Hin' Hs Hs'). lia.
  - pose proof (slot_id_older _ _ _ s' s Hok Hin Hs' Hs). lia.
  - apply IH; [|done..]. by apply (chain_ok_tail_in t0 p t).
Qed.

(** ** collect *)

Lemma collect_slots_other n t s0 m id :
  (forall s, s0 <= s < s0 + Z.of_nat n -> key_at t s <> 0 ->
             slot_id (_capacity t) s <> id) ->
  collect_slots n t s0 m !! id = m !! id.
Proof.
  revert s0 m. induction n as [|n IH]; intros s0 m Hother; [done|].
  simpl. rewrite IH by (intros s Hs; apply Hother; lia).
  destruct (Z.eqb_spec (key_at t s0) 0) as [|Hkey]; [done|].
  apply lookup_insert_ne, Hother; [lia | done].
Qed.

Lemma collect_slots_hit n t s0 m s :
  INITIAL_CAPACITY <= _capacity t <= 2 ^ 31 ->
  0 <= s0 -> s0 + Z.of_nat n <= _capacity t ->
  s0 <= s < s0 + Z.of_nat n -> key_at t s <> 0 ->
  collect_slots n t s0 m !! slot_id (_capacity t) s = Some (value_at t s).
Proof.
  intros Hc. revert s0 m.
  induction n as [|n IH]; intros s0 m Hs0 Hn Hs Hkey; [lia|].
  simpl. destruct (decide (s = s0)) as [-> | Hne].
  - rewrite collect_slots_other.
    + destruct (Z.eqb_spec (key_at t s0) 0); [done|].
      apply lookup_insert_eq.
    + intros s' Hs' _ Heq. apply slot_id_inj in Heq; lia.
  - apply IH; lia.
Qed.

Lemma collect_tables_other chain m id :
  ~ occupied chain id -> collect_tables chain m !! id = m !! id.
Proof.
  revert m. induction chain as [|t p IH]; intros m Hno; [done|].
  simpl. rewrite IH.
  - apply collect_slots_other. intros s Hs Hkey Hid. apply Hno.
    exists t, s. split; [by left|]. split; [lia | done].
  - intros (t' & s & Hin & Hs & Hkey & Hid). apply Hno.
    exists t', s. split; [by right | done].
Qed.

(** Every occupied slot of the chain is emitted under its own ID, with the
    value of the slot. *)
Lemma collect_tables_hit chain m t s :
  chain_ok chain -> t ∈ chain -> 0 <= s < _capacity t -> key_at t s <> 0 ->
  collect_tables chain m !! slot_id (_capacity t) s = Some (value_at t s).
Proof.
  revert m. induction chain as [|t0 p IH]; intros m Hok Hin Hs Hkey.
  { by apply elem_of_nil in Hin. }
  simpl. apply elem_of_cons in Hin as [-> | Hin].
  - rewrite collect_tables_other.
    + apply collect_slots_hit; [|lia..|done].
      apply (chain_ok_capacity_range (t0 :: p)); [done | by left].
    + intros (t' & s' & Hin' & Hs' & _ & Hid).
      pose proof (slot_id_older t0 p t' s s' Hok Hin' Hs Hs'). lia.
  - apply IH; [|done..]. by apply (chain_ok_tail_in t0 p t).
Qed.

Lemma collect_slots_inv n t s0 m id :
  is_Some (collect_slots n t s0 m !! id) ->
  (exists s, s0 <= s < s0 + Z.of_nat n /\ key_at t s <> 0 /\
             slot_id (_capacity t) s = id) \/ is_Some (m !! id).
Proof.
  revert s0 m. induction n as [|n IH]; intros s0 m Hsome; [by right|].
  simpl in Hsome. apply IH in Hsome as [(s & Hs & Hkey & Hid) | Hsome].
  { left. exists s. split; [lia | done]. }
  destruct (Z.eqb_spec (key_at t s0) 0) as [|Hkey]; [by right|].
  destruct (decide (slot_id (_capacity t) s0 = id)) as [Hid | Hid].
  - left. exists s0. split; [lia | done].
  - right. by rewrite lookup_insert_ne in Hsome.
Qed.

Lemma collect_tables_inv chain m id :
  is_Some (collect_tables chain m !! id) ->
  occupied chain id \/ is_Some (m !! id).
Proof.
  revert m. induction chain as [|t p IH]; intros m Hsome; [by right|].
  simpl in Hsome. apply IH in Hsome as [(t' & s & Hin & Hrest) | Hsome].
  { left. exists t', s. split; [by right | done]. }
  apply collect_slots_inv in Hsome as [(s & Hs & Hkey & Hid) | Hsome];
    [|by right].
  left. exists t, s. split; [by left|]. split; [lia | done].
Qed.

Lemma collect_slots_keeps n t s0 m id :
  is_Some (m !! id) -> is_Some (collect_slots n t s0 m !! id).
Proof.
  revert s0 m. induction n as [|n IH]; intros s0 m Hsome; [done|].
  simpl. apply IH. destruct (key_at t s0 =? 0); [done|].
  rewrite lookup_insert. by case_decide.
Qed.

Lemma collect_tables_keeps chain m id :
  is_Some (m !! id) -> is_Some (collect_tables chain m !! id).
Proof.
  revert m. induction chain as [|t p IH]; intros m Hsome; [done|].
  simpl. by apply IH, collect_slots_keeps.
Qed.

(** The keys of the output map: the IDs of the occupied slots, and the keys
    that the map had. *)
Lemma collect_tables_lookup chain m id :
  chain_ok chain ->
  is_Some (collect_tables chain m !! id) <->
  occupied chain id \/ is_Some (m !! id).
Proof.
  intros Hok. split; [apply collect_tables_inv|].
  intros [(t & s & Hin & Hs & Hkey & <-) | Hm].
  - by rewrite (collect_tables_hit chain m t s).
  - by apply collect_tables_keeps.
Qed.

(** ** Termination *)

Lemma findCallTrace_total table hash :
  _capacity table < 2 ^ 32 -> is_Some (findCallTrace table hash).
Proof.
  intros Hc. rewrite findCallTrace_probe.
  destruct (probe_total table hash Hc) as [o ->]. by eexists.
Qed.

Lemma inherited_total p hash :
  (forall pt, pt ∈ p -> _capacity pt < 2 ^ 32) -> is_Some (inherited p hash).
Proof.
  destruct p as [|pt p]; intros Hp; [by eexists|].
  apply findCallTrace_total, Hp. by left.
Qed.

(** [put] returns whenever the store has a table, and the capacities are
    those of [u32] fields. *)
Lemma put_total env st n fr :
  _current_table st <> [] ->
  (forall t, t ∈ _current_table st -> _capacity t < 2 ^ 32) ->
  is_Some (put env st n fr).
Proof.
  intros Hne Hcap. destruct (_current_table st) as [|t p] eqn:Hct; [done|].
  destruct (probe_total t (calcHash n fr)) as [o Ho]; [apply Hcap; by left|].
  destruct o as [slot | slot |].
  - rewrite (put_Found env st n fr t p slot) by done. by eexists.
  - rewrite (put_Vacant env st n fr t p slot) by done.
    destruct (inherited_total p (calcHash n fr)) as [tr ->]; [|by eexists].
    intros pt Hpt. apply Hcap. by right.
  - rewrite (put_Full env st n fr t p) by done. by eexists.
Qed.

Lemma probe_first table hash k :
  pow2_capacity (_capacity table) -> Z.of_nat k < _capacity table ->
  (forall i, (i < k)%nat ->
             miss table hash (probe_slot (_capacity table) hash i)) ->
  ~ miss table hash (probe_slot (_capacity table) hash k) ->
  probe table hash =
  Some (stop_outcome table hash (probe_slot (_capacity table) hash k)).
Proof.
  intros Hc Hk Hmiss Hstop. pose proof (pow2_capacity_range _ Hc).
  apply (probe_loop_first table hash (_capacity table) k 0); try done; try lia.
  intros i Hi. apply Hmiss. lia.
Qed.

Lemma probe_full table hash :
  pow2_capacity (_capacity table) ->
  (forall k, Z.of_nat k < _capacity table ->
             miss table hash (probe_slot (_capacity table) hash k)) ->
  probe table hash = Some Full.
Proof.
  intros Hc Hmiss. pose proof (pow2_capacity_range _ Hc).
  apply (probe_loop_full table hash (_capacity table) 0); try lia.
  intros i _ Hi. by apply Hmiss.
Qed.

(** C4: with a power-of-two capacity the probe sequence of [findCallTrace]
    and [put] is the start slot plus the triangular numbers, its first
    [capacity] positions are pairwise distinct and cover every slot, both
    loops stop at the first probed slot that holds the hash, and when all
    [capacity] probes miss [findCallTrace] returns null and [put] returns 0. *)
Theorem triangular_probing c hash :
  pow2_capacity c ->
  (forall k, Z.of_nat k < c ->
     probe_slot c hash k =
     (hash + Z.of_nat k * (Z.of_nat k + 1) / 2) mod c) /\
  NoDup (probes c hash) /\
  (forall s, 0 <= s < c ->
     exists k, (k < Z.to_nat c)%nat /\ probe_slot c hash k = s) /\
  (forall table env st p n fr,
     _capacity table = c -> _current_table st = table :: p ->
     calcHash n fr = hash ->
     is_Some (findCallTrace table hash) /\
     (forall k, Z.of_nat k < c ->
        (forall i, (i < k)%nat -> miss table hash (probe_slot c hash i)) ->
        key_at table (probe_slot c hash k) = hash ->
        findCallTrace table hash =
          Some (value_at table (probe_slot c hash k)) /\
        put env st n fr = Some (st, slot_id c (probe_slot c hash k))) /\
     ((forall k, Z.of_nat k < c -> miss table hash (probe_slot c hash k)) ->
        findCallTrace table hash = Some NULL /\
        put env st n fr = Some (st, 0))).
Proof.
  intros Hc. pose proof (pow2_capacity_range c Hc) as Hr.
  split; [|split; [|split]].
  - intros k Hk. apply probe_slot_closed; [done | lia].
  - by apply probes_NoDup.
  - intros s Hs. by apply probes_cover.
  - intros table env st p n fr <- Hct <-. split; [|split].
    + apply findCallTrace_total. lia.
    + intros k Hk Hmiss Hkey.
      assert (Hp : probe table (calcHash n fr) =
                   Some (Found (probe_slot (_capacity table) (calcHash n fr) k))).
      { rewrite (probe_first table _ k Hc Hk Hmiss).
        - unfold stop_outcome. by rewrite Hkey, Z.eqb_refl.
        - intros [Hne _]. done. }
      split.
      * rewrite findCallTrace_probe, Hp. done.
      * by apply (put_Found env st n fr table p).
    + intros Hmiss. pose proof (probe_full table _ Hc Hmiss) as Hp. split.
      * rewrite findCallTrace_probe, Hp. done.
      * by apply (put_Full env st n fr table p).
Qed.

(** ** clear *)

Lemma clear_loop_last chain :
  chain <> [] -> exists t, clear_loop chain = [t] /\ last chain = Some t.
Proof.
  induction chain as [|t0 p IH]; [done|]. intros _.
  destruct p as [|pt p']; [by exists t0|].
  destruct IH as [t [Hloop Hlast]]; [done|]. exists t. split; done.
Qed.

Lemma chain_ok_last chain t :
  chain_ok chain -> last chain = Some t -> _capacity t = INITIAL_CAPACITY.
Proof.
  induction chain as [|t0 p IH]; [done|]. intros Hok Hlast.
  destruct p as [|pt p'].
  - injection Hlast as <-. by destruct Hok.
  - apply IH; [|done]. by destruct Hok as [_ [_ Hok]].
Qed.

Lemma clear_spec st :
  _current_table st <> [] ->
  exists tail_table,
    last (_current_table st) = Some tail_table /\
    clear st = Some (mkStorage [LongHashTable_clear tail_table] allocator_new).
Proof.
  intros Hne.
  destruct (clear_loop_last (_current_table st) Hne) as [t [Hloop Hlast]].
  exists t. split; [done|]. unfold clear. by rewrite Hloop.
Qed.

Lemma chain_ok_nonempty chain : chain_ok chain -> chain <> [].
Proof. by destruct chain. Qed.

(** C9: after [clear] the chain is the oldest table alone, with
    [INITIAL_CAPACITY] slots, size 0 and every key and value zero, and the
    arena is empty. *)
Theorem clear_resets st :
  chain_ok (_current_table st) ->
  exists tail_table,
    last (_current_table st) = Some tail_table /\
    clear st =
      Some (mkStorage [LongHashTable_clear tail_table] allocator_new) /\
    length [LongHashTable_clear tail_table] = 1%nat /\
    prev [LongHashTable_clear tail_table] = [] /\
    _capacity (LongHashTable_clear tail_table) = INITIAL_CAPACITY /\
    _size (LongHashTable_clear tail_table) = 0 /\
    (forall slot,
       key_at (LongHashTable_clear tail_table) slot = 0 /\
       value_at (LongHashTable_clear tail_table) slot = NULL) /\
    (forall ptr, deref allocator_new ptr = None).
Proof.
  intros Hok.
  destruct (clear_spec st (chain_ok_nonempty _ Hok)) as (t & Hlast & Hclear).
  exists t. split; [done|]. split; [done|].
  repeat split; try done.
  simpl. by apply (chain_ok_last (_current_table st)).
Qed.

(** ** The claim of a slot *)

Lemma key_at_claimed t slot hash trace s :
  key_at (claimed_table t slot hash trace) s =
  if decide (slot = s) then hash else key_at t s.
Proof. unfold key_at, claimed_table. simpl. rewrite lookup_insert. by case_decide. Qed.

Lemma value_at_claimed t slot hash trace s :
  value_at (claimed_table t slot hash trace) s =
  if decide (slot = s) then trace else value_at t s.
Proof. unfold value_at, claimed_table. simpl. rewrite lookup_insert. by case_decide. Qed.

Lemma key_at_empty c sz s : key_at (mkTable c sz ∅ ∅) s = 0.
Proof. unfold key_at. simpl. by rewrite lookup_empty. Qed.

Lemma collect_slots_empty n t s0 m :
  (forall s, key_at t s = 0) -> collect_slots n t s0 m = m.
Proof.
  intros Hempty. revert s0 m. induction n as [|n IH]; intros s0 m; [done|].
  simpl. rewrite Hempty. simpl. apply IH.
Qed.

(** The chain after a claim: the claimed table in front of the older ones,
    behind the new table if one was installed. *)
Lemma claim_result_chain env st t p n fr hash slot trace :
  let st' := claim_result env st t p n fr hash slot trace in
  let t' := claimed_table t slot hash
              (snd (publish env (_allocator st) n fr trace)) in
  _current_table st' =
    (if grows env t then [mkTable (u32 (_capacity t * 2)) 0 ∅ ∅] else [])
    ++ t' :: p.
Proof. simpl. unfold claim_result. simpl. by destruct (grows env t). Qed.

Lemma collect_claim_result env st t p n fr hash slot trace m :
  collect (claim_result env st t p n fr hash slot trace) m =
  collect_tables
    (claimed_table t slot hash (snd (publish env (_allocator st) n fr trace))
     :: p) m.
Proof.
  unfold collect. rewrite claim_result_chain.
  destruct (grows env t); [|done].
  cbn [app]. change (collect_tables (?new :: ?rest) m)
    with (collect_tables rest
            (collect_slots (Z.to_nat (_capacity new)) new 0 m)).
  rewrite collect_slots_empty; [done|].
  intros s. apply key_at_empty.
Qed.

Lemma chain_ok_claimed t p slot hash trace :
  chain_ok (t :: p) -> chain_ok (claimed_table t slot hash trace :: p).
Proof. done. Qed.

Lemma chain_ok_grown t p :
  chain_ok (t :: p) -> _capacity t <= 2 ^ 30 ->
  chain_ok (mkTable (u32 (_capacity t * 2)) 0 ∅ ∅ :: t :: p).
Proof.
  intros Hok Hc.
  pose proof (chain_ok_capacity_range _ t Hok ltac:(by left)) as Hr.
  unfold INITIAL_CAPACITY in Hr.
  cbn [chain_ok _capacity]. rewrite u32_small by lia.
  split; [lia|]. split; [lia | done].
Qed.

(** ** The arena *)

Lemma arena_ok_new : arena_ok allocator_new.
Proof.
  split; [done|]. intros ptr [x Hx]. simpl in Hx.
  by rewrite lookup_empty in Hx.
Qed.

Lemma copy_frames_take n (fr : list ASGCT_CallFrame) :
  copy_frames n fr = take n fr.
Proof.
  revert fr. induction n as [|n IH]; intros [|f fr]; simpl; f_equal; auto.
Qed.

Lemma storeCallTrace_ok a n fr a' buf :
  arena_ok a -> storeCallTrace true a n fr = (a', buf) ->
  buf <> NULL /\ deref a buf = None /\
  deref a' buf = Some (mkCallTrace n (take (Z.to_nat n) fr)) /\
  (forall ptr, ptr <> buf -> deref a' ptr = deref a ptr) /\
  arena_ok a'.
Proof.
  intros [Hcur Hobj] [= <- <-]. unfold deref, NULL. simpl.
  split; [lia|]. split; [|split; [|split]].
  - destruct (objects a !! (cursor a + 1)) eqn:E; [|done].
    destruct (Hobj (cursor a + 1)); [by eexists | lia].
  - rewrite lookup_insert_eq, copy_frames_take. done.
  - intros ptr Hne. by rewrite lookup_insert_ne.
  - split; simpl; [lia|].
    intros ptr. rewrite lookup_insert. case_decide; [lia|].
    intros Hptr%Hobj. lia.
Qed.

Lemma storeCallTrace_fail a n fr : storeCallTrace false a n fr = (a, NULL).
Proof. done. Qed.

(** ** The hash 0 *)

Lemma not_occupied_vacant chain t s :
  chain_ok chain -> t ∈ chain -> 0 <= s < _capacity t -> key_at t s = 0 ->
  ~ occupied chain (slot_id (_capacity t) s).
Proof.
  intros Hok Hin Hs Hkey (t' & s' & Hin' & Hs' & Hkey' & Hid).
  destruct (slot_id_chain_inj chain t' s' t s) as [-> ->]; done.
Qed.

(** C10 (amended): when the hash of the input is 0 and a probed slot of the
    current table has the key 0, [put] stops at the first such slot, returns
    the non-zero ID of that slot and leaves the storage as it was (no key, no
    size increment, no allocation), however often the input is put;
    [collect] has no entry for that ID in any storage in which the key of
    the slot is still 0.  When every probed slot has a key, [put] returns 0
    and leaves the storage as it was. *)
Theorem put_zero_hash env st table p n fr :
  _current_table st = table :: p ->
  chain_ok (table :: p) ->
  calcHash n fr = 0 ->
  let c := _capacity table in
  (forall k,
     Z.of_nat k < c ->
     (forall i, (i < k)%nat -> key_at table (probe_slot c 0 i) <> 0) ->
     key_at table (probe_slot c 0 k) = 0 ->
     let slot := probe_slot c 0 k in
     let id := slot_id c slot in
     put env st n fr = Some (st, id) /\
     id <> 0 /\
     (forall envs : list Env,
        run_puts st ((fun e => (e, (n, fr))) <$> envs) =
        Some (st, (fun _ => id) <$> envs)) /\
     (forall st' t',
        chain_ok (_current_table st') -> t' ∈ _current_table st' ->
        _capacity t' = c -> key_at t' slot = 0 ->
        forall m, m !! id = None -> collect st' m !! id = None) /\
     collect st ∅ !! id = None) /\
  ((forall k, Z.of_nat k < c -> key_at table (probe_slot c 0 k) <> 0) ->
   put env st n fr = Some (st, 0)).
Proof.
  intros Hct Hok Hhash c.
  destruct (chain_ok_pow2 _ table Hok ltac:(by left)) as [Hpow _].
  pose proof (chain_ok_capacity_range _ table Hok ltac:(by left)) as Hcap.
  split.
  - intros k Hk Hmiss Hkey slot id.
    pose proof (probe_slot_range c 0 k Hpow) as Hslot.
    assert (Hput : forall e, put e st n fr = Some (st, id)).
    { intros e. apply (put_Found e st n fr table p); [done|].
      rewrite Hhash, (probe_first table 0 k); try done.
      - unfold stop_outcome. fold c. by rewrite Hkey.
      - intros i Hi. split; by apply Hmiss.
      - intros [Hne _]. done. }
    assert (Hcollect : forall st' t',
              chain_ok (_current_table st') -> t' ∈ _current_table st' ->
              _capacity t' = c -> key_at t' slot = 0 ->
              forall m, m !! id = None -> collect st' m !! id = None).
    { intros st' t' Hok' Hin' Hcap' Hkey' m Hm. unfold collect.
      rewrite collect_tables_other; [done|]. unfold id. rewrite <- Hcap'.
      apply not_occupied_vacant; [done | done | by rewrite Hcap' | done]. }
    split; [apply Hput|]. split; [by apply slot_id_nonzero|].
    split; [|split; [done|]].
    + intros envs. induction envs as [|e envs IH]; [done|].
      cbn [fmap list_fmap run_puts]. rewrite Hput.
      change (list_fmap _ _ ?f envs) with (f <$> envs). by rewrite IH.
    + apply (Hcollect st table); [by rewrite Hct | rewrite Hct; by left |
                                  done | done | apply lookup_empty].
  - intros Hfull. apply (put_Full env st n fr table p); [done|].
    rewrite Hhash. apply probe_full; [done|].
    intros k Hk. split; by apply Hfull.
Qed.

(** ** Failures *)

(** C8: when the arena allocation fails after the key of a slot has been
    claimed, [put] goes on: the slot holds the hash and a null value, the ID
    of the slot is returned and is not zero, and [collect] maps that ID to
    null.  When the probe gives up after [capacity] misses, [put] returns 0
    and the storage is as it was. *)
Theorem put_allocation_failure env st table p n fr :
  _current_table st = table :: p ->
  chain_ok (table :: p) ->
  let hash := calcHash n fr in
  let c := _capacity table in
  (forall slot,
     probe table hash = Some (Vacant slot) ->
     inherited p hash = Some NULL ->
     alloc_ok env = false ->
     exists st' table',
       put env st n fr = Some (st', slot_id c slot) /\
       slot_id c slot <> 0 /\
       table' ∈ _current_table st' /\
       _capacity table' = c /\
       key_at table' slot = hash /\ hash <> 0 /\
       value_at table' slot = NULL /\
       _allocator st' = _allocator st /\
       collect st' ∅ !! slot_id c slot = Some NULL) /\
  (probe table hash = Some Full -> put env st n fr = Some (st, 0)).
Proof.
  intros Hct Hok hash c.
  split; [|intros Hp; by apply (put_Full env st n fr table p)].
  intros slot Hp Hinh Halloc.
  destruct (chain_ok_pow2 _ table Hok ltac:(by left)) as [Hpow _].
  pose proof (chain_ok_capacity_range _ table Hok ltac:(by left)) as Hcap.
  pose proof (probe_slot_in_range table hash _ slot Hpow Hp eq_refl) as Hslot.
  destruct (probe_keys table hash _ Hp) as [Hkey Hhash].
  assert (Hpub : publish env (_allocator st) n fr NULL = (_allocator st, NULL)).
  { unfold publish. simpl. by rewrite Halloc. }
  exists (claim_result env st table p n fr hash slot NULL),
         (claimed_table table slot hash NULL).
  split. { rewrite (put_Vacant env st n fr table p slot) by done.
           fold hash. by rewrite Hinh. }
  split; [by apply slot_id_nonzero|].
  split. { rewrite claim_result_chain, Hpub. apply elem_of_app. right. by left. }
  split; [done|].
  split. { rewrite key_at_claimed. by case_decide. }
  split; [done|].
  split. { rewrite value_at_claimed. by case_decide. }
  split. { unfold claim_result. by rewrite Hpub. }
  rewrite collect_claim_result, Hpub. cbn [snd].
  replace c with (_capacity (claimed_table table slot hash NULL)) by done.
  rewrite collect_tables_hit; try done.
  - rewrite value_at_claimed. by case_decide.
  - by left.
  - rewrite key_at_claimed. by case_decide.
Qed.

(** ** Inheritance *)

(** C6: when [put] claims an empty slot of a table that has a predecessor,
    it looks the hash up in the predecessor.  A non-null result is stored in
    [values[slot]] and the arena is left alone; otherwise, when the arena
    can serve the request, a fresh [CallTrace] is allocated whose
    [num_frames] is the argument and whose frames are the first
    [num_frames] input frames, and its address is stored in [values[slot]]. *)
Theorem put_inherits_or_stores env st table pt p n fr slot :
  _current_table st = table :: pt :: p ->
  _capacity pt < 2 ^ 32 ->
  arena_ok (_allocator st) ->
  probe table (calcHash n fr) = Some (Vacant slot) ->
  exists trace st' table',
    findCallTrace pt (calcHash n fr) = Some trace /\
    put env st n fr = Some (st', slot_id (_capacity table) slot) /\
    (_current_table st' = table' :: pt :: p \/
     exists new_table, _current_table st' = new_table :: table' :: pt :: p) /\
    key_at table' slot = calcHash n fr /\
    (trace <> NULL ->
       value_at table' slot = trace /\ _allocator st' = _allocator st) /\
    (trace = NULL -> alloc_ok env = true ->
       value_at table' slot <> NULL /\
       deref (_allocator st) (value_at table' slot) = None /\
       deref (_allocator st') (value_at table' slot) =
         Some (mkCallTrace n (take (Z.to_nat n) fr)) /\
       (forall i, (i < Z.to_nat n)%nat ->
          take (Z.to_nat n) fr !! i = fr !! i) /\
       (forall ptr, ptr <> value_at table' slot ->
          deref (_allocator st') ptr = deref (_allocator st) ptr)).
Proof.
  intros Hct Hcap Harena Hp.
  destruct (findCallTrace_total pt (calcHash n fr) Hcap) as [trace Hfind].
  set (pub := publish env (_allocator st) n fr trace).
  exists trace, (claim_result env st table (pt :: p) n fr (calcHash n fr) slot trace),
         (claimed_table table slot (calcHash n fr) (snd pub)).
  split; [done|].
  split. { rewrite (put_Vacant env st n fr table (pt :: p) slot) by done.
           cbn [inherited]. by rewrite Hfind. }
  split. { rewrite claim_result_chain. destruct (grows env table); [right | left].
           - by eexists.
           - done. }
  split. { rewrite key_at_claimed. by case_decide. }
  rewrite value_at_claimed. case_decide; [|done].
  unfold claim_result. fold pub. cbn [_allocator]. split.
  - intros Hne. unfold pub, publish.
    destruct (Z.eqb_spec trace NULL); done.
  - intros -> Halloc. unfold pub, publish. simpl. rewrite Halloc.
    destruct (storeCallTrace true (_allocator st) n fr) as [a' buf] eqn:Hstore.
    destruct (storeCallTrace_ok _ _ _ _ _ Harena Hstore)
      as (Hnull & Hfresh & Hnew & Hothers & _).
    cbn [fst snd]. repeat split; try done.
    intros i Hi. by apply lookup_take_lt.
Qed.

(** ** Growth *)

Lemma grows_spec env t :
  0 <= _capacity t <= 2 ^ 30 ->
  grows env t = true <->
  u32 (_size t + 1) = _capacity t * 3 / 4 /\ safeAlloc_ok env = true.
Proof.
  intros Hc. unfold grows. rewrite (u32_small (_capacity t * 3)) by lia.
  rewrite andb_true_iff, Z.eqb_eq. done.
Qed.

Lemma chain_ok_new : chain_ok (_current_table CallTraceStorage_new).
Proof. split; [by vm_compute | done]. Qed.

Lemma chain_ok_u32 chain t :
  chain_ok chain -> t ∈ chain -> 0 <= _capacity t < 2 ^ 32.
Proof.
  intros Hok Hin. pose proof (chain_ok_capacity_range chain t Hok Hin) as H.
  unfold INITIAL_CAPACITY in H. lia.
Qed.

Lemma chain_ok_put_total env st n fr :
  chain_ok (_current_table st) -> is_Some (put env st n fr).
Proof.
  intros Hok. apply put_total.
  - by destruct (_current_table st).
  - intros t Hin. by apply (chain_ok_u32 (_current_table st)).
Qed.



(** ** The IDs *)

Lemma chain_ok_capacity_index chain i t :
  chain_ok chain -> chain !! i = Some t ->
  _capacity t =
  INITIAL_CAPACITY * 2 ^ (Z.of_nat (length chain) - 1 - Z.of_nat i).
Proof.
  revert i t. induction chain as [|t0 p IH]; intros i t Hok Hi; [done|].
  destruct p as [|pt p'].
  - destruct i as [|i]; [|done]. injection Hi as <-.
    destruct Hok as [_ ->]. simpl. lia.
  - destruct Hok as [_ [Hcap Hok]]. destruct i as [|i].
    + injection Hi as <-. rewrite Hcap, (IH 0%nat pt Hok eq_refl).
      cbn [length].
      replace (Z.of_nat (S (S (length p'))) - 1 - Z.of_nat 0)
        with (Z.of_nat (S (length p')) - 1 - Z.of_nat 0 + 1) by lia.
      rewrite Z.pow_add_r by lia. lia.
    + rewrite (IH i t Hok Hi). f_equal. f_equal. cbn [length]. lia.
Qed.

Lemma put_outcome env st n fr st' id :
  put env st n fr = Some (st', id) ->
  exists t p o,
    _current_table st = t :: p /\ probe t (calcHash n fr) = Some o /\
    match o with
    | Found s => st' = st /\ id = slot_id (_capacity t) s
    | Vacant s =>
        exists trace,
          inherited p (calcHash n fr) = Some trace /\
          st' = claim_result env st t p n fr (calcHash n fr) s trace /\
          id = slot_id (_capacity t) s
    | Full => st' = st /\ id = 0
    end.
Proof.
  intros Hput. destruct (_current_table st) as [|t p] eqn:Hct.
  { unfold put in Hput. by rewrite Hct in Hput. }
  exists t, p.
  destruct (probe t (calcHash n fr)) as [o|] eqn:Ho.
  2: { by rewrite (put_probe env st n fr t p Hct), Ho in Hput. }
  exists o. split; [done|]. split; [done|]. destruct o as [s | s |].
  - rewrite (put_Found env st n fr t p s) in Hput by done.
    by injection Hput as <- <-.
  - rewrite (put_Vacant env st n fr t p s) in Hput by done.
    destruct (inherited p (calcHash n fr)) as [trace|]; [|done].
    injection Hput as <- <-. by exists trace.
  - rewrite (put_Full env st n fr t p) in Hput by done.
    by injection Hput as <- <-.
Qed.

(** A key that is not 0 stays in its slot through every [put]. *)
Lemma holds_put env st n fr st' id c s h :
  h <> 0 -> holds (_current_table st) c s h ->
  put env st n fr = Some (st', id) ->
  holds (_current_table st') c s h.
Proof.
  intros Hh (t0 & Hin & Hcap & Hkey) Hput.
  destruct (put_outcome env st n fr st' id Hput)
    as (t & p & o & Hct & Ho & Hres).
  destruct o as [slot | slot |];
    [by destruct Hres as [-> _]; exists t0 | |
     by destruct Hres as [-> _]; exists t0].
  destruct Hres as (trace & _ & -> & _).
  destruct (probe_keys t _ _ Ho) as [Hvacant _].
  rewrite Hct in Hin. rewrite claim_result_chain.
  apply elem_of_cons in Hin as [-> | Hin].
  - eexists. split; [apply elem_of_app; right; by left|]. split; [done|].
    rewrite key_at_claimed. rewrite decide_False; [done|].
    intros ->. congruence.
  - exists t0. split; [|done]. apply elem_of_app. right. by right.
Qed.

Lemma holds_run ops st st' ids c s h :
  h <> 0 -> holds (_current_table st) c s h ->
  run_puts st ops = Some (st', ids) ->
  holds (_current_table st') c s h.
Proof.
  intros Hh. revert st ids.
  induction ops as [|[env [n fr]] ops IH]; intros st ids Hholds Hrun;
    simpl in Hrun.
  { by injection Hrun as <- _. }
  destruct (put env st n fr) as [[st1 id]|] eqn:Hput; [|done].
  destruct (run_puts st1 ops) as [[st2 ids']|] eqn:Hrun'; [|done].
  injection Hrun as <- _.
  apply (IH st1 ids'); [|done]. by apply (holds_put env st n fr st1 id).
Qed.

(** A [put] of a hash that is not 0 which does not give up leaves the hash
    in the slot whose ID it returns. *)
Lemma put_holds env st n fr st' id :
  calcHash n fr <> 0 -> id <> 0 ->
  put env st n fr = Some (st', id) ->
  exists t p s,
    _current_table st = t :: p /\ id = slot_id (_capacity t) s /\
    holds (_current_table st') (_capacity t) s (calcHash n fr) /\
    (pow2_capacity (_capacity t) -> 0 <= s < _capacity t).
Proof.
  intros Hhash Hid Hput.
  destruct (put_outcome env st n fr st' id Hput)
    as (t & p & o & Hct & Ho & Hres).
  exists t, p. destruct o as [s | s |].
  - destruct Hres as [-> ->]. exists s. split; [done|]. split; [done|].
    split.
    + exists t. rewrite Hct. split; [by left|]. split; [done|].
      apply (probe_keys t _ _ Ho).
    + intros Hpow. apply (probe_slot_in_range t _ _ s Hpow Ho eq_refl).
  - destruct Hres as (trace & _ & -> & ->). exists s.
    split; [done|]. split; [done|]. split.
    + eexists. split; [rewrite claim_result_chain; apply elem_of_app; right;
                       by left|].
      split; [done|]. rewrite key_at_claimed. by rewrite decide_True.
    + intros Hpow. apply (probe_slot_in_range t _ _ s Hpow Ho eq_refl).
  - by destruct Hres as [_ ->].
Qed.

(** C3: the ID of slot [s] of a table is
    [capacity - (INITIAL_CAPACITY - 1) + s]; the tables of the chain have
    65536, 131072, 262144, ... slots from the oldest on, so that their IDs
    fill [1, 65536], [65537, 196608], [196609, 458752], ...: ranges that do
    not meet and do not contain 0.  A [put] that does not give up returns
    the non-zero ID of the slot that holds its hash, and slots that hold
    different hashes have different IDs; so two calls of [put] that stored
    different hashes, in whatever tables of the chain and with whatever calls
    between them, returned different IDs. *)
Theorem slot_ids_disjoint st :
  chain_ok (_current_table st) ->
  (forall t s, t ∈ _current_table st -> 0 <= s < _capacity t ->
     slot_id (_capacity t) s = _capacity t - (INITIAL_CAPACITY - 1) + s /\
     slot_id (_capacity t) s <> 0 /\
     (_capacity t = 65536 -> 1 <= slot_id (_capacity t) s <= 65536) /\
     (_capacity t = 131072 -> 65537 <= slot_id (_capacity t) s <= 196608) /\
     (_capacity t = 262144 -> 196609 <= slot_id (_capacity t) s <= 458752)) /\
  (forall i t, reverse (_current_table st) !! i = Some t ->
     _capacity t = 65536 * 2 ^ Z.of_nat i) /\
  (forall t1 s1 t2 s2,
     t1 ∈ _current_table st -> t2 ∈ _current_table st ->
     0 <= s1 < _capacity t1 -> 0 <= s2 < _capacity t2 ->
     (t1 <> t2 -> slot_id (_capacity t1) s1 <> slot_id (_capacity t2) s2) /\
     (key_at t1 s1 <> key_at t2 s2 ->
      slot_id (_capacity t1) s1 <> slot_id (_capacity t2) s2)) /\
  (forall env n fr st' id,
     put env st n fr = Some (st', id) ->
     (id = 0 /\ st' = st /\
      exists t p, _current_table st = t :: p /\
                  probe t (calcHash n fr) = Some Full) \/
     (id <> 0 /\
      exists t p s t',
        _current_table st = t :: p /\ 0 <= s < _capacity t /\
        id = _capacity t - (INITIAL_CAPACITY - 1) + s /\
        t' ∈ _current_table st' /\ _capacity t' = _capacity t /\
        key_at t' s = calcHash n fr)) /\
  (forall env1 n1 fr1 st1 id1 ops st2 ids env2 n2 fr2 st3 id2,
     put env1 st n1 fr1 = Some (st1, id1) ->
     run_puts st1 ops = Some (st2, ids) ->
     put env2 st2 n2 fr2 = Some (st3, id2) ->
     chain_ok (_current_table st3) ->
     calcHash n1 fr1 <> 0 -> calcHash n2 fr2 <> 0 ->
     id1 <> 0 -> id2 <> 0 ->
     calcHash n1 fr1 <> calcHash n2 fr2 ->
     id1 <> id2).
Proof.
  intros Hok. split; [|split; [|split; [|split]]].
  - intros t s Hin Hs.
    pose proof (chain_ok_capacity_range _ t Hok Hin) as Hcap.
    pose proof (slot_id_exact _ s Hcap Hs) as Hid.
    split; [done|]. split; [by apply slot_id_nonzero|].
    unfold INITIAL_CAPACITY in *. lia.
  - intros i t Hi.
    pose proof (lookup_lt_Some _ _ _ Hi) as Hlt.
    rewrite length_reverse in Hlt. rewrite reverse_lookup in Hi by done.
    rewrite (chain_ok_capacity_index _ _ t Hok Hi).
    unfold INITIAL_CAPACITY. f_equal. f_equal. lia.
  - intros t1 s1 t2 s2 Hin1 Hin2 Hs1 Hs2. split.
    + intros Hne Hid.
      by destruct (slot_id_chain_inj _ t1 s1 t2 s2 Hok Hin1 Hin2 Hs1 Hs2 Hid).
    + intros Hne Hid.
      destruct (slot_id_chain_inj _ t1 s1 t2 s2 Hok Hin1 Hin2 Hs1 Hs2 Hid)
        as [-> ->]. done.
  - intros env n fr st' id Hput.
    destruct (put_outcome env st n fr st' id Hput)
      as (t & p & o & Hct & Ho & Hres).
    rewrite Hct in Hok.
    destruct (chain_ok_pow2 _ t Hok ltac:(by left)) as [Hpow _].
    pose proof (chain_ok_capacity_range _ t Hok ltac:(by left)) as Hcap.
    destruct o as [s | s |].
    + destruct Hres as [-> ->]. right.
      pose proof (probe_slot_in_range t _ _ s Hpow Ho eq_refl) as Hs.
      split; [by apply slot_id_nonzero|].
      exists t, p, s, t. split; [done|]. split; [done|].
      split; [by apply slot_id_exact|]. split; [rewrite Hct; by left|].
      split; [done|]. apply (probe_keys t _ _ Ho).
    + destruct Hres as (trace & Hinh & -> & ->). right.
      pose proof (probe_slot_in_range t _ _ s Hpow Ho eq_refl) as Hs.
      split; [by apply slot_id_nonzero|].
      eexists t, p, s, _. split; [done|]. split; [done|].
      split; [by apply slot_id_exact|]. split.
      { rewrite claim_result_chain. apply elem_of_app. right. by left. }
      split; [done|]. rewrite key_at_claimed. by case_decide.
    + destruct Hres as [-> ->]. left. split; [done|]. split; [done|].
      by exists t, p.
  - intros env1 n1 fr1 st1 id1 ops st2 ids env2 n2 fr2 st3 id2
      Hput1 Hrun Hput2 Hok3 Hh1 Hh2 Hid1 Hid2 Hne Heq.
    destruct (put_holds env1 st n1 fr1 st1 id1 Hh1 Hid1 Hput1)
      as (t1 & p1 & s1 & Hct1 & -> & Hholds1 & Hr1).
    destruct (put_holds env2 st2 n2 fr2 st3 id2 Hh2 Hid2 Hput2)
      as (t2 & p2 & s2 & Hct2 & -> & (t2' & Hin2 & Hcap2 & Hkey2) & Hr2).
    apply (holds_run ops st1 st2 ids) in Hholds1; [|done|done].
    apply (holds_put env2 st2 n2 fr2 st3 (slot_id (_capacity t2) s2))
      in Hholds1; [|done|done].
    destruct Hholds1 as (t1' & Hin1 & Hcap1 & Hkey1).
    destruct (chain_ok_pow2 _ t1' Hok3 Hin1) as [Hpow1 _].
    destruct (chain_ok_pow2 _ t2' Hok3 Hin2) as [Hpow2 _].
    rewrite Hcap1 in Hpow1. rewrite Hcap2 in Hpow2.
    rewrite <- Hcap1, <- Hcap2 in Heq.
    destruct (slot_id_chain_inj _ t1' s1 t2' s2 Hok3 Hin1 Hin2) as [-> ->];
      [rewrite Hcap1; by apply Hr1 | rewrite Hcap2; by apply Hr2 | done |].
    congruence.
Qed.

(** C2 (amended): [collect] emits every occupied slot of every table under
    the ID of that slot; when two tables of the chain hold the same non-zero
    hash the two slots have different IDs and the output map has both
    entries, neither overwriting the other. *)
Theorem collect_keeps_every_entry st m :
  chain_ok (_current_table st) ->
  (forall t s, t ∈ _current_table st -> 0 <= s < _capacity t ->
     key_at t s <> 0 ->
     collect st m !! slot_id (_capacity t) s = Some (value_at t s)) /\
  (forall t1 s1 t2 s2,
     t1 ∈ _current_table st -> t2 ∈ _current_table st -> t1 <> t2 ->
     0 <= s1 < _capacity t1 -> 0 <= s2 < _capacity t2 ->
     key_at t1 s1 <> 0 -> key_at t2 s2 = key_at t1 s1 ->
     slot_id (_capacity t1) s1 <> slot_id (_capacity t2) s2 /\
     collect st m !! slot_id (_capacity t1) s1 = Some (value_at t1 s1) /\
     collect st m !! slot_id (_capacity t2) s2 = Some (value_at t2 s2)).
Proof.
  intros Hok.
  assert (Hhit : forall t s, t ∈ _current_table st -> 0 <= s < _capacity t ->
            key_at t s <> 0 ->
            collect st m !! slot_id (_capacity t) s = Some (value_at t s)).
  { intros t s Hin Hs Hkey. by apply collect_tables_hit. }
  split; [done|].
  intros t1 s1 t2 s2 Hin1 Hin2 Hne Hs1 Hs2 Hkey1 Hkey2.
  split; [|split].
  - intros Hid.
    by destruct (slot_id_chain_inj _ t1 s1 t2 s2 Hok Hin1 Hin2 Hs1 Hs2 Hid).
  - by apply Hhit.
  - apply Hhit; [done | done | congruence].
Qed.

(** ** Stability of the ID *)

Lemma extends_refl t : extends t t.
Proof. done. Qed.

Lemma extends_trans t1 t2 t3 : extends t1 t2 -> extends t2 t3 -> extends t1 t3.
Proof.
  intros [Hc1 Hk1] [Hc2 Hk2]. split; [congruence|].
  intros s Hs. rewrite Hk2, Hk1; [done | done |]. by rewrite Hk1.
Qed.

Lemma extends_claimed t slot hash trace :
  key_at t slot = 0 -> extends t (claimed_table t slot hash trace).
Proof.
  intros Hkey. split; [done|]. intros s Hs.
  rewrite key_at_claimed. case_decide; congruence.
Qed.

(** A probe that found a non-zero hash, or gave up, ends the same way after
    further claims. *)
Lemma probe_loop_extends fuel t t' hash c slot step o :
  hash <> 0 -> extends t t' -> (forall s, o <> Vacant s) ->
  probe_loop fuel t hash c slot step = Some o ->
  probe_loop fuel t' hash c slot step = Some o.
Proof.
  intros Hhash [_ Hkeys] Hov. revert slot step.
  induction fuel as [|fuel IH]; intros slot step; simpl;
    (destruct (Z.eqb_spec (key_at t slot) hash) as [Hk | Hk];
     [ rewrite Hkeys by congruence; rewrite Hk, Z.eqb_refl; done |]);
    (destruct (Z.eqb_spec (key_at t slot) 0) as [Hz | Hz];
     [ intros [= <-]; by destruct (Hov slot) |]);
    rewrite Hkeys by done;
    apply Z.eqb_neq in Hk, Hz; rewrite Hk, Hz;
    destruct (c <=? u32 (step + 1)); try done.
  apply IH.
Qed.

(** After the claim the probe finds the hash in the claimed slot. *)
Lemma probe_loop_claimed fuel t hash trace c slot step s :
  probe_loop fuel t hash c slot step = Some (Vacant s) ->
  probe_loop fuel (claimed_table t s hash trace) hash c slot step =
  Some (Found s).
Proof.
  intros Hp. pose proof (probe_loop_keys _ _ _ _ _ _ _ Hp) as [Hs0 Hhash].
  revert slot step Hp.
  induction fuel as [|fuel IH]; intros slot step; simpl;
    rewrite key_at_claimed;
    (destruct (Z.eqb_spec (key_at t slot) hash) as [Hk | Hk]; [done|]);
    (destruct (Z.eqb_spec (key_at t slot) 0) as [Hz | Hz];
     [ intros [= ->]; rewrite decide_True by done; by rewrite Z.eqb_refl |]);
    (rewrite decide_False by congruence);
    apply Z.eqb_neq in Hk, Hz; rewrite Hk, Hz;
    destruct (c <=? u32 (step + 1)); try done.
  apply IH.
Qed.

Lemma probe_extends t t' hash o :
  hash <> 0 -> extends t t' -> (forall s, o <> Vacant s) ->
  probe t hash = Some o -> probe t' hash = Some o.
Proof.
  intros Hhash Hext Hov Hp. unfold probe. rewrite (proj1 Hext).
  by apply (probe_loop_extends _ t).
Qed.

Lemma probe_claimed t hash trace s :
  probe t hash = Some (Vacant s) ->
  probe (claimed_table t s hash trace) hash = Some (Found s).
Proof. apply probe_loop_claimed. Qed.

(** A [put] that installs no table leaves a current table that extends the
    one it found. *)
Lemma put_extends env st n fr st' id t p :
  put env st n fr = Some (st', id) ->
  length (_current_table st') = length (_current_table st) ->
  _current_table st = t :: p ->
  exists t', _current_table st' = t' :: p /\ extends t t'.
Proof.
  intros Hput Hlen Hct.
  destruct (put_outcome env st n fr st' id Hput) as (t0 & p0 & o & Hct0 & Ho & Hres).
  rewrite Hct in Hct0. injection Hct0 as <- <-.
  destruct o as [s | s |].
  - destruct Hres as [-> _]. by exists t.
  - destruct Hres as (trace & _ & -> & _).
    rewrite claim_result_chain in *. rewrite Hct in Hlen.
    destruct (grows env t); [simpl in Hlen; lia|].
    eexists. split; [done|]. apply extends_claimed.
    apply (probe_keys t _ _ Ho).
  - destruct Hres as [-> _]. by exists t.
Qed.

Lemma puts_same_table_extends st1 st2 t p :
  puts_same_table st1 st2 -> _current_table st1 = t :: p ->
  exists t', _current_table st2 = t' :: p /\ extends t t'.
Proof.
  intros Hputs Hct. induction Hputs as [st | st1 st2 env n fr st3 id _ IH Hput Hlen].
  - by exists t.
  - destruct (IH Hct) as (t2 & Hct2 & Hext2).
    destruct (put_extends env st2 n fr st3 id t2 p Hput Hlen Hct2)
      as (t3 & Hct3 & Hext3).
    exists t3. split; [done|]. by apply (extends_trans t t2).
Qed.

Lemma pow2_capacity_double c c' :
  pow2_capacity c -> pow2_capacity c' -> c < c' -> 2 * c <= c'.
Proof.
  intros [n [Hn ->]] [m [Hm ->]] Hlt.
  assert (Hnm : n < m) by (apply (Z.pow_lt_mono_r_iff 2); lia).
  replace (2 * 2 ^ n) with (2 ^ (n + 1)) by (rewrite Z.pow_add_r; lia).
  apply Z.pow_le_mono_r; lia.
Qed.

(** Tables of different capacities have no ID in common. *)
Lemma slot_id_other_capacity c s c' s' :
  pow2_capacity c -> pow2_capacity c' ->
  INITIAL_CAPACITY <= c -> INITIAL_CAPACITY <= c' ->
  0 <= s < c -> 0 <= s' < c' -> c <> c' ->
  slot_id c s <> slot_id c' s'.
Proof.
  intros Hpow Hpow' Hc Hc' Hs Hs' Hne.
  pose proof (pow2_capacity_range c Hpow).
  pose proof (pow2_capacity_range c' Hpow').
  rewrite !slot_id_exact by lia. unfold INITIAL_CAPACITY in *.
  destruct (Z.lt_trichotomy c c') as [Hlt | [Heq | Hgt]]; [|done|].
  - pose proof (pow2_capacity_double c c' Hpow Hpow' Hlt). lia.
  - pose proof (pow2_capacity_double c' c Hpow' Hpow Hgt). lia.
Qed.

(** The ID that [put] returns is 0 or the ID of a slot of the current table. *)
Lemma put_id_of_current env st n fr st' id :
  chain_ok (_current_table st) ->
  put env st n fr = Some (st', id) ->
  id = 0 \/
  exists t p s, _current_table st = t :: p /\ 0 <= s < _capacity t /\
                id = slot_id (_capacity t) s.
Proof.
  intros Hok Hput.
  destruct (put_outcome env st n fr st' id Hput)
    as (t & p & o & Hct & Ho & Hres).
  rewrite Hct in Hok.
  destruct (chain_ok_pow2 _ t Hok ltac:(by left)) as [Hpow _].
  destruct o as [s | s |].
  - destruct Hres as [_ ->]. right. exists t, p, s. split; [done|].
    split; [|done]. apply (probe_slot_in_range t _ _ s Hpow Ho eq_refl).
  - destruct Hres as (trace & _ & _ & ->). right. exists t, p, s.
    split; [done|]. split; [|done].
    apply (probe_slot_in_range t _ _ s Hpow Ho eq_refl).
  - destruct Hres as [_ ->]. by left.
Qed.

(** C1 (amended): for an input whose hash is not 0, once [put] has returned
    an ID without installing a new table, every later [put] of the same
    input made while the current table is still the same returns the same ID
    and changes nothing; under the chain invariant that ID is 0 only when
    the table was full.  A [put] of the input that finds a current table of
    another capacity, as it does after growth, returns another ID. *)
Theorem put_stable_without_growth env1 env2 st0 st1 st2 st3 n fr id1 id2 :
  calcHash n fr <> 0 ->
  put env1 st0 n fr = Some (st1, id1) ->
  length (_current_table st1) = length (_current_table st0) ->
  puts_same_table st1 st2 ->
  put env2 st2 n fr = Some (st3, id2) ->
  id2 = id1 /\ st3 = st2 /\
  (chain_ok (_current_table st0) -> id1 = 0 ->
   exists t p, _current_table st0 = t :: p /\
               probe t (calcHash n fr) = Some Full) /\
  (forall env3 st4 st5 id3 t0 p0 t4 p4,
     chain_ok (_current_table st0) -> chain_ok (_current_table st4) ->
     _current_table st0 = t0 :: p0 -> _current_table st4 = t4 :: p4 ->
     _capacity t4 <> _capacity t0 -> id1 <> 0 ->
     put env3 st4 n fr = Some (st5, id3) -> id3 <> id1).
Proof.
  intros Hhash Hput1 Hlen Hputs Hput2.
  assert (Hother : forall env3 st4 st5 id3 t0 p0 t4 p4,
     chain_ok (_current_table st0) -> chain_ok (_current_table st4) ->
     _current_table st0 = t0 :: p0 -> _current_table st4 = t4 :: p4 ->
     _capacity t4 <> _capacity t0 -> id1 <> 0 ->
     put env3 st4 n fr = Some (st5, id3) -> id3 <> id1).
  { intros env3 st4 st5 id3 t0 p0 t4 p4 Hok0 Hok4 Hct0 Hct4 Hcap Hid1 Hput3.
    destruct (put_id_of_current _ _ _ _ _ _ Hok0 Hput1)
      as [-> | (t & p & s & Hct & Hs & ->)]; [done|].
    destruct (put_id_of_current _ _ _ _ _ _ Hok4 Hput3)
      as [-> | (t' & p' & s' & Hct' & Hs' & ->)]; [done|].
    rewrite Hct0 in Hct. injection Hct as <- <-.
    rewrite Hct4 in Hct'. injection Hct' as <- <-.
    rewrite Hct0 in Hok0. rewrite Hct4 in Hok4.
    destruct (chain_ok_pow2 _ t0 Hok0 ltac:(by left)) as [Hpow0 Hge0].
    destruct (chain_ok_pow2 _ t4 Hok4 ltac:(by left)) as [Hpow4 Hge4].
    by apply slot_id_other_capacity. }
  destruct (put_outcome env1 st0 n fr st1 id1 Hput1)
    as (t0 & p & o & Hct0 & Ho & Hres).
  destruct (put_extends env1 st0 n fr st1 id1 t0 p Hput1 Hlen Hct0)
    as (t1 & Hct1 & Hext1).
  destruct (puts_same_table_extends st1 st2 t1 p Hputs Hct1)
    as (t2 & Hct2 & Hext2).
  assert (Hcap : _capacity t2 = _capacity t0).
  { rewrite (proj1 Hext2). apply Hext1. }
  assert (Hlater : forall o', (forall s, o' <> Vacant s) ->
            probe t1 (calcHash n fr) = Some o' ->
            put env2 st2 n fr = Some (st2, match o' with
                                           | Found s => slot_id (_capacity t0) s
                                           | _ => 0
                                           end)).
  { intros o' Hov Ho'.
    pose proof (probe_extends t1 t2 _ o' Hhash Hext2 Hov Ho') as Ho2.
    destruct o' as [s | s |].
    - rewrite <- Hcap. by apply (put_Found env2 st2 n fr t2 p).
    - by destruct (Hov s).
    - by apply (put_Full env2 st2 n fr t2 p). }
  assert (Hnonzero : forall s, probe t0 (calcHash n fr) = Some (Found s) \/
                               probe t0 (calcHash n fr) = Some (Vacant s) ->
            chain_ok (_current_table st0) -> slot_id (_capacity t0) s <> 0).
  { intros s Hs Hok. rewrite Hct0 in Hok.
    destruct (chain_ok_pow2 _ t0 Hok ltac:(by left)) as [Hpow _].
    pose proof (chain_ok_capacity_range _ t0 Hok ltac:(by left)).
    apply slot_id_nonzero; [done|].
    destruct Hs as [Hs | Hs];
      apply (probe_slot_in_range t0 _ _ s Hpow Hs eq_refl). }
  destruct o as [s | s |].
  - destruct Hres as [-> ->]. rewrite Hct0 in Hct1. injection Hct1 as <-.
    rewrite (Hlater (Found s)) in Hput2 by done.
    injection Hput2 as <- <-. split; [done|]. split; [done|].
    split; [|exact Hother].
    intros Hok Hid. exfalso. by apply (Hnonzero s); [left|..].
  - destruct Hres as (trace & _ & -> & ->).
    rewrite claim_result_chain in Hct1, Hlen. rewrite Hct0 in Hlen.
    destruct (grows env1 t0); [simpl in Hlen; lia|].
    injection Hct1 as <-.
    rewrite (Hlater (Found s)) in Hput2;
      [| done | by apply probe_claimed].
    injection Hput2 as <- <-. split; [done|]. split; [done|].
    split; [|exact Hother].
    intros Hok Hid. exfalso. by apply (Hnonzero s); [right|..].
  - destruct Hres as [-> ->]. rewrite Hct0 in Hct1. injection Hct1 as <-.
    rewrite (Hlater Full) in Hput2 by done.
    injection Hput2 as <- <-. split; [done|]. split; [done|].
    split; [|exact Hother].
    intros _ _. by exists t0, p.
Qed.

(** ** Coverage *)

Lemma pow2_capacity_below c :
  pow2_capacity c -> c = 2 ^ 31 \/ c <= 2 ^ 30.
Proof.
  intros [n [Hn ->]]. destruct (decide (n = 31)) as [-> | Hne]; [by left|].
  right. apply Z.pow_le_mono_r; lia.
Qed.

Lemma run_inv_new : run_inv CallTraceStorage_new [] [].
Proof.
  split; [apply chain_ok_new|]. split; [|split].
  - eexists _, _. split; [done|]. split; [done|].
    intros s Hs. by rewrite key_at_empty in Hs.
  - intros id. split.
    + intros (t & s & Hin & _ & Hkey & _).
      apply list_elem_of_singleton in Hin as ->. by rewrite key_at_empty in Hkey.
    + intros Hin. by apply elem_of_nil in Hin.
  - constructor.
Qed.

Lemma occupied_claimed t p slot hash trace id :
  key_at t slot = 0 -> hash <> 0 -> 0 <= slot < _capacity t ->
  occupied (claimed_table t slot hash trace :: p) id <->
  id = slot_id (_capacity t) slot \/ occupied (t :: p) id.
Proof.
  intros Hkey Hhash Hslot. split.
  - intros (t' & s & Hin & Hs & Hk & Hid).
    apply elem_of_cons in Hin as [-> | Hin].
    + rewrite key_at_claimed in Hk. case_decide as Hd.
      * left. by rewrite <- Hid, Hd.
      * right. exists t, s. split; [by left | done].
    + right. exists t', s. split; [by right | done].
  - intros [-> | (t' & s & Hin & Hs & Hk & Hid)].
    + exists (claimed_table t slot hash trace), slot.
      split; [by left|]. split; [done|]. split; [|done].
      rewrite key_at_claimed. by case_decide.
    + apply elem_of_cons in Hin as [-> | Hin].
      * exists (claimed_table t slot hash trace), s.
        split; [by left|]. split; [done|]. split; [|done].
        rewrite key_at_claimed. case_decide; congruence.
      * exists t', s. split; [by right | done].
Qed.

Lemma occupied_new_table c chain id :
  occupied (mkTable c 0 ∅ ∅ :: chain) id <-> occupied chain id.
Proof.
  split.
  - intros (t & s & Hin & Hs & Hk & Hid).
    apply elem_of_cons in Hin as [-> | Hin].
    + by rewrite key_at_empty in Hk.
    + by exists t, s.
  - intros (t & s & Hin & Hrest). exists t, s. split; [by right | done].
Qed.

Lemma run_inv_put env st n fr st' id hs ids :
  run_inv st hs ids ->
  put env st n fr = Some (st', id) ->
  calcHash n fr ∉ hs -> calcHash n fr <> 0 -> id <> 0 ->
  Z.of_nat (length hs) + 1 < 2 ^ 29 ->
  run_inv st' (calcHash n fr :: hs) (id :: ids).
Proof.
  intros (Hok & (t & p & Hct & Hsize & Hkeys) & Hocc & Hnd) Hput Hnew Hhash Hid Hlen.
  destruct (put_outcome env st n fr st' id Hput)
    as (t0 & p0 & o & Hct0 & Ho & Hres).
  rewrite Hct in Hct0. injection Hct0 as <- <-. rewrite Hct in Hok, Hocc.
  destruct (chain_ok_pow2 _ t Hok ltac:(by left)) as [Hpow _].
  pose proof (chain_ok_capacity_range _ t Hok ltac:(by left)) as Hcap.
  unfold INITIAL_CAPACITY in Hcap.
  destruct o as [s | s |].
  { exfalso. apply Hnew. pose proof (probe_keys t _ _ Ho) as Hk. simpl in Hk.
    rewrite <- Hk. apply Hkeys. by rewrite Hk. }
  2: { by destruct Hres as [_ ->]. }
  destruct Hres as (trace & _ & -> & ->).
  destruct (probe_keys t _ _ Ho) as [Hkey _].
  pose proof (probe_slot_in_range t _ _ s Hpow Ho eq_refl) as Hs.
  set (t' := claimed_table t s (calcHash n fr)
               (snd (publish env (_allocator st) n fr trace))).
  assert (Hok' : chain_ok (t' :: p)) by done.
  assert (Hocc' : forall id', occupied (t' :: p) id' <->
                              id' ∈ slot_id (_capacity t) s :: ids).
  { intros id'. unfold t'. rewrite occupied_claimed by done.
    rewrite elem_of_cons, Hocc. done. }
  assert (Hsize' : u32 (_size t + 1) = _size t + 1) by (apply u32_small; lia).
  split; [|split; [|split]].
  - rewrite claim_result_chain. fold t'.
    destruct (grows env t) eqn:Hg; cbn [app]; [|done].
    apply (chain_ok_grown t' p); [done|]. change (_capacity t') with (_capacity t).
    destruct (pow2_capacity_below _ Hpow) as [Hbig | Hsmall]; [|done].
    exfalso. unfold grows in Hg. apply andb_true_iff in Hg as [Hg _].
    apply Z.eqb_eq in Hg. rewrite Hsize', Hbig in Hg.
    change (u32 (2 ^ 31 * 3) / 4) with (2 ^ 29) in Hg. lia.
  - rewrite claim_result_chain. fold t'. destruct (grows env t); cbn [app].
    + eexists _, _. split; [done|]. simpl. split; [lia|].
      intros s' Hs'. by rewrite key_at_empty in Hs'.
    + exists t', p. split; [done|]. split.
      { unfold t'. simpl. rewrite Hsize'. lia. }
      intros s'. unfold t'. rewrite key_at_claimed. case_decide.
      * intros _. by left.
      * intros Hs'. right. by apply Hkeys.
  - intros id'. rewrite claim_result_chain. fold t'.
    destruct (grows env t); cbn [app]; [|done].
    by rewrite occupied_new_table.
  - constructor; [|done]. intros Hin. apply Hocc in Hin.
    by apply (not_occupied_vacant (t :: p) t s Hok ltac:(by left)).
Qed.

Lemma run_puts_length st ops st' ids :
  run_puts st ops = Some (st', ids) -> length ids = length ops.
Proof.
  revert st ids.
  induction ops as [|[env [n fr]] ops IH]; intros st ids; simpl.
  { by intros [= _ <-]. }
  destruct (put env st n fr) as [[st1 id]|]; [|done].
  destruct (run_puts st1 ops) as [[st2 ids']|] eqn:Hrun; [|done].
  intros [= <- <-]. simpl. f_equal. by apply (IH st1).
Qed.

Lemma run_inv_run ops st hs ids0 st' ids :
  run_inv st hs ids0 ->
  run_puts st ops = Some (st', ids) ->
  NoDup (op_hash <$> ops) ->
  (forall op, op ∈ ops -> (op_hash op ∉ hs) /\ op_hash op <> 0) ->
  (forall id, id ∈ ids -> id <> 0) ->
  Z.of_nat (length hs) + Z.of_nat (length ops) < 2 ^ 29 ->
  exists hs', run_inv st' hs' (reverse ids ++ ids0).
Proof.
  revert st hs ids0 ids.
  induction ops as [|[env [n fr]] ops IH];
    intros st hs ids0 ids Hinv Hrun Hnd Hops Hids Hlen; simpl in Hrun.
  { injection Hrun as <- <-. by exists hs. }
  destruct (put env st n fr) as [[st1 id]|] eqn:Hput; [|done].
  destruct (run_puts st1 ops) as [[st2 ids']|] eqn:Hrun'; [|done].
  injection Hrun as <- <-.
  apply NoDup_cons in Hnd as [Hfresh Hnd].
  destruct (Hops (env, (n, fr))) as [Hnew Hnz]; [by left|].
  unfold op_hash in Hnew, Hnz. simpl in Hnew, Hnz.
  assert (Hinv1 : run_inv st1 (calcHash n fr :: hs) (id :: ids0)).
  { apply (run_inv_put env st n fr); try done.
    - apply Hids. by left.
    - simpl in Hlen. lia. }
  destruct (IH st1 (calcHash n fr :: hs) (id :: ids0) ids' Hinv1 Hrun' Hnd)
    as [hs' Hinv'].
  - intros op Hop. destruct (Hops op) as [Hh Hz]; [by right|].
    split; [|done]. apply not_elem_of_cons. split; [|done].
    intros Heq. apply Hfresh. apply list_elem_of_fmap.
    exists op. split; [|done]. by rewrite Heq.
  - intros id' Hid'. apply Hids. by right.
  - simpl in *. lia.
  - exists hs'. by rewrite reverse_cons, <- app_assoc.
Qed.

(** C7 (amended): after fewer than [2^29] calls of [put] on a new storage,
    with pairwise distinct hashes none of which is 0 and with IDs none of
    which is 0, [collect] emits exactly as many entries as there were calls,
    and the keys of the output map are the IDs that the calls returned. *)
Theorem collect_covers_puts (ops : list Op) st ids :
  run_puts CallTraceStorage_new ops = Some (st, ids) ->
  NoDup (op_hash <$> ops) ->
  (forall op, op ∈ ops -> op_hash op <> 0) ->
  (forall id, id ∈ ids -> id <> 0) ->
  Z.of_nat (length ops) < 2 ^ 29 ->
  size (collect st ∅) = length ops /\
  dom (collect st ∅) = list_to_set ids /\
  NoDup ids.
Proof.
  intros Hrun Hnd Hnz Hids Hlen.
  destruct (run_inv_run ops CallTraceStorage_new [] [] st ids run_inv_new Hrun Hnd)
    as [hs' (Hok & _ & Hocc & Hnd')]; try done.
  { intros op Hop. split; [apply not_elem_of_nil | by apply Hnz]. }
  rewrite app_nil_r in Hocc, Hnd'. rewrite reverse_Permutation in Hnd'.
  assert (Hdom : dom (collect st ∅) = list_to_set (C := gset Z) ids).
  { apply set_eq. intros id. rewrite elem_of_dom, elem_of_list_to_set.
    unfold collect. rewrite collect_tables_lookup by done.
    rewrite lookup_empty, Hocc, elem_of_reverse.
    split; [|by left]. intros [H | [x Hx]]; done. }
  split; [|done].
  rewrite <- size_dom, Hdom, size_list_to_set by done.
  by apply (run_puts_length CallTraceStorage_new ops st).
Qed.

(** ** The steps of the hash are invertible *)

Lemma u64_mod x : u64 x = x mod 2 ^ 64.
Proof.
  unfold u64. change 0xFFFFFFFFFFFFFFFF with (Z.ones 64).
  apply Z.land_ones. lia.
Qed.

Lemma u64_range x : 0 <= u64 x < 2 ^ 64.
Proof. rewrite u64_mod. apply Z.mod_pos_bound. lia. Qed.

Lemma mulM_range x : 0 <= mulM x < 2 ^ 64.
Proof. apply u64_range. Qed.

Lemma mulM_inj x y :
  0 <= x < 2 ^ 64 -> 0 <= y < 2 ^ 64 -> mulM x = mulM y -> x = y.
Proof.
  unfold mulM. rewrite !u64_mod. intros Hx Hy Heq.
  assert (Hd : (2 ^ 64 | M * (x - y))).
  { apply Z.mod_divide; [lia|].
    replace (M * (x - y)) with (x * M - y * M) by lia.
    rewrite Zminus_mod, Heq, Z.sub_diag. apply Z.mod_0_l. lia. }
  apply Z.gauss in Hd; [|by apply odd_coprime_pow2].
  destruct Hd as [k Hk]. lia.
Qed.

Lemma xorshift_range x : 0 <= x < 2 ^ 64 -> 0 <= xorshift x < 2 ^ 64.
Proof.
  intros Hx. unfold xorshift, R.
  assert (Hs : 0 <= Z.shiftr x 47 <= x).
  { rewrite Z.shiftr_div_pow2 by lia. split.
    - apply Z.div_pos; lia.
    - apply Z.div_le_upper_bound; lia. }
  assert (Hnn : 0 <= Z.lxor x (Z.shiftr x 47)) by (apply Z.lxor_nonneg; lia).
  split; [done|].
  destruct (decide (Z.lxor x (Z.shiftr x 47) = 0)) as [-> | Hne]; [lia|].
  apply Z.log2_lt_pow2; [lia|].
  eapply Z.le_lt_trans; [apply Z.log2_lxor; lia|].
  apply Z.max_lub_lt.
  - destruct (decide (x = 0)) as [-> | ?]; [done|]. apply Z.log2_lt_pow2; lia.
  - destruct (decide (Z.shiftr x 47 = 0)) as [-> | ?]; [done|].
    apply Z.log2_lt_pow2; lia.
Qed.

Lemma xorshift_involutive x : 0 <= x < 2 ^ 64 -> xorshift (xorshift x) = x.
Proof.
  intros Hx. unfold xorshift, R.
  rewrite Z.shiftr_lxor, Z.shiftr_shiftr by lia.
  assert (Hz : Z.shiftr x (47 + 47) = 0).
  { rewrite Z.shiftr_div_pow2 by lia. apply Z.div_small. lia. }
  rewrite Hz, Z.lxor_0_r, Z.lxor_assoc, Z.lxor_nilpotent, Z.lxor_0_r. done.
Qed.

Lemma xorshift_inj x y :
  0 <= x < 2 ^ 64 -> 0 <= y < 2 ^ 64 -> xorshift x = xorshift y -> x = y.
Proof.
  intros Hx Hy Heq.
  rewrite <- (xorshift_involutive x Hx), <- (xorshift_involutive y Hy).
  by rewrite Heq.
Qed.

Lemma lxor_inj_l c x y : Z.lxor c x = Z.lxor c y -> x = y.
Proof.
  intros Heq.
  rewrite <- (Z.lxor_0_l x), <- (Z.lxor_0_l y), <- (Z.lxor_nilpotent c).
  by rewrite !Z.lxor_assoc, Heq.
Qed.

Lemma lxor_range x y :
  0 <= x < 2 ^ 64 -> 0 <= y < 2 ^ 64 -> 0 <= Z.lxor x y < 2 ^ 64.
Proof.
  intros Hx Hy.
  assert (Hnn : 0 <= Z.lxor x y) by (apply Z.lxor_nonneg; lia).
  split; [done|].
  destruct (decide (Z.lxor x y = 0)) as [-> | Hne]; [lia|].
  apply Z.log2_lt_pow2; [lia|].
  eapply Z.le_lt_trans; [apply Z.log2_lxor; lia|].
  apply Z.max_lub_lt.
  - destruct (decide (x = 0)) as [-> | ?]; [done|]. apply Z.log2_lt_pow2; lia.
  - destruct (decide (y = 0)) as [-> | ?]; [done|]. apply Z.log2_lt_pow2; lia.
Qed.

Lemma mix_inj x y :
  0 <= x < 2 ^ 64 -> 0 <= y < 2 ^ 64 -> mix x = mix y -> x = y.
Proof.
  intros Hx Hy Heq. unfold mix in Heq.
  apply mulM_inj in Heq; try (apply xorshift_range, mulM_range).
  apply xorshift_inj in Heq; try apply mulM_range.
  by apply mulM_inj.
Qed.

Lemma avalanche_inj x y :
  0 <= x < 2 ^ 64 -> 0 <= y < 2 ^ 64 -> avalanche x = avalanche y -> x = y.
Proof.
  intros Hx Hy Heq. unfold avalanche in Heq.
  apply xorshift_inj in Heq; try apply mulM_range.
  apply mulM_inj in Heq; try by apply xorshift_range.
  by apply xorshift_inj.
Qed.

Lemma le_combine_split n w : le_combine (le_split n w) = w mod 256 ^ Z.of_nat n.
Proof.
  revert w. induction n as [|n IH]; intros w.
  - simpl. by rewrite Z.mod_1_r.
  - cbn [le_split le_combine]. rewrite IH.
    assert (Hb : 0 <= w mod 256 < 256) by (apply Z.mod_pos_bound; lia).
    destruct (Byte.of_N (Z.to_N (w mod 256))) as [b|] eqn:Hof.
    + apply Byte.to_of_N in Hof. rewrite Hof, Z2N.id by lia.
      rewrite Nat2Z.inj_succ, Z.pow_succ_r by lia.
      rewrite (Z.rem_mul_r w 256 (256 ^ Z.of_nat n)) by lia. done.
    + apply Byte.of_N_None_iff in Hof. lia.
Qed.

(** ** The first table fills up to the threshold *)

(** A probe that gives up has seen a miss at each of its slots. *)
Lemma probe_loop_Full_inv fuel t hash c k :
  c < 2 ^ 32 -> Z.of_nat k < c ->
  probe_loop fuel t hash c (probe_slot c hash k) (Z.of_nat k) = Some Full ->
  forall i, (k <= i)%nat -> Z.of_nat i < c -> miss t hash (probe_slot c hash i).
Proof.
  intros Hc. revert k. induction fuel as [|fuel IH]; intros k Hk; cbn [probe_loop];
    (destruct (Z.eqb_spec (key_at t (probe_slot c hash k)) hash) as [|Hh];
     [done|]);
    (destruct (Z.eqb_spec (key_at t (probe_slot c hash k)) 0) as [|Hz];
     [done|]);
    rewrite (u32_small (Z.of_nat k + 1)) by lia;
    (destruct (Z.leb_spec c (Z.of_nat k + 1)) as [Hle | Hgt]; [|try done]).
  - intros _ i Hi Hic. assert (i = k) as -> by lia. done.
  - intros _ i Hi Hic. assert (i = k) as -> by lia. done.
  - intros Hp i Hi Hic. destruct (decide (i = k)) as [-> | Hne]; [done|].
    apply (IH (S k)); [lia | | lia | done].
    cbn [probe_slot]. rewrite (u32_small (Z.of_nat k + 1)) by lia.
    replace (Z.of_nat (S k)) with (Z.of_nat k + 1) by lia. done.
Qed.

(** A table with fewer keys than slots is not full. *)
Lemma probe_not_full t hash :
  pow2_capacity (_capacity t) ->
  Z.of_nat (size (keys t)) < _capacity t ->
  probe t hash <> Some Full.
Proof.
  intros Hpow Hcount Hfull. pose proof (pow2_capacity_range _ Hpow) as Hr.
  pose proof (probe_loop_Full_inv _ t hash (_capacity t) 0
                ltac:(lia) ltac:(lia) Hfull) as Hmiss.
  assert (Hsub : list_to_set (C := gset Z) (seqZ 0 (_capacity t)) ⊆ dom (keys t)).
  { intros s Hs. apply elem_of_list_to_set, elem_of_seqZ in Hs.
    destruct (probes_cover (_capacity t) hash s Hpow ltac:(lia)) as (k & Hk & <-).
    destruct (Hmiss k) as [_ Hkey]; [lia | lia |].
    apply elem_of_dom. unfold key_at in Hkey.
    destruct (keys t !! probe_slot (_capacity t) hash k); [by eexists | done]. }
  apply subseteq_size in Hsub.
  rewrite size_list_to_set, length_seqZ, size_dom in Hsub by apply NoDup_seqZ.
  lia.
Qed.

Lemma preserves_refl t : preserves t t.
Proof. done. Qed.

Lemma preserves_trans t1 t2 t3 :
  preserves t1 t2 -> preserves t2 t3 -> preserves t1 t3.
Proof.
  intros [Hc1 Hk1] [Hc2 Hk2]. split; [congruence|]. intros s Hs.
  destruct (Hk1 s Hs) as [Hkey1 Hval1].
  destruct (Hk2 s) as [Hkey2 Hval2]; [congruence|].
  split; congruence.
Qed.

Lemma preserves_claimed t slot hash trace :
  key_at t slot = 0 -> preserves t (claimed_table t slot hash trace).
Proof.
  intros Hkey. split; [done|]. intros s Hs.
  rewrite key_at_claimed, value_at_claimed. by case_decide; [congruence|].
Qed.

(** One more hash in the first table; the claim that makes the size 49152
    installs the second table. *)
Lemma fill_step env st t hs n fr :
  safeAlloc_ok env = true ->
  _current_table st = [t] -> fill_inv t hs ->
  calcHash n fr ∉ hs -> calcHash n fr <> 0 ->
  Z.of_nat (length hs) < 49152 ->
  exists st' id t',
    put env st n fr = Some (st', id) /\
    preserves t t' /\ fill_inv t' (calcHash n fr :: hs) /\
    _current_table st' =
      if decide (Z.of_nat (length hs) + 1 = 49152)
      then [mkTable 131072 0 ∅ ∅; t'] else [t'].
Proof.
  intros Hsafe Hct (Hcap & Hsize & Hcount & Hkeys) Hnew Hnz Hlen.
  unfold INITIAL_CAPACITY in Hcap.
  assert (Hpow : pow2_capacity (_capacity t)).
  { exists 16. split; [lia | by rewrite Hcap]. }
  destruct (probe_total t (calcHash n fr)) as [o Ho]; [lia|].
  destruct o as [s | s |].
  { exfalso. apply Hnew. pose proof (probe_keys t _ _ Ho) as Hk. simpl in Hk.
    rewrite <- Hk. apply Hkeys. by rewrite Hk. }
  2: { exfalso. apply (probe_not_full t (calcHash n fr)); [done | lia | done]. }
  destruct (probe_keys t _ _ Ho) as [Hkey _].
  set (t' := claimed_table t s (calcHash n fr)
               (snd (publish env (_allocator st) n fr NULL))).
  exists (claim_result env st t [] n fr (calcHash n fr) s NULL),
         (slot_id (_capacity t) s), t'.
  split. { by rewrite (put_Vacant env st n fr t [] s). }
  split; [by apply preserves_claimed|].
  split.
  { split; [done|]. split; [|split].
    - unfold t'. cbn [claimed_table _size length]. rewrite Hsize.
      rewrite u32_small by lia. lia.
    - unfold t'. cbn [claimed_table keys length].
      rewrite map_size_insert. destruct (keys t !! s); simpl; lia.
    - intros s'. unfold t'. rewrite key_at_claimed. case_decide.
      + intros _. by left.
      + intros Hs'. right. by apply Hkeys. }
  rewrite claim_result_chain. fold t'. unfold grows.
  rewrite Hsafe, andb_true_r, Hsize, Hcap.
  rewrite (u32_small (Z.of_nat (length hs) + 1)) by lia.
  change (u32 (65536 * 3) / 4) with 49152.
  change (u32 (65536 * 2)) with 131072.
  destruct (Z.eqb_spec (Z.of_nat (length hs) + 1) 49152);
    case_decide; done.
Qed.

Lemma run_puts_app st ops1 ops2 st1 ids1 st2 ids2 :
  run_puts st ops1 = Some (st1, ids1) ->
  run_puts st1 ops2 = Some (st2, ids2) ->
  run_puts st (ops1 ++ ops2) = Some (st2, ids1 ++ ids2).
Proof.
  revert st st1 ids1.
  induction ops1 as [|[env [n fr]] ops1 IH]; intros st st1 ids1.
  - intros [= <- <-]. done.
  - simpl. destruct (put env st n fr) as [[st' id]|]; [|done].
    destruct (run_puts st' ops1) as [[st'' ids]|] eqn:Hrun; [|done].
    intros [= <- <-] Hrun2. by rewrite (IH st' st'' ids Hrun Hrun2).
Qed.

(** Distinct new hashes, 49152 with those already in the table: the
    execution ends with the second table installed, empty, in front of the
    first, whose occupied slots are as they were. *)
Lemma fill_run ops st t hs :
  _current_table st = [t] -> fill_inv t hs ->
  NoDup (op_hash <$> ops) ->
  (forall op, op ∈ ops ->
     safeAlloc_ok (fst op) = true /\ (op_hash op ∉ hs) /\ op_hash op <> 0) ->
  ops <> [] ->
  Z.of_nat (length hs) + Z.of_nat (length ops) = 49152 ->
  exists st' ids t',
    run_puts st ops = Some (st', ids) /\
    _current_table st' = [mkTable 131072 0 ∅ ∅; t'] /\
    preserves t t'.
Proof.
  revert st t hs.
  induction ops as [|[env [n fr]] ops IH]; intros st t hs Hct Hinv Hnd Hops Hne Hlen;
    [done|].
  apply NoDup_cons in Hnd as [Hfresh Hnd].
  destruct (Hops (env, (n, fr))) as (Hsafe & Hnew & Hnz); [by left|].
  unfold op_hash in Hnew, Hnz. simpl in Hsafe, Hnew, Hnz.
  destruct (fill_step env st t hs n fr Hsafe Hct Hinv Hnew Hnz)
    as (st1 & id & t1 & Hput & Hpres & Hinv1 & Hct1).
  { cbn [length] in Hlen. lia. }
  cbn [run_puts]. rewrite Hput.
  destruct (decide (ops = [])) as [-> | Hops_ne].
  - simpl in Hlen. rewrite decide_True in Hct1 by lia.
    exists st1, [id], t1. done.
  - assert (Hpos : (0 < length ops)%nat) by (destruct ops; [done | simpl; lia]).
    cbn [length] in Hlen. rewrite decide_False in Hct1 by lia.
    destruct (IH st1 t1 (calcHash n fr :: hs) Hct1 Hinv1 Hnd)
      as (st2 & ids & t2 & Hrun & Hct2 & Hpres2).
    + intros op' Hop'. destruct (Hops op') as (Hs' & Hh' & Hz'); [by right|].
      split; [done|]. split; [|done]. apply not_elem_of_cons. split; [|done].
      intros Heq. apply Hfresh. apply list_elem_of_fmap.
      exists op'. split; [|done]. by rewrite Heq.
    + done.
    + cbn [length]. lia.
    + rewrite Hrun. exists st2, (id :: ids), t2.
      split; [done|]. split; [done|]. by apply (preserves_trans t t1).
Qed.

End Properties.

(** * Counterexamples and instances on the LP64 layout *)

(** ** Hashes of one-frame traces *)

Lemma calcHash_single m :
  calcHash 1 [(0, m)] =
  avalanche (mulM (Z.lxor (mulM (Z.lxor (u64 (16 * M)) (mix 0)))
                          (mix (le_combine (le_split 8 m))))).
Proof. reflexivity. Qed.

(** One-frame traces with different [method_id]s have different hashes. *)
Lemma calcHash_single_inj m1 m2 :
  0 <= m1 < 2 ^ 64 -> 0 <= m2 < 2 ^ 64 ->
  calcHash 1 [(0, m1)] = calcHash 1 [(0, m2)] -> m1 = m2.
Proof.
  intros H1 H2. rewrite !calcHash_single, !le_combine_split.
  change (256 ^ Z.of_nat 8) with (2 ^ 64). rewrite !Z.mod_small by lia.
  intros Heq.
  apply avalanche_inj in Heq; try apply mulM_range.
  apply mulM_inj in Heq;
    try (apply lxor_range; [apply mulM_range | apply mulM_range]).
  apply lxor_inj_l in Heq. by apply mix_inj.
Qed.

Lemma calcHash_1 : calcHash 1 [(0, 1)] = hash_1.
Proof. by vm_compute. Qed.

Lemma calcHash_method_0 : calcHash 1 [(0, method_0)] = 0.
Proof. by vm_compute. Qed.

Lemma calcHash_single_nonzero m :
  0 <= m < 2 ^ 64 -> m <> method_0 -> calcHash 1 [(0, m)] <> 0.
Proof.
  intros Hm Hne Heq. apply Hne.
  apply (calcHash_single_inj m method_0 Hm); [by vm_compute|].
  rewrite calcHash_method_0. exact Heq.
Qed.

Lemma elem_of_distinct_traces count m op :
  op ∈ distinct_traces count m ->
  exists j, op = (always, (1, [(0, j)])) /\ m <= j < m + Z.of_nat count.
Proof.
  revert m. induction count as [|count IH]; intros m Hin.
  - by apply elem_of_nil in Hin.
  - cbn [distinct_traces] in Hin. apply elem_of_cons in Hin as [-> | Hin].
    + exists m. split; [done | lia].
    + destruct (IH _ Hin) as (j & -> & Hj). exists j. split; [done | lia].
Qed.

Lemma length_distinct_traces count m :
  length (distinct_traces count m) = count.
Proof.
  revert m. induction count as [|count IH]; intros m; [done|].
  cbn [distinct_traces length]. by rewrite IH.
Qed.

Lemma distinct_traces_NoDup count m :
  0 <= m -> m + Z.of_nat count <= 2 ^ 64 ->
  NoDup (op_hash <$> distinct_traces count m).
Proof.
  revert m. induction count as [|count IH]; intros m Hm Hcount.
  - constructor.
  - cbn [distinct_traces fmap list_fmap]. apply NoDup_cons. split.
    + intros Hin. apply list_elem_of_fmap in Hin as (op & Heq & Hin).
      apply elem_of_distinct_traces in Hin as (j & -> & Hj).
      assert (m = j); [|lia].
      apply (calcHash_single_inj m j); [lia | lia | exact Heq].
    + apply IH; lia.
Qed.

(** ** The execution that grows the chain *)

(** With any 49151 traces in the middle whose hashes are distinct, not 0 and
    not that of the first trace. *)
Lemma growth_run_with (mid : list Op) :
  NoDup (op_hash <$> mid) ->
  (forall op, op ∈ mid ->
     safeAlloc_ok (fst op) = true /\ op_hash op <> hash_1 /\ op_hash op <> 0) ->
  Z.of_nat (length mid) = 49151 ->
  exists st ids t_new t_old,
    run_puts CallTraceStorage_new
      ((always, (1, [(0, 1)])) :: mid ++ [(always, (1, [(0, 1)]))]) =
      Some (st, ids) /\
    ids !! 0%nat = Some 57317 /\
    ids !! S (length mid) = Some 122853 /\
    _current_table st = [t_new; t_old] /\
    _capacity t_new = 131072 /\ _capacity t_old = 65536 /\
    key_at t_old slot_1 = hash_1 /\ key_at t_new slot_1 = hash_1 /\
    value_at t_old slot_1 = 1 /\ value_at t_new slot_1 = 1.
Proof.
  intros Hnd Hmid Hlen.
  set (t1 := mkTable 65536 1 {[slot_1 := hash_1]} {[slot_1 := 1]}).
  assert (Hput1 : put always CallTraceStorage_new 1 [(0, 1)] =
                  Some (storage_1, 57317)) by reflexivity.
  assert (Hinv1 : fill_inv t1 [hash_1]).
  { split; [done|]. split; [done|]. split.
    - unfold t1. cbn [keys length]. by rewrite map_size_singleton.
    - intros s. unfold key_at, t1. cbn [keys].
      destruct (decide (s = slot_1)) as [-> | Hne].
      + rewrite lookup_singleton_eq. intros _. by left.
      + rewrite lookup_singleton_ne by congruence. intros Hs. by destruct Hs. }
  destruct (fill_run mid storage_1 t1 [hash_1] eq_refl Hinv1 Hnd)
    as (st2 & ids2 & t_old & Hrun2 & Hct2 & [Hcap_old Hkeep]).
  { intros op Hop. destruct (Hmid op Hop) as (Hsafe & Hne & Hnz).
    split; [done|]. split; [|done].
    intros Hin%list_elem_of_singleton. contradiction. }
  { intros ->. simpl in Hlen. lia. }
  { cbn [length]. lia. }
  destruct (Hkeep slot_1) as [Hkey_old Hval_old]; [by vm_compute|].
  change (key_at t1 slot_1) with hash_1 in Hkey_old.
  change (value_at t1 slot_1) with 1 in Hval_old.
  change (_capacity t1) with 65536 in Hcap_old.
  set (new_table := mkTable 131072 0 ∅ ∅).
  assert (Hfind : findCallTrace t_old (calcHash 1 [(0, 1)]) = Some 1).
  { rewrite findCallTrace_probe, calcHash_1.
    rewrite (probe_first t_old hash_1 0).
    - rewrite Hcap_old. change (probe_slot 65536 hash_1 0) with slot_1.
      unfold stop_outcome. rewrite Hkey_old, Z.eqb_refl. simpl.
      by rewrite Hval_old.
    - rewrite Hcap_old. exists 16. split; [lia | reflexivity].
    - rewrite Hcap_old. lia.
    - intros i Hi. lia.
    - rewrite Hcap_old. change (probe_slot 65536 hash_1 0) with slot_1.
      intros [Hne _]. by apply Hne. }
  assert (Hprobe : probe new_table (calcHash 1 [(0, 1)]) =
                   Some (Vacant slot_1)) by (by vm_compute).
  pose proof (put_Vacant always st2 1 [(0, 1)] new_table [t_old] slot_1
                Hct2 Hprobe) as Hput3.
  cbn [inherited] in Hput3. rewrite Hfind in Hput3.
  cbn [fmap option_fmap option_map] in Hput3.
  set (st3 := claim_result (layout := lp64_layout) always st2 new_table
                [t_old] 1 [(0, 1)]
                (calcHash (layout := lp64_layout) 1 [(0, 1)]) slot_1 1) in *.
  change (slot_id (_capacity new_table) slot_1) with 122853 in Hput3.
  set (t_new := claimed_table new_table slot_1
                  (calcHash (layout := lp64_layout) 1 [(0, 1)]) 1).
  exists st3, (57317 :: ids2 ++ [122853]), t_new, t_old.
  split.
  { cbn [run_puts]. rewrite Hput1.
    rewrite (run_puts_app storage_1 mid [(always, (1, [(0, 1)]))]
               st2 ids2 st3 [122853] Hrun2); [done|].
    cbn [run_puts]. by rewrite Hput3. }
  split; [done|].
  split.
  { cbn [lookup list_lookup]. apply list_lookup_middle.
    symmetry. apply (run_puts_length storage_1 mid st2 ids2 Hrun2). }
  split; [reflexivity|].
  split; [reflexivity|]. split; [exact Hcap_old|].
  split; [exact Hkey_old|].
  split.
  { unfold t_new. rewrite key_at_claimed, decide_True by reflexivity.
    apply calcHash_1. }
  split; [exact Hval_old|].
  unfold t_new. rewrite value_at_claimed, decide_True by reflexivity.
  reflexivity.
Qed.

Lemma growth_run :
  exists st ids t_new t_old,
    run_puts CallTraceStorage_new growth_ops = Some (st, ids) /\
    ids !! 0%nat = Some 57317 /\
    ids !! Z.to_nat 49152 = Some 122853 /\
    _current_table st = [t_new; t_old] /\
    _capacity t_new = 131072 /\ _capacity t_old = 65536 /\
    key_at t_old slot_1 = hash_1 /\ key_at t_new slot_1 = hash_1 /\
    value_at t_old slot_1 = 1 /\ value_at t_new slot_1 = 1.
Proof.
  assert (Hlen : length (distinct_traces (Z.to_nat 49151) 2) = Z.to_nat 49151)
    by apply length_distinct_traces.
  destruct (growth_run_with (distinct_traces (Z.to_nat 49151) 2))
    as (st & ids & t_new & t_old & Hrun & Hfirst & Hlast & Hrest).
  - apply distinct_traces_NoDup; lia.
  - intros op Hop. apply elem_of_distinct_traces in Hop as (j & -> & Hj).
    split; [reflexivity|]. split.
    + intros Heq. unfold op_hash in Heq. cbn [fst snd] in Heq.
      assert (j = 1); [|lia].
      apply (calcHash_single_inj j 1); [lia | lia |].
      rewrite calcHash_1. exact Heq.
    + apply calcHash_single_nonzero; [lia|]. unfold method_0. lia.
  - rewrite Hlen. lia.
  - exists st, ids, t_new, t_old. split; [exact Hrun|].
    split; [exact Hfirst|]. split; [|exact Hrest].
    rewrite Hlen in Hlast.
    replace (Z.to_nat 49152) with (S (Z.to_nat 49151)) by lia.
    exact Hlast.
Qed.

(** ** C1 *)

(** C1 (counterexample): on a new storage the trace with [method_id] 1 is
    put, then 49151 other traces, then the first trace again: the first call
    returns 57317, the last one 122853. *)
Lemma put_id_changes_after_growth :
  exists st ids,
    run_puts CallTraceStorage_new growth_ops = Some (st, ids) /\
    growth_ops !! 0%nat = Some (always, (1, [(0, 1)])) /\
    growth_ops !! Z.to_nat 49152 = Some (always, (1, [(0, 1)])) /\
    ids !! 0%nat = Some 57317 /\
    ids !! Z.to_nat 49152 = Some 122853.
Proof.
  destruct growth_run
    as (st & ids & t_new & t_old & Hrun & Hfirst & Hlast & _).
  exists st, ids. split; [exact Hrun|]. clear Hrun.
  split; [vm_compute; reflexivity|]. split; [vm_compute; reflexivity|].
  split; [exact Hfirst | exact Hlast].
Qed.

Lemma put_stable_without_growth_witness :
  calcHash 1 [(0, 1)] <> 0 /\
  put always CallTraceStorage_new 1 [(0, 1)] = Some (storage_1, 57317) /\
  put always storage_1 1 [(0, 1)] = Some (storage_1, 57317).
Proof.
  assert (Hhash : calcHash 1 [(0, 1)] <> 0) by (by vm_compute).
  assert (Hput1 : put always CallTraceStorage_new 1 [(0, 1)] =
                  Some (storage_1, 57317)) by reflexivity.
  assert (Hput2 : put always storage_1 1 [(0, 1)] = Some (storage_1, 57317))
    by reflexivity.
  split; [exact Hhash|]. split; [exact Hput1|].
  destruct (put_stable_without_growth always always CallTraceStorage_new
              storage_1 storage_1 storage_1 1 [(0, 1)] 57317 57317
              Hhash Hput1 eq_refl (pst_refl storage_1) Hput2)
    as (_ & _ & _ & _).
  exact Hput2.
Defined.

(** ** C2 *)

(** C2 (counterexample): after the execution above both tables hold the hash
    of the first trace, and the output map of [collect] has the entry of the
    newer table under 122853 and the entry of the older table under 57317. *)
Lemma collect_keeps_newer_entry :
  exists st ids t_new t_old,
    run_puts CallTraceStorage_new growth_ops = Some (st, ids) /\
    _current_table st = [t_new; t_old] /\
    key_at t_new slot_1 = hash_1 /\ key_at t_old slot_1 = hash_1 /\
    hash_1 <> 0 /\
    slot_id (_capacity t_new) slot_1 = 122853 /\
    slot_id (_capacity t_old) slot_1 = 57317 /\
    collect st ∅ !! 122853 = Some (value_at t_new slot_1) /\
    collect st ∅ !! 57317 = Some (value_at t_old slot_1).
Proof.
  destruct growth_run
    as (st & ids & t_new & t_old & Hrun & _ & _ & Hct & Hnew & Hold &
        Hkold & Hknew & _ & _).
  exists st, ids, t_new, t_old. split; [exact Hrun|]. clear Hrun.
  assert (Hok : chain_ok (_current_table st)).
  { rewrite Hct. cbn [chain_ok]. rewrite Hnew, Hold.
    repeat split; by vm_compute. }
  assert (Hidnew : slot_id (_capacity t_new) slot_1 = 122853)
    by (by rewrite Hnew).
  assert (Hidold : slot_id (_capacity t_old) slot_1 = 57317)
    by (by rewrite Hold).
  assert (Hhash : hash_1 <> 0) by (by vm_compute).
  split; [exact Hct|]. split; [exact Hknew|]. split; [exact Hkold|].
  split; [exact Hhash|]. split; [exact Hidnew|]. split; [exact Hidold|].
  split.
  - rewrite <- Hidnew. unfold collect. apply collect_tables_hit.
    + exact Hok.
    + rewrite Hct. by left.
    + rewrite Hnew. by vm_compute.
    + by rewrite Hknew.
  - rewrite <- Hidold. unfold collect. apply collect_tables_hit.
    + exact Hok.
    + rewrite Hct. right. by left.
    + rewrite Hold. by vm_compute.
    + by rewrite Hkold.
Qed.

Lemma collect_keeps_every_entry_witness :
  chain_ok (_current_table inherited_storage) /\
  collect inherited_storage ∅ !! 122853 = Some 1 /\
  collect inherited_storage ∅ !! 57317 = Some 1.
Proof.
  assert (Hok : chain_ok (_current_table inherited_storage))
    by (repeat split; by vm_compute).
  split; [exact Hok|].
  destruct (collect_keeps_every_entry inherited_storage ∅ Hok) as [_ Hboth].
  destruct (Hboth
              (mkTable 131072 1 {[slot_1 := hash_1]} {[slot_1 := 1]}) slot_1
              (mkTable 65536 49152 {[slot_1 := hash_1]} {[slot_1 := 1]}) slot_1)
    as (_ & Hnew & Hold).
  - by left.
  - right. by left.
  - intros [=].
  - by vm_compute.
  - by vm_compute.
  - by vm_compute.
  - reflexivity.
  - split; [exact Hnew | exact Hold].
Defined.

(** ** C3 *)

Lemma slot_ids_disjoint_witness :
  chain_ok (_current_table CallTraceStorage_new) /\
  slot_id 65536 0 = 1 /\ slot_id 65536 65535 = 65536 /\
  put always CallTraceStorage_new 1 [(0, 1)] = Some (storage_1, 57317) /\
  put always storage_1 1 [(0, 2)] = Some (storage_2, 35108) /\
  57317 <> 35108.
Proof.
  assert (Hok : chain_ok (_current_table CallTraceStorage_new))
    by (split; [by vm_compute | reflexivity]).
  split; [exact Hok|].
  destruct (slot_ids_disjoint CallTraceStorage_new Hok)
    as (Hids & _ & _ & _ & Hputs).
  split.
  { destruct (Hids (mkTable 65536 0 ∅ ∅) 0) as [H _];
      [by left | by vm_compute | exact H]. }
  split.
  { destruct (Hids (mkTable 65536 0 ∅ ∅) 65535) as [H _];
      [by left | by vm_compute | exact H]. }
  clear Hids.
  assert (Hput1 : put always CallTraceStorage_new 1 [(0, 1)] =
                  Some (storage_1, 57317)) by reflexivity.
  assert (Hput2 : put always storage_1 1 [(0, 2)] = Some (storage_2, 35108))
    by reflexivity.
  split; [exact Hput1|]. split; [exact Hput2|].
  apply (Hputs always 1 [(0, 1)] storage_1 57317 [] storage_1 []
           always 1 [(0, 2)] storage_2 35108 Hput1 eq_refl Hput2);
    clear Hput1 Hput2 Hputs.
  - split; [by vm_compute | reflexivity].
  - by vm_compute.
  - by vm_compute.
  - by vm_compute.
  - by vm_compute.
  - by vm_compute.
Defined.

(** ** C4 *)

Lemma triangular_probing_witness :
  pow2_capacity 65536 /\ NoDup (probes 65536 hash_1).
Proof.
  assert (Hpow : pow2_capacity 65536).
  { exists 16. split; [lia | reflexivity]. }
  split; [exact Hpow|].
  exact (proj1 (proj2 (triangular_probing 65536 hash_1 Hpow))).
Defined.

(** ** C5 *)



(** ** C6 *)

Lemma arena_1_ok : arena_ok arena_1.
Proof.
  split; [by vm_compute|]. intros ptr [x Hx]. simpl in Hx.
  apply lookup_singleton_Some in Hx as [<- _]. by vm_compute.
Qed.

Lemma put_inherits_or_stores_witness :
  arena_ok arena_1 /\
  exists st',
    put always grown_storage 1 [(0, 1)] = Some (st', 122853) /\
    _allocator st' = arena_1.
Proof.
  split; [exact arena_1_ok|].
  destruct (put_inherits_or_stores always grown_storage
              (mkTable 131072 0 ∅ ∅)
              (mkTable 65536 49152 {[slot_1 := hash_1]} {[slot_1 := 1]})
              [] 1 [(0, 1)] slot_1 eq_refl)
    as (trace & st' & table' & Hfind & Hput & _ & _ & Hinherit & _).
  - by vm_compute.
  - exact arena_1_ok.
  - by vm_compute.
  - assert (Htrace : trace = 1).
    { assert (Hsome : Some trace = Some 1); [|by injection Hsome].
      rewrite <- Hfind. by vm_compute. }
    exists st'. split; [exact Hput|].
    apply Hinherit. rewrite Htrace. by vm_compute.
Defined.

(** ** C7 *)

(** C7 (counterexample): two calls of [put] on a new storage, with the
    distinct hashes 0 and [hash_1], return the non-zero IDs 1 and 57317;
    [collect] then emits one entry, for 57317 alone. *)
Lemma collect_misses_zero_hash :
  exists st,
    run_puts CallTraceStorage_new zero_hash_ops = Some (st, [1; 57317]) /\
    op_hash <$> zero_hash_ops = [0; hash_1] /\
    size (collect st ∅) = 1%nat /\
    collect st ∅ !! 1 = None /\
    collect st ∅ !! 57317 = Some 1.
Proof.
  exists storage_1. split; [reflexivity|]. split; [by vm_compute|].
  split; [by vm_compute|]. split; by vm_compute.
Qed.

Lemma collect_covers_puts_witness :
  run_puts CallTraceStorage_new two_ops = Some (storage_2, [57317; 35108]) /\
  size (collect storage_2 ∅) = 2%nat.
Proof.
  assert (Hrun : run_puts CallTraceStorage_new two_ops =
                 Some (storage_2, [57317; 35108])) by reflexivity.
  split; [exact Hrun|].
  destruct (collect_covers_puts two_ops storage_2 [57317; 35108] Hrun)
    as [Hsize _].
  - assert (Hhashes : op_hash <$> two_ops = [hash_1; hash_2])
      by (by vm_compute).
    rewrite Hhashes. apply NoDup_cons. split; [|apply NoDup_singleton].
    intros Hin%list_elem_of_singleton. discriminate Hin.
  - intros op Hop. apply elem_of_cons in Hop as [-> | Hop]; [by vm_compute|].
    apply list_elem_of_singleton in Hop as ->. by vm_compute.
  - intros id Hid.
    apply elem_of_cons in Hid as [-> | Hid]; [by vm_compute|].
    apply list_elem_of_singleton in Hid as ->. by vm_compute.
  - by vm_compute.
  - exact Hsize.
Defined.

(** ** C8 *)

Lemma put_allocation_failure_witness :
  chain_ok (_current_table CallTraceStorage_new) /\
  exists st',
    put (mkEnv true false) CallTraceStorage_new 1 [(0, 1)] =
      Some (st', 57317) /\
    collect st' ∅ !! 57317 = Some NULL.
Proof.
  assert (Hok : chain_ok (_current_table CallTraceStorage_new))
    by (split; [by vm_compute | reflexivity]).
  split; [exact Hok|].
  destruct (put_allocation_failure (layout := lp64_layout)
              (mkEnv true false) CallTraceStorage_new
              (mkTable 65536 0 ∅ ∅) [] 1 [(0, 1)] eq_refl Hok) as [Hfail _].
  destruct (Hfail slot_1) as (st' & table' & Hput & _ & _ & _ & _ & _ & _ & _ & Hcollect).
  - by vm_compute.
  - reflexivity.
  - reflexivity.
  - exists st'. split; [exact Hput | exact Hcollect].
Defined.

(** ** C9 *)

Lemma clear_resets_witness :
  chain_ok (_current_table grown_storage) /\
  clear grown_storage = Some CallTraceStorage_new.
Proof.
  assert (Hok : chain_ok (_current_table grown_storage))
    by (repeat split; by vm_compute).
  split; [exact Hok|].
  destruct (clear_resets grown_storage Hok) as (t & Hlast & Hclear & _).
  injection Hlast as <-. exact Hclear.
Defined.

(** ** C10 *)

Lemma put_zero_hash_witness :
  calcHash 1 [(0, method_0)] = 0 /\
  put always CallTraceStorage_new 1 [(0, method_0)] =
    Some (CallTraceStorage_new, 1) /\
  collect CallTraceStorage_new ∅ !! 1 = None.
Proof.
  assert (Hhash : calcHash 1 [(0, method_0)] = 0) by (by vm_compute).
  assert (Hok : chain_ok [mkTable 65536 0 ∅ ∅])
    by (split; [by vm_compute | reflexivity]).
  split; [exact Hhash|].
  destruct (put_zero_hash (layout := lp64_layout)
              always CallTraceStorage_new (mkTable 65536 0 ∅ ∅)
              [] 1 [(0, method_0)] eq_refl Hok Hhash) as [Hfirst _].
  destruct (Hfirst 0%nat) as (Hput & _ & _ & _ & Hcollect).
  - by vm_compute.
  - intros i Hi. lia.
  - reflexivity.
  - split; [exact Hput | exact Hcollect].
Defined.

(** C10 (counterexample): the trace whose hash is 0 is put on a new storage
    and is given the ID 1; the trace with [method_id] 135703 then claims the
    slot behind that ID and is given the ID 1 too, and [collect] emits an
    entry for the ID 1, the trace with [method_id] 135703.  Put again, the
    trace whose hash is 0 is given the ID 2. *)
Lemma collect_emits_zero_hash_id :
  op_hash <$> reused_id_ops = [0; hash_3; 0] /\
  run_puts CallTraceStorage_new reused_id_ops = Some (storage_3, [1; 1; 2]) /\
  collect storage_3 ∅ !! 1 = Some 1 /\
  deref (_allocator storage_3) 1 = Some (mkCallTrace 1 [(0, 135703)]).
Proof.
  split; [by vm_compute|]. split; [reflexivity|].
  split; [by vm_compute | reflexivity].
Qed.


(** * Further properties of the storage *)

Section Further.

Context {layout : FrameLayout}.

(** ** The size of a table in memory *)

Lemma land_lnot_ones x k :
  0 <= k -> Z.land x (Z.lnot (Z.ones k)) = 2 ^ k * (x / 2 ^ k).
Proof.
  intros Hk. rewrite <- Z.ldiff_land, Z.ldiff_ones_r by done.
  rewrite Z.shiftl_mul_pow2, Z.shiftr_div_pow2 by done. lia.
Qed.

(** X1: for a page size [2^k] the size of a table in memory is a whole
    number of pages, the least that holds the header, the keys and the
    values; the two arrays lie one after the other behind the header, and
    [clear] zeroes exactly the bytes of the two. *)
Theorem getSize_whole_pages k capacity :
  0 <= k <= 32 -> 0 <= capacity < 2 ^ 32 ->
  let page_size := 2 ^ k in
  let size := getSize page_size capacity in
  (page_size | size) /\
  values_offset capacity + 8 * capacity <= size <
    values_offset capacity + 8 * capacity + page_size /\
  keys_offset = sizeof_LongHashTable /\
  keys_offset + 8 * capacity = values_offset capacity /\
  keys_offset + clear_bytes capacity = values_offset capacity + 8 * capacity.
Proof.
  intros Hk Hc page_size size.
  assert (Hpage : 0 < page_size <= 2 ^ 32).
  { unfold page_size. split; [apply Z.pow_pos_nonneg; lia|].
    apply Z.pow_le_mono_r; lia. }
  assert (Hraw : u64 (sizeof_LongHashTable + u64 (u64 (8 + 8) * capacity)) =
                 144 + 16 * capacity).
  { rewrite !u64_mod. change ((8 + 8) mod 2 ^ 64) with 16.
    change sizeof_LongHashTable with 144.
    rewrite (Z.mod_small (16 * capacity)) by lia. apply Z.mod_small. lia. }
  assert (Hsize : size = page_size * ((144 + 16 * capacity + (page_size - 1)) / page_size)).
  { unfold size, getSize. rewrite Hraw.
    rewrite (u64_mod (page_size - 1)), (Z.mod_small (page_size - 1)) by lia.
    rewrite (u64_mod (144 + _ + _)), (Z.mod_small (144 + _ + _)) by lia.
    unfold u64 at 1. change 0xFFFFFFFFFFFFFFFF with (Z.ones 64).
    rewrite (Z.land_comm (Z.lnot _)), Z.land_assoc, Z.land_ones by lia.
    rewrite Z.mod_small by lia.
    replace (page_size - 1) with (Z.ones k) at 2
      by (rewrite Z.ones_equiv; unfold page_size; lia).
    by rewrite land_lnot_ones by lia. }
  assert (Hclear : clear_bytes capacity = 16 * capacity).
  { unfold clear_bytes. rewrite !u64_mod. change ((8 + 8) mod 2 ^ 64) with 16.
    apply Z.mod_small. lia. }
  unfold values_offset, keys_offset. change sizeof_LongHashTable with 144.
  split; [rewrite Hsize; by eexists; rewrite Z.mul_comm|].
  split; [|split; [done|split; [done|lia]]].
  pose proof (Z.div_mod (144 + 16 * capacity + (page_size - 1)) page_size
                ltac:(lia)) as Hdm.
  pose proof (Z.mod_pos_bound (144 + 16 * capacity + (page_size - 1)) page_size
                ltac:(lia)) as Hmod.
  rewrite Hsize. lia.
Qed.

(** ** The empty trace *)

Lemma calcHash_empty (fr : list ASGCT_CallFrame) : calcHash 0 fr = 0.
Proof. unfold calcHash. rewrite Z.mul_0_l. reflexivity. Qed.

(** A probe for the hash 0 never claims a slot. *)
Lemma probe_zero_not_vacant t s : probe t 0 <> Some (Vacant s).
Proof. intros Hp. by destruct (probe_keys t 0 _ Hp) as [_ Hne]. Qed.

(** X2: a trace without frames has the hash 0 and is never stored: [put]
    with [num_frames = 0] leaves the storage as it is, and the ID it returns
    is no ID under which [collect] emits an entry. *)
Theorem put_empty_trace env st (fr : list ASGCT_CallFrame) :
  chain_ok (_current_table st) ->
  calcHash 0 fr = 0 /\
  exists id, put env st 0 fr = Some (st, id) /\ collect st ∅ !! id = None.
Proof.
  intros Hok. split; [apply calcHash_empty|].
  destruct (chain_ok_put_total env st 0 fr Hok) as [[st' id] Hput].
  destruct (put_outcome env st 0 fr st' id Hput)
    as (t & p & o & Hct & Ho & Hres).
  rewrite calcHash_empty in Ho, Hres. rewrite Hct in Hok.
  destruct (chain_ok_pow2 _ t Hok ltac:(by left)) as [Hpow _].
  destruct o as [s | s |].
  - destruct Hres as [-> ->]. exists (slot_id (_capacity t) s).
    split; [done|]. unfold collect. rewrite Hct.
    rewrite collect_tables_other; [done|].
    apply not_occupied_vacant; [done | by left | |].
    + apply (probe_slot_in_range t 0 _ s Hpow Ho eq_refl).
    + apply (probe_keys t 0 _ Ho).
  - by destruct (probe_zero_not_vacant t s).
  - destruct Hres as [-> ->]. exists 0. split; [done|].
    unfold collect. rewrite Hct. rewrite collect_tables_other; [done|].
    intros (t' & s & Hin & Hs & _ & Hid).
    pose proof (chain_ok_capacity_range _ t' Hok Hin).
    by apply (slot_id_nonzero (_capacity t') s).
Qed.

(** ** Lookups *)

Lemma findCallTrace_sound_aux t hash :
  pow2_capacity (_capacity t) ->
  exists v,
    findCallTrace t hash = Some v /\
    (v <> NULL ->
     exists s, 0 <= s < _capacity t /\ key_at t s = hash /\ value_at t s = v).
Proof.
  intros Hpow. pose proof (pow2_capacity_range _ Hpow) as Hr.
  destruct (probe_total t hash ltac:(lia)) as [o Ho].
  rewrite findCallTrace_probe, Ho. exists (find_result t o).
  split; [done|]. destruct o as [s | s |]; simpl; [|done..].
  pose proof (probe_slot_in_range t hash _ s Hpow Ho eq_refl) as Hs.
  pose proof (probe_keys t hash _ Ho) as Hkey. simpl in Hkey.
  intros _. by exists s.
Qed.

(** X3: what [findCallTrace] returns is null or the value of a slot of the
    table whose key is the hash; it is null when no slot holds the hash. *)
Theorem findCallTrace_sound t hash :
  pow2_capacity (_capacity t) ->
  exists v,
    findCallTrace t hash = Some v /\
    (v <> NULL ->
     exists s, 0 <= s < _capacity t /\ key_at t s = hash /\ value_at t s = v) /\
    ((forall s, 0 <= s < _capacity t -> key_at t s <> hash) -> v = NULL).
Proof.
  intros Hpow.
  destruct (findCallTrace_sound_aux t hash Hpow) as (v & Hfind & Hval).
  exists v. split; [done|]. split; [done|].
  intros Hmissing. destruct (decide (v = NULL)) as [|Hne]; [done|].
  destruct (Hval Hne) as (s & Hs & Hkey & _). by destruct (Hmissing s Hs).
Qed.

(** ** The output map of collect *)

Lemma collect_slots_union n t s0 (m : gmap Z Z) :
  collect_slots n t s0 m = collect_slots n t s0 ∅ ∪ m.
Proof.
  revert s0 m. induction n as [|n IH]; intros s0 m; simpl.
  { by rewrite (left_id_L ∅ (∪)). }
  destruct (key_at t s0 =? 0); [apply IH|].
  rewrite IH, (IH _ (<[_ := _]> ∅)), <- (assoc_L (∪)).
  by rewrite <- insert_union_l, (left_id_L ∅ (∪)).
Qed.

Lemma collect_tables_union chain (m : gmap Z Z) :
  collect_tables chain m = collect_tables chain ∅ ∪ m.
Proof.
  revert m. induction chain as [|t p IH]; intros m; simpl.
  { by rewrite (left_id_L ∅ (∪)). }
  rewrite IH, (IH (collect_slots _ _ _ ∅)), collect_slots_union.
  by rewrite (assoc_L (∪)).
Qed.

(** X4: [collect] adds its entries to the map it is given: an entry of the
    caller is replaced when [collect] emits one under the same key and is
    kept otherwise; collecting twice gives what collecting once gives. *)
Theorem collect_adds_to_map st (m : gmap Z Z) :
  collect st m = collect st ∅ ∪ m /\
  (forall id, collect st ∅ !! id = None -> collect st m !! id = m !! id) /\
  (forall id v, collect st ∅ !! id = Some v -> collect st m !! id = Some v) /\
  collect st (collect st m) = collect st m.
Proof.
  assert (Hu : forall m', collect st m' = collect st ∅ ∪ m')
    by (intros m'; apply collect_tables_union).
  split; [apply Hu|]. split; [|split].
  - intros id Hid. rewrite Hu. by apply lookup_union_r.
  - intros id v Hid. rewrite Hu. by apply lookup_union_Some_l.
  - rewrite (Hu (collect st m)), (Hu m), (assoc_L (∪)).
    by rewrite (idemp_L (∪)).
Qed.

(** ** put, then findCallTrace and collect *)

(** X5: after a [put] of an input whose hash is not 0 that returned an ID
    other than 0, the slot with that ID holds the hash, in a table of the
    chain; [findCallTrace] on that table returns the value of the slot for
    the hash, and [collect] emits the same value under the ID. *)
Theorem put_then_find env st n fr st' id :
  chain_ok (_current_table st) ->
  calcHash n fr <> 0 -> id <> 0 ->
  put env st n fr = Some (st', id) ->
  exists t' s,
    t' ∈ _current_table st' /\ 0 <= s < _capacity t' /\
    id = slot_id (_capacity t') s /\
    key_at t' s = calcHash n fr /\
    findCallTrace t' (calcHash n fr) = Some (value_at t' s) /\
    (forall m, collect st' m !! id = Some (value_at t' s)).
Proof.
  intros Hok Hhash Hid Hput.
  destruct (put_outcome env st n fr st' id Hput)
    as (t & p & o & Hct & Ho & Hres).
  rewrite Hct in Hok.
  destruct (chain_ok_pow2 _ t Hok ltac:(by left)) as [Hpow _].
  destruct o as [s | s |].
  - destruct Hres as [-> ->].
    pose proof (probe_slot_in_range t _ _ s Hpow Ho eq_refl) as Hs.
    pose proof (probe_keys t _ _ Ho) as Hkey. simpl in Hkey.
    exists t, s. rewrite Hct. split; [by left|]. split; [done|].
    split; [done|]. split; [done|].
    split; [by rewrite findCallTrace_probe, Ho|].
    intros m. unfold collect. rewrite Hct.
    apply collect_tables_hit; [done | by left | done | congruence].
  - destruct Hres as (trace & _ & -> & ->).
    pose proof (probe_slot_in_range t _ _ s Hpow Ho eq_refl) as Hs.
    set (t' := claimed_table t s (calcHash n fr)
                 (snd (publish env (_allocator st) n fr trace))).
    assert (Hkey : key_at t' s = calcHash n fr).
    { unfold t'. rewrite key_at_claimed. by rewrite decide_True. }
    exists t', s.
    split. { rewrite claim_result_chain. apply elem_of_app. right. by left. }
    split; [done|]. split; [done|]. split; [done|].
    split.
    { rewrite findCallTrace_probe. unfold t'.
      by rewrite (probe_claimed t _ _ s Ho). }
    intros m. rewrite collect_claim_result. fold t'.
    change (_capacity t) with (_capacity t').
    apply collect_tables_hit; [done | by left | done | congruence].
  - by destruct Hres as [_ ->].
Qed.

(** X6: [put] removes and changes nothing: every entry that [collect]
    emitted before the call it emits after it, with the same pointer, and
    every stored trace is still at its address. *)
Theorem put_keeps_entries env st n fr st' id :
  chain_ok (_current_table st) -> arena_ok (_allocator st) ->
  put env st n fr = Some (st', id) ->
  (forall id' v, collect st ∅ !! id' = Some v ->
                 collect st' ∅ !! id' = Some v) /\
  (forall ptr x, deref (_allocator st) ptr = Some x ->
                 deref (_allocator st') ptr = Some x).
Proof.
  intros Hok Harena Hput.
  destruct (put_outcome env st n fr st' id Hput)
    as (t & p & o & Hct & Ho & Hres).
  destruct o as [s | s |]; [by destruct Hres as [-> _] | | by destruct Hres as [-> _]].
  destruct Hres as (trace & _ & -> & _).
  rewrite Hct in Hok.
  destruct (probe_keys t _ _ Ho) as [Hkey Hhash].
  split.
  - intros id' v Hv. rewrite collect_claim_result.
    unfold collect in Hv. rewrite Hct in Hv.
    set (t' := claimed_table t s (calcHash n fr)
                 (snd (publish env (_allocator st) n fr trace))).
    destruct (collect_tables_inv (t :: p) ∅ id' ltac:(by eexists))
      as [(t0 & s0 & Hin & Hs0 & Hk0 & <-) | [x Hx]];
      [|by rewrite lookup_empty in Hx].
    rewrite (collect_tables_hit (t :: p) ∅ t0 s0) in Hv by done.
    injection Hv as <-.
    apply elem_of_cons in Hin as [-> | Hin].
    + assert (Hne : s <> s0) by congruence.
      replace (value_at t s0) with (value_at t' s0)
        by (unfold t'; rewrite value_at_claimed; by rewrite decide_False).
      change (_capacity t) with (_capacity t').
      apply collect_tables_hit; [done | by left | done |].
      unfold t'. rewrite key_at_claimed. by rewrite decide_False.
    + apply collect_tables_hit; [done | by right | done | done].
  - intros ptr x Hx. unfold claim_result. cbn [_allocator].
    unfold publish. destruct (trace =? NULL); [|done].
    destruct (alloc_ok env); [|done].
    destruct (storeCallTrace true (_allocator st) n fr) as [a' buf] eqn:Hstore.
    destruct (storeCallTrace_ok _ _ _ _ _ Harena Hstore)
      as (_ & Hfresh & _ & Hothers & _).
    cbn [fst]. rewrite Hothers; [done|]. intros ->. congruence.
Qed.

(** ** The first put into an empty table *)

Lemma put_into_empty env st sz n fr :
  _current_table st = [mkTable INITIAL_CAPACITY sz ∅ ∅] ->
  exists st',
    put env st n fr = Some (st', calcHash n fr mod INITIAL_CAPACITY + 1).
Proof.
  intros Hct. set (t := mkTable INITIAL_CAPACITY sz ∅ ∅).
  assert (Hpow : pow2_capacity (_capacity t)).
  { exists 16. split; [lia | done]. }
  set (s := probe_slot (_capacity t) (calcHash n fr) 0).
  assert (Hs : s = calcHash n fr mod INITIAL_CAPACITY).
  { unfold s. cbn [probe_slot]. by rewrite first_slot. }
  assert (Hrange : 0 <= s < INITIAL_CAPACITY).
  { rewrite Hs. apply Z.mod_pos_bound. done. }
  assert (Hid : slot_id (_capacity t) s = calcHash n fr mod INITIAL_CAPACITY + 1).
  { rewrite slot_id_exact; [|done|done]. rewrite Hs. cbn. lia. }
  assert (Hp : probe t (calcHash n fr) = Some (stop_outcome t (calcHash n fr) s)).
  { apply (probe_first t (calcHash n fr) 0); [done | done | lia |].
    intros [_ Hne]. apply Hne. apply key_at_empty. }
  pose proof (key_at_empty INITIAL_CAPACITY sz s) as Hempty. fold t in Hempty.
  unfold stop_outcome in Hp. rewrite Hempty in Hp.
  destruct (Z.eqb_spec 0 (calcHash n fr)) as [Hz | Hnz].
  - exists st. rewrite <- Hid. by apply (put_Found env st n fr t []).
  - eexists. rewrite <- Hid.
    by rewrite (put_Vacant env st n fr t [] s Hct Hp).
Qed.

(** X7: after [clear] the storage is as good as new: [collect] emits
    nothing, [findCallTrace] finds nothing, and the next [put] returns the
    ID of the first slot of its probe sequence, the hash modulo
    [INITIAL_CAPACITY], plus one. *)
Theorem clear_then_put st :
  chain_ok (_current_table st) ->
  exists st',
    clear st = Some st' /\
    (forall m, collect st' m = m) /\
    (forall t hash, t ∈ _current_table st' ->
       findCallTrace t hash = Some NULL) /\
    (forall env n fr, exists st'',
       put env st' n fr = Some (st'', calcHash n fr mod INITIAL_CAPACITY + 1)).
Proof.
  intros Hok.
  destruct (clear_spec st (chain_ok_nonempty _ Hok)) as (t & Hlast & Hclear).
  pose proof (chain_ok_last _ t Hok Hlast) as Hcap.
  eexists. split; [exact Hclear|].
  unfold LongHashTable_clear. rewrite Hcap. split; [|split].
  - intros m. unfold collect. cbn [_current_table collect_tables].
    apply collect_slots_empty. intros s. apply key_at_empty.
  - intros t' hash Hin. cbn [_current_table] in Hin.
    apply list_elem_of_singleton in Hin as ->.
    destruct (findCallTrace_sound_aux (mkTable INITIAL_CAPACITY 0 ∅ ∅) hash)
      as (v & Hfind & Hval); [exists 16; split; [lia | done]|].
    rewrite Hfind. f_equal. destruct (decide (v = NULL)) as [|Hne]; [done|].
    destruct (Hval Hne) as (s & _ & _ & <-).
    unfold value_at. simpl. by rewrite lookup_empty.
  - intros env n fr. by apply (put_into_empty env _ 0).
Qed.

(** ** The hash *)

Lemma calcHash_eq n (fr : list ASGCT_CallFrame) :
  calcHash n fr =
  let len := int32 (n * sizeof_ASGCT_CallFrame) in
  let r := hash_loop (Z.to_nat (Z.quot len 8)) (flat_map frame_bytes fr)
             (u64 (len * M)) in
  hash_finish len (fst r) (snd r).
Proof.
  unfold calcHash, hash_finish, avalanche, xorshift, mulM. cbv zeta.
  destruct (hash_loop _ _ _) as [h data]. cbn [fst snd].
  by destruct (Z.land _ 4 =? 0).
Qed.

Lemma hash_loop_range k data h :
  0 <= h < 2 ^ 64 -> 0 <= fst (hash_loop k data h) < 2 ^ 64.
Proof.
  revert data h. induction k as [|k IH]; intros data h Hh; [done|].
  cbn [hash_loop]. apply IH. apply u64_range.
Qed.

Lemma hash_finish_range len h data :
  0 <= h < 2 ^ 64 -> 0 <= hash_finish len h data < 2 ^ 64.
Proof.
  intros Hh. unfold hash_finish, avalanche.
  apply xorshift_range, mulM_range.
Qed.

(** The loop reads eight bytes for each word and nothing else. *)
Lemma hash_loop_take k m data h :
  (8 * k <= m)%nat ->
  hash_loop k (take m data) h =
  (fst (hash_loop k data h), take (m - 8 * k) (snd (hash_loop k data h))).
Proof.
  revert m data h. induction k as [|k IH]; intros m data h Hm.
  { cbn [hash_loop fst snd]. by rewrite Nat.sub_0_r. }
  cbn [hash_loop]. unfold read_u64.
  rewrite take_take, Nat.min_l by lia.
  rewrite skipn_firstn_comm, (IH (m - 8)%nat) by lia.
  do 2 f_equal. lia.
Qed.

Lemma flat_map_take_frames (k n : nat) (fr : list ASGCT_CallFrame) :
  (forall f, length (frame_bytes f) = k) ->
  flat_map frame_bytes (take n fr) = take (n * k) (flat_map frame_bytes fr).
Proof.
  intros Hlen. revert fr. induction n as [|n IH]; intros fr.
  { by rewrite Nat.mul_0_l, !take_0. }
  destruct fr as [|f fr]; [cbn [take flat_map]; by rewrite take_nil|].
  cbn [take flat_map]. rewrite IH.
  replace (S n * k)%nat with (length (frame_bytes f) + n * k)%nat
    by (rewrite Hlen; lia).
  by rewrite take_app_add.
Qed.

Lemma land_4_mod_8 len : Z.land len 4 <> 0 -> 4 <= len mod 8.
Proof.
  intros Hbit.
  assert (Heq : Z.land len 4 = Z.land (len mod 8) 4).
  { change 8 with (2 ^ 3). rewrite <- Z.land_ones by lia.
    rewrite <- Z.land_assoc. done. }
  pose proof (Z.mod_pos_bound len 8 ltac:(lia)) as Hr.
  destruct (Z_lt_dec (len mod 8) 4) as [Hlt|]; [|lia].
  exfalso. apply Hbit. rewrite Heq.
  assert (Hcases : len mod 8 = 0 \/ len mod 8 = 1 \/ len mod 8 = 2 \/
                   len mod 8 = 3) by lia.
  destruct Hcases as [-> | [-> | [-> | ->]]]; done.
Qed.

Lemma calcHash_range n (fr : list ASGCT_CallFrame) : 0 <= calcHash n fr < 2 ^ 64.
Proof.
  rewrite calcHash_eq. apply hash_finish_range, hash_loop_range, u64_range.
Qed.

Lemma calcHash_take n (fr : list ASGCT_CallFrame) :
  layout_ok ->
  0 <= n -> n * sizeof_ASGCT_CallFrame < 2 ^ 31 ->
  calcHash n (take (Z.to_nat n) fr) = calcHash n fr.
Proof.
  intros [Hsz Hbytes] Hn Hlen.
  rewrite !calcHash_eq. cbv zeta.
  assert (Hint : int32 (n * sizeof_ASGCT_CallFrame) = n * sizeof_ASGCT_CallFrame).
  { unfold int32. rewrite Z.mod_small by nia. lia. }
  rewrite Hint. set (len := n * sizeof_ASGCT_CallFrame) in *.
  assert (Hlen0 : 0 <= len) by (unfold len; nia).
  rewrite (flat_map_take_frames (Z.to_nat sizeof_ASGCT_CallFrame)) by done.
  replace (Z.to_nat n * Z.to_nat sizeof_ASGCT_CallFrame)%nat
    with (Z.to_nat len) by (unfold len; rewrite Z2Nat.inj_mul; lia).
  assert (Hw : (8 * Z.to_nat (Z.quot len 8) <= Z.to_nat len)%nat).
  { rewrite Z.quot_div_nonneg by lia.
    pose proof (Z.mul_div_le len 8 ltac:(lia)).
    pose proof (Z.div_pos len 8 ltac:(lia) ltac:(lia)). lia. }
  rewrite hash_loop_take by done. cbn [fst snd].
  unfold hash_finish. destruct (Z.eqb_spec (Z.land len 4) 0) as [|Hbit]; [done|].
  apply land_4_mod_8 in Hbit. unfold read_u32.
  rewrite take_take, Nat.min_l; [done|].
  rewrite Z.quot_div_nonneg by lia.
  pose proof (Z.div_mod len 8 ltac:(lia)).
  pose proof (Z.div_pos len 8 ltac:(lia) ltac:(lia)). lia.
Qed.

(** X8: the hash is a 64-bit value that depends on the first [num_frames]
    frames alone, when these take no more bytes than an [int] counts. *)
Theorem calcHash_prefix n (fr : list ASGCT_CallFrame) :
  layout_ok ->
  0 <= n -> n * sizeof_ASGCT_CallFrame < 2 ^ 31 ->
  calcHash n (take (Z.to_nat n) fr) = calcHash n fr /\
  0 <= calcHash n fr < 2 ^ 64.
Proof.
  intros Hlayout Hn Hlen. split; [by apply calcHash_take | apply calcHash_range].
Qed.

(** ** Executions *)

Lemma filter_all {A} (P : A -> Prop) `{!forall x, Decision (P x)} (l : list A) :
  Forall P l -> filter P l = l.
Proof.
  induction 1 as [|x l Hx _ IH]; [done|].
  by rewrite filter_cons_True, IH.
Qed.

Lemma filter_none {A} (P : A -> Prop) `{!forall x, Decision (P x)} (l : list A) :
  Forall (fun x => ~ P x) l -> filter P l = [].
Proof.
  induction 1 as [|x l Hx _ IH]; [done|].
  by rewrite filter_cons_False, IH.
Qed.

Lemma filter_same {A} (P Q : A -> Prop) `{!forall x, Decision (P x)}
    `{!forall x, Decision (Q x)} (l : list A) :
  (forall x, x ∈ l -> (Q x <-> P x)) -> filter Q l = filter P l.
Proof.
  induction l as [|x l IH]; intros Hiff; [done|].
  rewrite !filter_cons, IH by (intros y Hy; apply Hiff; by right).
  destruct (Hiff x ltac:(by left)) as [H1 H2].
  destruct (decide (Q x)), (decide (P x)); tauto || done.
Qed.

Lemma filter_one_more {A} (P Q : A -> Prop) `{!forall x, Decision (P x)}
    `{!forall x, Decision (Q x)} (l : list A) s :
  NoDup l -> s ∈ l -> ~ P s -> Q s ->
  (forall x, x <> s -> (Q x <-> P x)) ->
  length (filter Q l) = S (length (filter P l)).
Proof.
  intros Hnd Hin HP HQ Hiff.
  induction l as [|x l IH]; [by apply elem_of_nil in Hin|].
  apply NoDup_cons in Hnd as [Hx Hnd].
  apply elem_of_cons in Hin as [<- | Hin].
  - rewrite filter_cons_True, (filter_cons_False P) by done.
    cbn [length]. do 2 f_equal. apply filter_same.
    intros y Hy. apply Hiff. intros ->. done.
  - assert (Hne : x <> s) by (intros ->; done).
    rewrite !filter_cons. specialize (IH Hnd Hin).
    destruct (Hiff x Hne) as [H1 H2].
    destruct (decide (Q x)), (decide (P x)); cbn [length]; tauto || lia.
Qed.

Lemma occupied_slots_empty c sz : occupied_slots (mkTable c sz ∅ ∅) = [].
Proof.
  apply filter_none, Forall_forall. intros s _ Hs. apply Hs, key_at_empty.
Qed.

Lemma occupied_slots_length t :
  0 <= _capacity t -> Z.of_nat (length (occupied_slots t)) <= _capacity t.
Proof.
  intros Hc. unfold occupied_slots.
  pose proof (length_filter (fun s => key_at t s <> 0) (seqZ 0 (_capacity t))) as H.
  rewrite length_seqZ in H. lia.
Qed.

Lemma occupied_slots_claimed t s hash trace :
  0 <= s < _capacity t -> key_at t s = 0 -> hash <> 0 ->
  length (occupied_slots (claimed_table t s hash trace)) =
  S (length (occupied_slots t)).
Proof.
  intros Hs Hkey Hhash. unfold occupied_slots.
  change (_capacity (claimed_table t s hash trace)) with (_capacity t).
  apply (filter_one_more _ _ _ s).
  - apply NoDup_seqZ.
  - apply elem_of_seqZ. lia.
  - intros Hne. done.
  - rewrite key_at_claimed. by rewrite decide_True.
  - intros x Hx. rewrite key_at_claimed. by rewrite decide_False.
Qed.

(** A table on which the probe gives up has a key in every slot. *)
Lemma probe_Full_occupied t hash :
  pow2_capacity (_capacity t) -> probe t hash = Some Full ->
  Z.of_nat (length (occupied_slots t)) = _capacity t.
Proof.
  intros Hpow Hfull. pose proof (pow2_capacity_range _ Hpow) as Hr.
  pose proof (probe_loop_Full_inv _ t hash (_capacity t) 0
                ltac:(lia) ltac:(lia) Hfull) as Hmiss.
  unfold occupied_slots. rewrite filter_all, length_seqZ; [lia|].
  apply Forall_forall. intros s Hs%elem_of_seqZ.
  destruct (probes_cover (_capacity t) hash s Hpow ltac:(lia)) as (k & Hk & <-).
  destruct (Hmiss k) as [_ Hkey]; [lia | lia | done].
Qed.

Lemma sizes_ok_new : sizes_ok CallTraceStorage_new 0.
Proof.
  split; [apply chain_ok_new|]. split.
  - intros t Hin. apply list_elem_of_singleton in Hin as ->.
    rewrite occupied_slots_empty. split; [done|].
    intros s Hs. by rewrite key_at_empty in Hs.
  - by eexists _, _.
Qed.

Lemma sizes_ok_put env st n fr st' id calls :
  sizes_ok st calls -> Z.of_nat calls + 1 < 2 ^ 29 ->
  put env st n fr = Some (st', id) ->
  sizes_ok st' (S calls).
Proof.
  intros (Hok & Htabs & (t & p & Hct & Hsize)) Hcalls Hput.
  destruct (put_outcome env st n fr st' id Hput)
    as (t0 & p0 & o & Hct0 & Ho & Hres).
  rewrite Hct in Hct0. injection Hct0 as <- <-.
  assert (Hsame : sizes_ok st (S calls)).
  { split; [done|]. split; [done|]. exists t, p. split; [done | lia]. }
  destruct o as [s | s |];
    [by destruct Hres as [-> _] | | by destruct Hres as [-> _]].
  destruct Hres as (trace & _ & -> & _).
  rewrite Hct in Hok, Htabs.
  destruct (chain_ok_pow2 _ t Hok ltac:(by left)) as [Hpow _].
  pose proof (chain_ok_capacity_range _ t Hok ltac:(by left)) as Hcap.
  unfold INITIAL_CAPACITY in Hcap.
  destruct (probe_keys t _ _ Ho) as [Hkey Hhash].
  pose proof (probe_slot_in_range t _ _ s Hpow Ho eq_refl) as Hs.
  destruct (Htabs t ltac:(by left)) as [Hsz Hrange].
  set (t' := claimed_table t s (calcHash n fr)
               (snd (publish env (_allocator st) n fr trace))).
  pose proof (occupied_slots_claimed t s (calcHash n fr)
                (snd (publish env (_allocator st) n fr trace)) Hs Hkey Hhash)
    as Hcount. fold t' in Hcount.
  pose proof (occupied_slots_length t' ltac:(simpl; lia)) as Hle.
  change (_capacity t') with (_capacity t) in Hle.
  assert (Hu32 : u32 (_size t + 1) = _size t + 1) by (apply u32_small; lia).
  assert (Htab' : _size t' = Z.of_nat (length (occupied_slots t')) /\
                  forall x, key_at t' x <> 0 -> 0 <= x < _capacity t').
  { split.
    - unfold t' at 1. cbn [claimed_table _size]. rewrite Hu32, Hcount. lia.
    - intros x. unfold t'. rewrite key_at_claimed.
      case_decide as Hx; [by subst x | apply Hrange]. }
  assert (Hok' : chain_ok (t' :: p)) by done.
  assert (Htabs' : forall t0, t0 ∈ t' :: p ->
            _size t0 = Z.of_nat (length (occupied_slots t0)) /\
            forall x, key_at t0 x <> 0 -> 0 <= x < _capacity t0).
  { intros t0 Hin. apply elem_of_cons in Hin as [-> | Hin]; [done|].
    apply Htabs. by right. }
  unfold sizes_ok. rewrite claim_result_chain. fold t'.
  destruct (grows env t) eqn:Hg; cbn [app].
  - split; [|split].
    + apply (chain_ok_grown t' p Hok'). change (_capacity t') with (_capacity t).
      destruct (pow2_capacity_below _ Hpow) as [Hbig | Hsmall]; [|done].
      exfalso. unfold grows in Hg. apply andb_true_iff in Hg as [Hg _].
      apply Z.eqb_eq in Hg. rewrite Hu32, Hbig in Hg.
      change (u32 (2 ^ 31 * 3) / 4) with (2 ^ 29) in Hg. lia.
    + intros t0 Hin. apply elem_of_cons in Hin as [-> | Hin]; [|by apply Htabs'].
      rewrite occupied_slots_empty. split; [done|].
      intros x Hx. by rewrite key_at_empty in Hx.
    + eexists _, _. split; [done|]. simpl. lia.
  - split; [done|]. split; [done|]. exists t', p. split; [done|].
    unfold t'. cbn [claimed_table _size]. rewrite Hu32. lia.
Qed.

Lemma in_claim_result env st t p n fr hash s trace x :
  x ∈ claimed_table t s hash (snd (publish env (_allocator st) n fr trace)) :: p ->
  x ∈ _current_table (claim_result env st t p n fr hash s trace).
Proof.
  intros Hin. rewrite claim_result_chain. apply elem_of_app. by right.
Qed.

Lemma occupied_claim_result env st t p n fr hash s trace id :
  key_at t s = 0 -> hash <> 0 -> 0 <= s < _capacity t ->
  occupied (_current_table (claim_result env st t p n fr hash s trace)) id <->
  id = slot_id (_capacity t) s \/ occupied (t :: p) id.
Proof.
  intros Hkey Hhash Hs. rewrite claim_result_chain.
  destruct (grows env t); cbn [app]; rewrite ?occupied_new_table;
    by apply occupied_claimed.
Qed.

Lemma ids_ok_new : ids_ok CallTraceStorage_new [].
Proof.
  split.
  - intros id (t & s & Hin & _ & Hkey & _).
    apply list_elem_of_singleton in Hin as ->. by rewrite key_at_empty in Hkey.
  - intros ev Hin. by apply elem_of_nil in Hin.
Qed.

Lemma ids_ok_put env st n fr st' id log :
  chain_ok (_current_table st) -> ids_ok st log ->
  put env st n fr = Some (st', id) ->
  ids_ok st' ((env, (n, fr), id) :: log).
Proof.
  intros Hok [Hocc Hlog] Hput.
  destruct (put_outcome env st n fr st' id Hput)
    as (t & p & o & Hct & Ho & Hres).
  rewrite Hct in Hok, Hocc, Hlog.
  destruct (chain_ok_pow2 _ t Hok ltac:(by left)) as [Hpow _].
  pose proof (chain_ok_capacity_range _ t Hok ltac:(by left)) as Hcap.
  assert (Hold : forall id', occupied (t :: p) id' ->
            exists ev, ev ∈ (env, (n, fr), id) :: log /\ stored ev /\ snd ev = id').
  { intros id' Hid'. destruct (Hocc id' Hid') as (ev & Hin & Hev).
    exists ev. split; [by right | done]. }
  destruct o as [s | s |].
  - destruct Hres as [-> ->]. unfold ids_ok. rewrite Hct.
    pose proof (probe_slot_in_range t _ _ s Hpow Ho eq_refl) as Hs.
    pose proof (probe_keys t _ _ Ho) as Hkey. simpl in Hkey.
    split; [done|]. intros ev Hin Hst.
    apply elem_of_cons in Hin as [-> | Hin]; [|by apply Hlog].
    exists t, s. split; [by left | done].
  - destruct Hres as (trace & _ & -> & ->).
    pose proof (probe_slot_in_range t _ _ s Hpow Ho eq_refl) as Hs.
    destruct (probe_keys t _ _ Ho) as [Hkey Hhash].
    set (v := snd (publish env (_allocator st) n fr trace)).
    split.
    + intros id'. rewrite occupied_claim_result by done.
      intros [-> | Hid']; [|by apply Hold].
      exists (env, (n, fr), slot_id (_capacity t) s). split; [by left|].
      split; [|done]. split; [done|]. by apply slot_id_nonzero.
    + intros ev Hin Hst. apply elem_of_cons in Hin as [-> | Hin].
      * exists (claimed_table t s (calcHash n fr) v), s.
        split; [apply in_claim_result; by left|]. split; [done|].
        split; [done|]. rewrite key_at_claimed. by rewrite decide_True.
      * destruct (Hlog ev Hin Hst) as (t0 & s0 & Hin0 & Hs0 & Hid0 & Hk0).
        apply elem_of_cons in Hin0 as [-> | Hin0].
        -- exists (claimed_table t s (calcHash n fr) v), s0.
           split; [apply in_claim_result; by left|]. split; [done|].
           split; [done|]. rewrite key_at_claimed.
           rewrite decide_False; [done|]. intros ->.
           destruct Hst as [Hnz _]. congruence.
        -- exists t0, s0. split; [apply in_claim_result; by right | done].
  - destruct Hres as [-> ->]. unfold ids_ok. rewrite Hct. split; [done|].
    intros ev Hin Hst. apply elem_of_cons in Hin as [-> | Hin]; [|by apply Hlog].
    by destruct Hst as [_ Hnz].
Qed.

(** What a claim publishes: the arena keeps what it had, and a value that
    is not null addresses a trace with the hash of the call. *)
Lemma publish_ok env st t p n fr trace :
  layout_ok -> 0 <= n -> n * sizeof_ASGCT_CallFrame < 2 ^ 31 ->
  chain_ok (t :: p) -> values_ok st -> _current_table st = t :: p ->
  inherited p (calcHash n fr) = Some trace ->
  let a' := fst (publish env (_allocator st) n fr trace) in
  let v := snd (publish env (_allocator st) n fr trace) in
  arena_ok a' /\
  (forall ptr x, deref (_allocator st) ptr = Some x -> deref a' ptr = Some x) /\
  (v <> NULL ->
   exists c, deref a' v = Some c /\
             calcHash (num_frames c) (frames c) = calcHash n fr).
Proof.
  intros Hlayout Hn Hlen Hok [Harena Hvals] Hct Hinh a' v.
  unfold a', v, publish.
  destruct (Z.eqb_spec trace NULL) as [-> | Hne].
  - destruct (alloc_ok env); [|done].
    destruct (storeCallTrace true (_allocator st) n fr) as [a1 buf] eqn:Hstore.
    destruct (storeCallTrace_ok _ _ _ _ _ Harena Hstore)
      as (_ & Hfresh & Hnew & Hothers & Harena').
    cbn [fst snd]. split; [done|]. split.
    + intros ptr x Hx. rewrite Hothers; [done|]. intros ->. congruence.
    + intros _. eexists. split; [exact Hnew|]. cbn [num_frames frames].
      by apply calcHash_take.
  - cbn [fst snd]. split; [done|]. split; [done|]. intros _.
    destruct p as [|pt p']; [by injection Hinh as <-|].
    cbn [inherited] in Hinh.
    destruct (chain_ok_pow2 _ pt Hok ltac:(right; by left)) as [Hpow _].
    destruct (findCallTrace_sound_aux pt (calcHash n fr) Hpow)
      as (v0 & Hfind & Hval).
    rewrite Hinh in Hfind. injection Hfind as <-.
    destruct (Hval Hne) as (s' & _ & Hkey & Hv).
    destruct (Hvals pt s') as (_ & c & Hc & Hhash).
    { rewrite Hct. right. by left. }
    { by rewrite Hv. }
    exists c. rewrite <- Hv, <- Hkey. done.
Qed.

Lemma value_at_empty c sz s : value_at (mkTable c sz ∅ ∅) s = NULL.
Proof. unfold value_at. simpl. by rewrite lookup_empty. Qed.

Lemma values_ok_new : values_ok CallTraceStorage_new.
Proof.
  split; [apply arena_ok_new|]. intros t s Hin Hv.
  apply list_elem_of_singleton in Hin as ->. by rewrite value_at_empty in Hv.
Qed.

Lemma values_ok_put env st n fr st' id :
  layout_ok -> 0 <= n -> n * sizeof_ASGCT_CallFrame < 2 ^ 31 ->
  chain_ok (_current_table st) -> values_ok st ->
  put env st n fr = Some (st', id) ->
  values_ok st'.
Proof.
  intros Hlayout Hn Hlen Hok Hvalues Hput.
  destruct (put_outcome env st n fr st' id Hput)
    as (t & p & o & Hct & Ho & Hres).
  destruct o as [s | s |];
    [by destruct Hres as [-> _] | | by destruct Hres as [-> _]].
  destruct Hres as (trace & Hinh & -> & _).
  rewrite Hct in Hok.
  destruct (probe_keys t _ _ Ho) as [Hkey Hhash].
  destruct (publish_ok env st t p n fr trace Hlayout Hn Hlen Hok Hvalues Hct Hinh)
    as (Harena' & Hmono & Hv).
  destruct Hvalues as [_ Hvals]. rewrite Hct in Hvals.
  set (a' := fst (publish env (_allocator st) n fr trace)) in *.
  set (v := snd (publish env (_allocator st) n fr trace)) in *.
  assert (Hkeep : forall t0 x, t0 ∈ t :: p -> value_at t0 x <> NULL ->
            key_at t0 x <> 0 /\
            exists c, deref a' (value_at t0 x) = Some c /\
                      calcHash (num_frames c) (frames c) = key_at t0 x).
  { intros t0 x Hin Hx. destruct (Hvals t0 x Hin Hx) as (Hk & c & Hc & Hh).
    split; [done|]. exists c. split; [by apply Hmono | done]. }
  split; [done|]. intros t0 x Hin. rewrite claim_result_chain in Hin.
  fold v in Hin. cbn [claim_result _allocator]. fold a'.
  assert (Hcases : t0 = mkTable (u32 (_capacity t * 2)) 0 ∅ ∅ \/
                   t0 = claimed_table t s (calcHash n fr) v \/ t0 ∈ p).
  { destruct (grows env t); cbn [app] in Hin;
      repeat (apply elem_of_cons in Hin as [-> | Hin]); auto. }
  destruct Hcases as [-> | [-> | Hin0]].
  - intros Hx. by rewrite value_at_empty in Hx.
  - rewrite value_at_claimed, key_at_claimed.
    case_decide as Hx.
    + intros Hnn. split; [done|]. by apply Hv.
    + apply Hkeep. by left.
  - apply Hkeep. by right.
Qed.

Lemma values_nonnull_new : values_nonnull CallTraceStorage_new.
Proof.
  intros t s Hin Hkey. apply list_elem_of_singleton in Hin as ->.
  by rewrite key_at_empty in Hkey.
Qed.

Lemma values_nonnull_put env st n fr st' id :
  alloc_ok env = true -> arena_ok (_allocator st) -> values_nonnull st ->
  put env st n fr = Some (st', id) ->
  values_nonnull st'.
Proof.
  intros Halloc Harena Hnn Hput.
  destruct (put_outcome env st n fr st' id Hput)
    as (t & p & o & Hct & Ho & Hres).
  destruct o as [s | s |];
    [by destruct Hres as [-> _] | | by destruct Hres as [-> _]].
  destruct Hres as (trace & Hinh & -> & _).
  unfold values_nonnull in Hnn. rewrite Hct in Hnn.
  set (v := snd (publish env (_allocator st) n fr trace)).
  assert (Hv : v <> NULL).
  { unfold v, publish. destruct (Z.eqb_spec trace NULL) as [-> | Hne]; [|done].
    rewrite Halloc.
    destruct (storeCallTrace true (_allocator st) n fr) as [a1 buf] eqn:Hstore.
    by destruct (storeCallTrace_ok _ _ _ _ _ Harena Hstore) as (Hbuf & _). }
  intros t0 x Hin. rewrite claim_result_chain in Hin. fold v in Hin.
  assert (Hcases : t0 = mkTable (u32 (_capacity t * 2)) 0 ∅ ∅ \/
                   t0 = claimed_table t s (calcHash n fr) v \/ t0 ∈ p).
  { destruct (grows env t); cbn [app] in Hin;
      repeat (apply elem_of_cons in Hin as [-> | Hin]); auto. }
  destruct Hcases as [-> | [-> | Hin0]].
  - intros Hx. by rewrite key_at_empty in Hx.
  - rewrite value_at_claimed, key_at_claimed.
    case_decide as Hx; [done|]. apply Hnn. by left.
  - apply Hnn. by right.
Qed.

Lemma arena_ok_put env st n fr st' id :
  arena_ok (_allocator st) -> put env st n fr = Some (st', id) ->
  arena_ok (_allocator st').
Proof.
  intros Harena Hput.
  destruct (put_outcome env st n fr st' id Hput)
    as (t & p & o & Hct & Ho & Hres).
  destruct o as [s | s |];
    [by destruct Hres as [-> _] | | by destruct Hres as [-> _]].
  destruct Hres as (trace & Hinh & -> & _).
  cbn [claim_result _allocator]. unfold publish.
  destruct (trace =? NULL); [|done]. destruct (alloc_ok env); [|done].
  destruct (storeCallTrace true (_allocator st) n fr) as [a1 buf] eqn:Hstore.
  by destruct (storeCallTrace_ok _ _ _ _ _ Harena Hstore) as (_ & _ & _ & _ & H).
Qed.

Lemma has_room_new : has_room CallTraceStorage_new.
Proof. eexists _, _. split; [done|]. by vm_compute. Qed.

Lemma has_room_put env st n fr st' id calls :
  safeAlloc_ok env = true ->
  sizes_ok st calls -> Z.of_nat calls + 1 < 2 ^ 29 -> has_room st ->
  put env st n fr = Some (st', id) ->
  has_room st' /\ id <> 0.
Proof.
  intros Hsafe (Hok & Htabs & (t & p & Hct & Hsize)) Hcalls Hroom Hput.
  destruct Hroom as (t1 & p1 & Hct1 & Hlt).
  rewrite Hct in Hct1. injection Hct1 as <- <-.
  destruct (put_outcome env st n fr st' id Hput)
    as (t0 & p0 & o & Hct0 & Ho & Hres).
  rewrite Hct in Hct0. injection Hct0 as <- <-.
  rewrite Hct in Hok, Htabs.
  destruct (chain_ok_pow2 _ t Hok ltac:(by left)) as [Hpow _].
  pose proof (chain_ok_capacity_range _ t Hok ltac:(by left)) as Hcap.
  destruct (Htabs t ltac:(by left)) as [Hsz _].
  unfold INITIAL_CAPACITY in Hcap.
  destruct o as [s | s |].
  - destruct Hres as [-> ->]. split; [by exists t, p|].
    apply slot_id_nonzero; [done|].
    apply (probe_slot_in_range t _ _ s Hpow Ho eq_refl).
  - destruct Hres as (trace & _ & -> & ->).
    pose proof (probe_slot_in_range t _ _ s Hpow Ho eq_refl) as Hs.
    split; [|by apply slot_id_nonzero].
    assert (Hdiv : _capacity t * 3 / 4 <= _capacity t).
    { apply Z.div_le_upper_bound; lia. }
    assert (Hu32 : u32 (_size t + 1) = _size t + 1) by (apply u32_small; lia).
    unfold has_room. rewrite claim_result_chain. unfold grows.
    rewrite Hsafe, andb_true_r, Hu32.
    destruct (pow2_capacity_below _ Hpow) as [Hbig | Hsmall].
    + rewrite Hbig in *. change (u32 (2 ^ 31 * 3) / 4) with (2 ^ 29).
      destruct (Z.eqb_spec (_size t + 1) (2 ^ 29)) as [|_]; [lia|].
      cbn [app]. eexists _, _. split; [done|].
      cbn [claimed_table _size _capacity]. rewrite Hu32, Hbig.
      change (2 ^ 31 * 3 / 4) with (3 * 2 ^ 29). lia.
    + rewrite (u32_small (_capacity t * 3)) by lia.
      destruct (Z.eqb_spec (_size t + 1) (_capacity t * 3 / 4)) as [Heq | Hne];
        cbn [app]; eexists _, _; (split; [done|]);
        cbn [claimed_table _size _capacity].
      * rewrite u32_small by lia.
        assert (0 < _capacity t * 2 * 3 / 4); [|lia].
        apply Z.div_str_pos. lia.
      * rewrite Hu32. lia.
  - exfalso. pose proof (probe_Full_occupied t _ Hpow Ho) as Hfull.
    assert (_capacity t * 3 / 4 <= _capacity t); [|lia].
    apply Z.div_le_upper_bound; lia.
Qed.

Lemma load_ok_new : load_ok CallTraceStorage_new.
Proof.
  intros t Hin. apply list_elem_of_singleton in Hin as ->. by vm_compute.
Qed.

Lemma load_ok_put env st n fr st' id calls :
  sizes_ok st calls -> has_room st -> load_ok st ->
  put env st n fr = Some (st', id) ->
  load_ok st'.
Proof.
  intros (Hok & Htabs & _) (t & p & Hct & Hlt) Hload Hput.
  destruct (put_outcome env st n fr st' id Hput)
    as (t0 & p0 & o & Hct0 & Ho & Hres).
  rewrite Hct in Hct0. injection Hct0 as <- <-.
  destruct o as [s | s |];
    [by destruct Hres as [-> _] | | by destruct Hres as [-> _]].
  destruct Hres as (trace & _ & -> & _).
  unfold load_ok in Hload. rewrite Hct in Hok, Htabs, Hload.
  pose proof (chain_ok_capacity_range _ t Hok ltac:(by left)) as Hcap.
  unfold INITIAL_CAPACITY in Hcap.
  destruct (Htabs t ltac:(by left)) as [Hsz _].
  assert (Hdiv : _capacity t * 3 / 4 <= _capacity t).
  { apply Z.div_le_upper_bound; lia. }
  intros t0 Hin. rewrite claim_result_chain in Hin.
  set (v := snd (publish env (_allocator st) n fr trace)) in Hin.
  assert (Hcases : t0 = mkTable (u32 (_capacity t * 2)) 0 ∅ ∅ \/
                   t0 = claimed_table t s (calcHash n fr) v \/ t0 ∈ p).
  { destruct (grows env t); cbn [app] in Hin;
      repeat (apply elem_of_cons in Hin as [-> | Hin]); auto. }
  destruct Hcases as [-> | [-> | Hin0]].
  - cbn [_size _capacity]. apply Z.div_pos; [|lia].
    pose proof (u32_range (_capacity t * 2)). lia.
  - cbn [claimed_table _size _capacity]. rewrite u32_small by lia. lia.
  - apply Hload. by right.
Qed.

(** An invariant of the calls is an invariant of the execution. *)
Lemma run_puts_invariant (P : CallTraceStorage -> list Event -> Prop)
    (ok : Op -> Prop) :
  (forall st log env n fr st' id,
     P st log -> ok (env, (n, fr)) -> Z.of_nat (length log) + 1 < 2 ^ 29 ->
     put env st n fr = Some (st', id) ->
     P st' ((env, (n, fr), id) :: log)) ->
  forall ops st log st' ids,
    P st log -> Forall ok ops ->
    Z.of_nat (length log) + Z.of_nat (length ops) < 2 ^ 29 ->
    run_puts st ops = Some (st', ids) ->
    P st' (reverse (events ops ids) ++ log).
Proof.
  intros Hstep ops.
  induction ops as [|[env [n fr]] ops IH]; intros st log st' ids HP Hok Hlen Hrun;
    simpl in Hrun.
  { by injection Hrun as <- <-. }
  destruct (put env st n fr) as [[st1 id]|] eqn:Hput; [|done].
  destruct (run_puts st1 ops) as [[st2 ids']|] eqn:Hrun'; [|done].
  injection Hrun as <- <-.
  apply Forall_cons in Hok as [Hop Hok]. cbn [length] in Hlen.
  unfold events. cbn [zip zip_with]. rewrite reverse_cons, <- app_assoc.
  apply (IH st1); [|done| |done].
  - apply (Hstep st log); [done | done | lia | done].
  - cbn [app length]. lia.
Qed.

Lemma run_puts_total ops st calls :
  sizes_ok st calls ->
  Z.of_nat calls + Z.of_nat (length ops) < 2 ^ 29 ->
  is_Some (run_puts st ops).
Proof.
  revert st calls.
  induction ops as [|[env [n fr]] ops IH]; intros st calls Hsizes Hlen;
    [by eexists|].
  cbn [length] in Hlen. simpl.
  destruct (chain_ok_put_total env st n fr (proj1 Hsizes)) as [[st1 id] Hput].
  rewrite Hput.
  destruct (IH st1 (S calls)) as [[st2 ids] ->]; [|lia|by eexists].
  apply (sizes_ok_put env st n fr st1 id); [done | lia | done].
Qed.

(** X9: fewer than [2^29] calls of [put] on a new storage, with frames that
    fit an [int] count of bytes and whatever allocation fails, all return;
    the chain keeps its shape, and the size of every table is the number of
    its slots that hold a key. *)
Theorem puts_keep_sizes (ops : list Op) :
  Forall op_ok ops ->
  Z.of_nat (length ops) < 2 ^ 29 ->
  exists st ids,
    run_puts CallTraceStorage_new ops = Some (st, ids) /\
    length ids = length ops /\
    chain_ok (_current_table st) /\
    forall t, t ∈ _current_table st ->
      _size t = Z.of_nat (length (occupied_slots t)) /\
      0 <= _size t <= _capacity t.
Proof.
  intros _ Hlen.
  destruct (run_puts_total ops CallTraceStorage_new 0 sizes_ok_new)
    as [[st ids] Hrun]; [lia|].
  exists st, ids. split; [done|].
  split; [by apply (run_puts_length CallTraceStorage_new ops st)|].
  pose proof (run_puts_invariant
                (fun st log => sizes_ok st (length log)) (fun _ => True)) as Hinv.
  destruct (Hinv) with (ops := ops) (st := CallTraceStorage_new)
                       (log := @nil Event) (st' := st) (ids := ids)
    as (Hok & Htabs & _).
  { intros st0 log env n fr st1 id1 Hs _ Hl Hput.
    by apply (sizes_ok_put env st0 n fr st1 id1). }
  { apply sizes_ok_new. }
  { by apply Forall_true. }
  { simpl. lia. }
  { done. }
  split; [done|]. intros t Hin. destruct (Htabs t Hin) as [Hsz _].
  split; [done|]. rewrite Hsz. split; [lia|].
  apply occupied_slots_length.
  pose proof (chain_ok_capacity_range _ t Hok Hin) as Hr.
  unfold INITIAL_CAPACITY in Hr. lia.
Qed.

(** X10: after fewer than [2^29] calls of [put] on a new storage the keys
    of the output map of [collect] are the IDs returned by the calls whose
    hash is not 0 and that did not give up. *)
Theorem collect_emits_stored_ids (ops : list Op) st ids :
  run_puts CallTraceStorage_new ops = Some (st, ids) ->
  Z.of_nat (length ops) < 2 ^ 29 ->
  forall id,
    is_Some (collect st ∅ !! id) <->
    exists ev, ev ∈ events ops ids /\ stored ev /\ snd ev = id.
Proof.
  intros Hrun Hlen id.
  pose proof (run_puts_invariant
                (fun st log => sizes_ok st (length log) /\ ids_ok st log)
                (fun _ => True)) as Hinv.
  destruct (Hinv) with (ops := ops) (st := CallTraceStorage_new)
                       (log := @nil Event) (st' := st) (ids := ids)
    as ((Hok & _) & Hocc & Hlog).
  { intros st0 log env n fr st1 id1 [Hs Hi] _ Hl Hput. split.
    - by apply (sizes_ok_put env st0 n fr st1 id1).
    - apply (ids_ok_put env st0 n fr st1 id1); [apply Hs | done | done]. }
  { split; [apply sizes_ok_new | apply ids_ok_new]. }
  { by apply Forall_true. }
  { simpl. lia. }
  { done. }
  rewrite app_nil_r in Hocc, Hlog.
  unfold collect. rewrite collect_tables_lookup by done.
  rewrite lookup_empty. split.
  - intros [Hid | [x Hx]]; [|done].
    destruct (Hocc id Hid) as (ev & Hin & Hev).
    exists ev. split; [by rewrite elem_of_reverse in Hin | done].
  - intros (ev & Hin & Hst & <-). left.
    destruct (Hlog ev) as (t & s & Hint & Hs & Hid & Hkey);
      [by rewrite elem_of_reverse | done |].
    exists t, s. split; [done|]. split; [done|]. split; [|done].
    rewrite Hkey. apply Hst.
Qed.

(** X11: after fewer than [2^29] calls of [put] on a new storage, under the
    ID returned by a call whose hash is not 0 and that did not give up
    [collect] emits null or the address of a stored trace with the hash of
    the call; it is never null when no arena allocation failed. *)
Theorem collect_returns_traces (ops : list Op) st ids :
  layout_ok -> Forall op_ok ops ->
  run_puts CallTraceStorage_new ops = Some (st, ids) ->
  Z.of_nat (length ops) < 2 ^ 29 ->
  forall ev, ev ∈ events ops ids -> stored ev ->
    exists v,
      collect st ∅ !! snd ev = Some v /\
      (v = NULL \/
       exists c, deref (_allocator st) v = Some c /\
                 calcHash (num_frames c) (frames c) = op_hash (fst ev)) /\
      ((forall op, op ∈ ops -> alloc_ok (fst op) = true) -> v <> NULL).
Proof.
  intros Hlayout Hops Hrun Hlen ev Hev Hst.
  pose proof (run_puts_invariant
                (fun st log =>
                   sizes_ok st (length log) /\ ids_ok st log /\ values_ok st /\
                   ((forall ev, ev ∈ log -> alloc_ok (fst (fst ev)) = true) ->
                    values_nonnull st))
                op_ok) as Hinv.
  destruct (Hinv) with (ops := ops) (st := CallTraceStorage_new)
                       (log := @nil Event) (st' := st) (ids := ids)
    as ((Hok & _) & (_ & Hlog) & (_ & Hvals) & Hnn).
  { intros st0 log env n fr st1 id1 (Hs & Hi & Hv & Hn) [Hn0 Hn1] Hl Hput.
    split; [by apply (sizes_ok_put env st0 n fr st1 id1)|].
    split; [apply (ids_ok_put env st0 n fr st1 id1); [apply Hs | done | done]|].
    split; [apply (values_ok_put env st0 n fr st1 id1); try done; apply Hs|].
    intros Hall. apply (values_nonnull_put env st0 n fr st1 id1); try done.
    - apply (Hall (env, (n, fr), id1)). by left.
    - apply Hv.
    - apply Hn. intros ev' Hin'. apply Hall. by right. }
  { split; [apply sizes_ok_new|]. split; [apply ids_ok_new|].
    split; [apply values_ok_new|]. intros _. apply values_nonnull_new. }
  { done. }
  { simpl. lia. }
  { done. }
  rewrite app_nil_r in Hlog, Hnn.
  destruct (Hlog ev) as (t & s & Hin & Hs & Hid & Hkey);
    [by apply elem_of_reverse | done |].
  assert (Hnz : key_at t s <> 0) by (rewrite Hkey; apply Hst).
  exists (value_at t s). split; [|split].
  - rewrite <- Hid. unfold collect. by apply collect_tables_hit.
  - destruct (decide (value_at t s = NULL)) as [|Hne]; [by left|]. right.
    destruct (Hvals t s Hin Hne) as (_ & c & Hc & Hh).
    exists c. split; [done|]. by rewrite Hh.
  - intros Hall. apply Hnn; [|done|done].
    intros ev' Hin'. rewrite elem_of_reverse in Hin'. apply Hall.
    destruct ev' as [op' id']. by apply elem_of_zip_l in Hin'.
Qed.

(** X12: when no table allocation fails, none of fewer than [2^29] calls
    of [put] on a new storage gives up: every ID returned is other than 0,
    the current table ends below its threshold, and no table of the chain
    is loaded above three quarters of its capacity. *)
Theorem puts_never_give_up (ops : list Op) st ids :
  (forall op, op ∈ ops -> safeAlloc_ok (fst op) = true) ->
  run_puts CallTraceStorage_new ops = Some (st, ids) ->
  Z.of_nat (length ops) < 2 ^ 29 ->
  (forall id, id ∈ ids -> id <> 0) /\ has_room st /\ load_ok st.
Proof.
  intros Hsafe Hrun Hlen.
  pose proof (run_puts_invariant
                (fun st log =>
                   sizes_ok st (length log) /\ has_room st /\ load_ok st /\
                   forall id, id ∈ log.*2 -> id <> 0)
                (fun op => safeAlloc_ok (fst op) = true)) as Hinv.
  destruct (Hinv) with (ops := ops) (st := CallTraceStorage_new)
                       (log := @nil Event) (st' := st) (ids := ids)
    as (_ & Hroom & Hload & Hids).
  { intros st0 log env n fr st1 id1 (Hs & Hr & Hld & Hi) Hok Hl Hput.
    destruct (has_room_put env st0 n fr st1 id1 (length log) Hok Hs Hl Hr Hput)
      as [Hr1 Hid1].
    split; [by apply (sizes_ok_put env st0 n fr st1 id1)|].
    split; [done|].
    split; [by apply (load_ok_put env st0 n fr st1 id1 (length log))|].
    intros id Hin. cbn [fmap list_fmap snd] in Hin.
    apply elem_of_cons in Hin as [-> | Hin]; [done | by apply Hi]. }
  { split; [apply sizes_ok_new|]. split; [apply has_room_new|].
    split; [apply load_ok_new|].
    intros id Hin. by apply elem_of_nil in Hin. }
  { by apply Forall_forall. }
  { simpl. lia. }
  { done. }
  split; [|done]. intros id Hin. apply Hids.
  rewrite app_nil_r, fmap_reverse, elem_of_reverse. unfold events.
  rewrite snd_zip; [done|].
  rewrite (run_puts_length CallTraceStorage_new ops st ids Hrun). lia.
Qed.

(** X13: in an execution of fewer than [2^29] calls on a new storage an ID
    stands for one hash: two calls that stored and returned the same ID
    have the same hash. *)
Theorem ids_identify_hashes (ops : list Op) st ids :
  run_puts CallTraceStorage_new ops = Some (st, ids) ->
  Z.of_nat (length ops) < 2 ^ 29 ->
  forall ev1 ev2,
    ev1 ∈ events ops ids -> ev2 ∈ events ops ids ->
    stored ev1 -> stored ev2 -> snd ev1 = snd ev2 ->
    op_hash (fst ev1) = op_hash (fst ev2).
Proof.
  intros Hrun Hlen ev1 ev2 Hin1 Hin2 Hst1 Hst2 Hid.
  pose proof (run_puts_invariant
                (fun st log => sizes_ok st (length log) /\ ids_ok st log)
                (fun _ => True)) as Hinv.
  destruct (Hinv) with (ops := ops) (st := CallTraceStorage_new)
                       (log := @nil Event) (st' := st) (ids := ids)
    as ((Hok & _) & _ & Hlog).
  { intros st0 log env n fr st1 id1 [Hs Hi] _ Hl Hput. split.
    - by apply (sizes_ok_put env st0 n fr st1 id1).
    - apply (ids_ok_put env st0 n fr st1 id1); [apply Hs | done | done]. }
  { split; [apply sizes_ok_new | apply ids_ok_new]. }
  { by apply Forall_true. }
  { simpl. lia. }
  { done. }
  rewrite app_nil_r in Hlog.
  destruct (Hlog ev1) as (t1 & s1 & Ht1 & Hs1 & Hid1 & Hkey1);
    [by rewrite elem_of_reverse | done |].
  destruct (Hlog ev2) as (t2 & s2 & Ht2 & Hs2 & Hid2 & Hkey2);
    [by rewrite elem_of_reverse | done |].
  destruct (slot_id_chain_inj _ t1 s1 t2 s2 Hok Ht1 Ht2 Hs1 Hs2) as [-> ->];
    congruence.
Qed.

(** ** Traces with the same hash *)

(** X14: [put] knows a trace by its hash alone: once a trace has been put
    without a new table being installed, the [put] of any trace with the
    same hash returns the same ID and leaves the storage as it is. *)
Theorem put_merges_collisions env1 env2 st n1 fr1 n2 fr2 st1 id1 :
  calcHash n1 fr1 = calcHash n2 fr2 ->
  put env1 st n1 fr1 = Some (st1, id1) ->
  length (_current_table st1) = length (_current_table st) ->
  put env2 st1 n2 fr2 = Some (st1, id1).
Proof.
  intros Hhash Hput Hlen.
  destruct (put_outcome env1 st n1 fr1 st1 id1 Hput)
    as (t & p & o & Hct & Ho & Hres).
  destruct o as [s | s |].
  - destruct Hres as [-> ->].
    apply (put_Found env2 st n2 fr2 t p s Hct). by rewrite <- Hhash.
  - destruct Hres as (trace & _ & -> & ->).
    rewrite claim_result_chain in Hlen. rewrite Hct in Hlen.
    set (t' := claimed_table t s (calcHash n1 fr1)
                 (snd (publish env1 (_allocator st) n1 fr1 trace))).
    assert (Hct' : _current_table
                     (claim_result env1 st t p n1 fr1 (calcHash n1 fr1) s trace) =
                   t' :: p).
    { rewrite claim_result_chain.
      destruct (grows env1 t); [simpl in Hlen; lia | done]. }
    change (_capacity t) with (_capacity t').
    apply (put_Found env2 _ n2 fr2 t' p s Hct').
    rewrite <- Hhash. by apply probe_claimed.
  - destruct Hres as [-> ->].
    apply (put_Full env2 st n2 fr2 t p Hct). by rewrite <- Hhash.
Qed.

(** ** The number of entries *)

Lemma collect_slots_size n t s0 (m : gmap Z Z) :
  INITIAL_CAPACITY <= _capacity t <= 2 ^ 31 ->
  0 <= s0 -> s0 + Z.of_nat n <= _capacity t ->
  (forall s, s0 <= s < s0 + Z.of_nat n ->
             m !! slot_id (_capacity t) s = None) ->
  size (collect_slots n t s0 m) =
  (size m +
   length (filter (fun s => key_at t s <> 0%Z) (seqZ s0 (Z.of_nat n))))%nat.
Proof.
  intros Hc. revert s0 m.
  induction n as [|n IH]; intros s0 m Hs0 Hn Hfree; [simpl; lia|].
  rewrite seqZ_cons by lia.
  replace (Z.pred (Z.of_nat (S n))) with (Z.of_nat n) by lia.
  change (Z.succ s0) with (s0 + 1). cbn [collect_slots].
  rewrite filter_cons.
  destruct (Z.eqb_spec (key_at t s0) 0) as [Hz | Hnz].
  - rewrite decide_False by (intros H; done).
    apply IH; [lia | lia |]. intros s Hs. apply Hfree. lia.
  - rewrite decide_True by done. rewrite IH; [| lia | lia |].
    + rewrite map_size_insert_None by (apply Hfree; lia). cbn [length]. lia.
    + intros s Hs. rewrite lookup_insert_ne; [apply Hfree; lia|].
      intros Heq. apply slot_id_inj in Heq; lia.
Qed.

Lemma collect_tables_size chain :
  chain = [] \/ chain_ok chain ->
  Z.of_nat (size (collect_tables chain ∅)) =
  foldr (fun t acc => Z.of_nat (length (occupied_slots t)) + acc) 0 chain.
Proof.
  induction chain as [|t p IH]; intros Hok; [done|].
  destruct Hok as [|Hok]; [done|].
  pose proof (chain_ok_capacity_range _ t Hok ltac:(by left)) as Hcap.
  cbn [collect_tables foldr]. rewrite collect_tables_union.
  rewrite map_size_disj_union.
  - rewrite Nat2Z.inj_add, IH.
    2: { destruct p as [|pt p']; [by left | right].
         apply (chain_ok_tail t); done. }
    rewrite collect_slots_size; [| done | lia | | ].
    + rewrite map_size_empty, Z2Nat.id by (unfold INITIAL_CAPACITY in Hcap; lia).
      unfold occupied_slots. simpl. lia.
    + unfold INITIAL_CAPACITY in Hcap. lia.
    + intros s _. apply lookup_empty.
  - apply map_disjoint_spec. intros id x y Hx Hy.
    destruct (collect_tables_inv p ∅ id ltac:(by eexists))
      as [(t' & s' & Hin' & Hs' & _ & Hid') | [z Hz]];
      [|by rewrite lookup_empty in Hz].
    destruct (collect_slots_inv _ t 0 ∅ id ltac:(by eexists))
      as [(s & Hs & _ & Hid) | [z Hz]]; [|by rewrite lookup_empty in Hz].
    assert (Hrange : 0 <= s < _capacity t).
    { unfold INITIAL_CAPACITY in Hcap. lia. }
    pose proof (slot_id_older t p t' s s' Hok Hin' Hrange Hs'). lia.
Qed.

(** X15: after fewer than [2^29] calls of [put] on a new storage [collect]
    emits as many entries as the sizes of the tables of the chain add up
    to. *)
Theorem collect_size_is_total (ops : list Op) st ids :
  run_puts CallTraceStorage_new ops = Some (st, ids) ->
  Z.of_nat (length ops) < 2 ^ 29 ->
  Z.of_nat (size (collect st ∅)) = total_size (_current_table st).
Proof.
  intros Hrun Hlen.
  pose proof (run_puts_invariant
                (fun st log => sizes_ok st (length log)) (fun _ => True)) as Hinv.
  destruct (Hinv) with (ops := ops) (st := CallTraceStorage_new)
                       (log := @nil Event) (st' := st) (ids := ids)
    as (Hok & Htabs & _).
  { intros st0 log env n fr st1 id1 Hs _ Hl Hput.
    by apply (sizes_ok_put env st0 n fr st1 id1). }
  { apply sizes_ok_new. }
  { by apply Forall_true. }
  { simpl. lia. }
  { done. }
  unfold collect. rewrite collect_tables_size by (by right).
  unfold total_size. clear Hok Hrun.
  induction (_current_table st) as [|t p IH]; [done|].
  cbn [foldr]. rewrite IH by (intros t0 Hin; apply Htabs; by right).
  destruct (Htabs t ltac:(by left)) as [-> _]. done.
Qed.

End Further.

(** ** The hash of LP64 frames *)

Lemma le_combine_app a b :
  le_combine (a ++ b) = le_combine a + 256 ^ Z.of_nat (length a) * le_combine b.
Proof.
  induction a as [|x a IH]; [simpl; lia|].
  cbn [app le_combine length]. rewrite IH, Nat2Z.inj_succ, Z.pow_succ_r by lia.
  lia.
Qed.

Lemma hash_loop_frame k (f : Z * Z) rest h :
  hash_loop (S (S k)) (frame_bytes f ++ rest) h =
  hash_loop k rest (frame_step h f).
Proof.
  destruct f as [b m]. cbn [hash_loop]. unfold read_u64.
  change (take 8 (@frame_bytes lp64_layout (b, m) ++ rest))
    with (le_split 4 b ++ le_split 4 0).
  change (take 8 (drop 8 (@frame_bytes lp64_layout (b, m) ++ rest))) with (le_split 8 m).
  change (drop 8 (drop 8 (@frame_bytes lp64_layout (b, m) ++ rest))) with rest.
  rewrite le_combine_app, !le_combine_split.
  change (0 mod 256 ^ Z.of_nat 4) with 0. rewrite Z.mul_0_r, Z.add_0_r.
  change (256 ^ Z.of_nat 4) with (2 ^ 32).
  change (256 ^ Z.of_nat 8) with (2 ^ 64).
  reflexivity.
Qed.

Lemma hash_loop_frames (fr : list (Z * Z)) rest h :
  hash_loop (2 * length fr) (flat_map frame_bytes fr ++ rest) h =
  (fold_left frame_step fr h, rest).
Proof.
  revert h. induction fr as [|f fr IH]; intros h; [done|].
  cbn [flat_map length fold_left]. rewrite <- app_assoc.
  replace (2 * S (length fr))%nat with (S (S (2 * length fr))) by lia.
  by rewrite hash_loop_frame, IH.
Qed.

Lemma calcHash_frames (fr : list (Z * Z)) :
  16 * Z.of_nat (length fr) < 2 ^ 31 ->
  calcHash (Z.of_nat (length fr)) fr =
  avalanche (fold_left frame_step fr (u64 (Z.of_nat (length fr) * 16 * M))).
Proof.
  intros Hlen. rewrite calcHash_eq. cbv zeta.
  change sizeof_ASGCT_CallFrame with 16.
  assert (Hint : int32 (Z.of_nat (length fr) * 16) = Z.of_nat (length fr) * 16).
  { unfold int32. rewrite Z.mod_small by lia. lia. }
  rewrite Hint.
  replace (Z.to_nat (Z.quot (Z.of_nat (length fr) * 16) 8))
    with (2 * length fr)%nat.
  2: { rewrite Z.quot_div_nonneg by lia.
       replace (Z.of_nat (length fr) * 16) with (2 * Z.of_nat (length fr) * 8)
         by lia.
       rewrite Z.div_mul by lia. lia. }
  rewrite <- (app_nil_r (flat_map (@frame_bytes lp64_layout) fr)), hash_loop_frames.
  cbn [fst snd]. unfold hash_finish.
  destruct (Z.eqb_spec (Z.land (Z.of_nat (length fr) * 16) 4) 0) as [|Hbit];
    [done|].
  apply land_4_mod_8 in Hbit.
  replace (Z.of_nat (length fr) * 16) with (2 * Z.of_nat (length fr) * 8)
    in Hbit by lia.
  rewrite Z.mod_mul in Hbit by lia. lia.
Qed.

Lemma hash_step_range h k : 0 <= hash_step h k < 2 ^ 64.
Proof. apply mulM_range. Qed.

Lemma mix_range k : 0 <= mix k < 2 ^ 64.
Proof. apply mulM_range. Qed.

Lemma hash_step_inj_h k h1 h2 :
  0 <= h1 < 2 ^ 64 -> 0 <= h2 < 2 ^ 64 ->
  hash_step h1 k = hash_step h2 k -> h1 = h2.
Proof.
  intros H1 H2 Heq. unfold hash_step in Heq.
  apply mulM_inj in Heq; try (apply lxor_range; [done | apply mix_range]).
  rewrite !(Z.lxor_comm _ (mix k)) in Heq. by apply lxor_inj_l in Heq.
Qed.

Lemma hash_step_inj_k h k1 k2 :
  0 <= h < 2 ^ 64 -> 0 <= k1 < 2 ^ 64 -> 0 <= k2 < 2 ^ 64 ->
  hash_step h k1 = hash_step h k2 -> k1 = k2.
Proof.
  intros Hh H1 H2 Heq. unfold hash_step in Heq.
  apply mulM_inj in Heq; try (apply lxor_range; [done | apply mix_range]).
  apply lxor_inj_l in Heq. by apply mix_inj.
Qed.

Lemma frame_step_range h f : 0 <= frame_step h f < 2 ^ 64.
Proof. apply hash_step_range. Qed.

Lemma fold_frame_step_range fr h :
  0 <= h < 2 ^ 64 -> 0 <= fold_left frame_step fr h < 2 ^ 64.
Proof.
  revert h. induction fr as [|f fr IH]; intros h Hh; [done|].
  apply IH, frame_step_range.
Qed.

Lemma fold_frame_step_inj fr h1 h2 :
  0 <= h1 < 2 ^ 64 -> 0 <= h2 < 2 ^ 64 ->
  fold_left frame_step fr h1 = fold_left frame_step fr h2 -> h1 = h2.
Proof.
  revert h1 h2. induction fr as [|f fr IH]; intros h1 h2 H1 H2 Heq; [done|].
  cbn [fold_left] in Heq. apply IH in Heq; try apply frame_step_range.
  unfold frame_step in Heq.
  apply hash_step_inj_h in Heq; try apply hash_step_range.
  by apply hash_step_inj_h in Heq.
Qed.

Lemma frame_step_differ h f g :
  0 <= h < 2 ^ 64 -> differ_in_one_field f g ->
  frame_step h f <> frame_step h g.
Proof.
  intros Hh Hdiff Heq. unfold frame_step in Heq.
  assert (Hb : forall x, 0 <= x mod 2 ^ 32 < 2 ^ 64).
  { intros x. pose proof (Z.mod_pos_bound x (2 ^ 32) ltac:(lia)). lia. }
  assert (Hm : forall x, 0 <= x mod 2 ^ 64 < 2 ^ 64).
  { intros x. apply Z.mod_pos_bound. lia. }
  destruct Hdiff as [[Hbci Hmid] | [Hbci Hmid]].
  - rewrite Hmid in Heq.
    apply hash_step_inj_h in Heq; try apply hash_step_range.
    by apply hash_step_inj_k in Heq.
  - rewrite Hbci in Heq.
    by apply hash_step_inj_k in Heq; try apply hash_step_range.
Qed.

(** X16: on the LP64 layout two traces of the same length that differ in one
    field of one frame, the [bci] or the [method_id], have different
    hashes. *)
Theorem calcHash_one_field (pre suf : list (Z * Z)) (f g : Z * Z) :
  16 * Z.of_nat (length (pre ++ f :: suf)) < 2 ^ 31 ->
  differ_in_one_field f g ->
  calcHash (Z.of_nat (length (pre ++ f :: suf))) (pre ++ f :: suf) <>
  calcHash (Z.of_nat (length (pre ++ g :: suf))) (pre ++ g :: suf).
Proof.
  intros Hlen Hdiff Heq.
  assert (Hlength : length (pre ++ g :: suf) = length (pre ++ f :: suf))
    by (rewrite !length_app; done).
  rewrite !calcHash_frames in Heq by (rewrite ?Hlength; done).
  rewrite Hlength in Heq.
  set (h0 := u64 (Z.of_nat (length (pre ++ f :: suf)) * 16 * M)) in Heq.
  assert (H0 : 0 <= h0 < 2 ^ 64) by apply u64_range.
  apply avalanche_inj in Heq; try by apply fold_frame_step_range.
  rewrite !fold_left_app in Heq. cbn [fold_left] in Heq.
  apply fold_frame_step_inj in Heq; try apply frame_step_range.
  revert Heq. apply frame_step_differ; [|done].
  by apply fold_frame_step_range.
Qed.

Lemma calcHash_one_field_witness :
  calcHash (layout := lp64_layout) 2 [(0, 7); (1, 8)] <>
  calcHash (layout := lp64_layout) 2 [(0, 7); (1, 9)].
Proof.
  apply (calcHash_one_field [(0, 7)] [] (1, 8) (1, 9)).
  - by vm_compute.
  - right. split; by vm_compute.
Defined.

(** ** Instances of the further properties *)

Lemma lp64_layout_ok : layout_ok (layout := lp64_layout).
Proof. split; [done|]. intros [b m]. reflexivity. Qed.

Lemma chain_ok_storage_1 : chain_ok (_current_table storage_1).
Proof. split; [by vm_compute | reflexivity]. Qed.

Lemma run_two_ops :
  run_puts CallTraceStorage_new two_ops = Some (storage_2, [57317; 35108]).
Proof. reflexivity. Qed.

Lemma getSize_whole_pages_witness :
  getSize 4096 65536 = 1052672 /\ (4096 | getSize 4096 65536).
Proof.
  split; [reflexivity|].
  destruct (getSize_whole_pages 12 65536) as [H _]; [lia | lia | exact H].
Defined.

Lemma put_empty_trace_witness :
  calcHash (layout := lp64_layout) 0 [] = 0 /\
  exists id,
    put always CallTraceStorage_new 0 [] = Some (CallTraceStorage_new, id) /\
    collect CallTraceStorage_new ∅ !! id = None.
Proof.
  apply (put_empty_trace (layout := lp64_layout) always CallTraceStorage_new []).
  split; [by vm_compute | reflexivity].
Defined.

Lemma findCallTrace_sound_witness :
  exists v,
    findCallTrace (mkTable 65536 1 {[slot_1 := hash_1]} {[slot_1 := 1]}) hash_1 =
    Some v.
Proof.
  destruct (findCallTrace_sound
              (mkTable 65536 1 {[slot_1 := hash_1]} {[slot_1 := 1]}) hash_1)
    as (v & Hv & _).
  - exists 16. split; [lia | reflexivity].
  - by exists v.
Defined.

Lemma put_then_find_witness :
  exists t' s,
    t' ∈ _current_table storage_1 /\ 57317 = slot_id (_capacity t') s /\
    findCallTrace t' (calcHash (layout := lp64_layout) 1 [(0, 1)]) =
    Some (value_at t' s).
Proof.
  destruct (put_then_find (layout := lp64_layout)
              always CallTraceStorage_new 1 [(0, 1)] storage_1 57317)
    as (t' & s & Hin & _ & Hid & _ & Hfind & _).
  - split; [by vm_compute | reflexivity].
  - by vm_compute.
  - done.
  - reflexivity.
  - by exists t', s.
Defined.

Lemma put_keeps_entries_witness : collect storage_2 ∅ !! 57317 = Some 1.
Proof.
  destruct (put_keeps_entries (layout := lp64_layout)
              always storage_1 1 [(0, 2)] storage_2 35108)
    as [Hkeep _].
  - split; [by vm_compute | reflexivity].
  - apply arena_1_ok.
  - reflexivity.
  - apply Hkeep. by vm_compute.
Defined.

Lemma clear_then_put_witness :
  exists st', clear grown_storage = Some st' /\ forall m, collect st' m = m.
Proof.
  destruct (clear_then_put grown_storage) as (st' & Hclear & Hcollect & _).
  - split; [by vm_compute|]. split; [reflexivity|].
    split; [by vm_compute | reflexivity].
  - by exists st'.
Defined.

Lemma calcHash_prefix_witness :
  calcHash (layout := lp64_layout) 1 (take 1 [(0, 1); (0, 2)]) =
  calcHash (layout := lp64_layout) 1 [(0, 1); (0, 2)].
Proof.
  destruct (calcHash_prefix (layout := lp64_layout) 1 [(0, 1); (0, 2)])
    as [H _]; [apply lp64_layout_ok | lia | by vm_compute | exact H].
Defined.

Lemma puts_keep_sizes_witness :
  exists st ids,
    run_puts CallTraceStorage_new two_ops = Some (st, ids) /\
    length ids = length two_ops.
Proof.
  destruct (puts_keep_sizes two_ops) as (st & ids & Hrun & Hl & _).
  - repeat (apply Forall_cons; split; [split; by vm_compute|]). constructor.
  - by vm_compute.
  - exists st, ids. split; [exact Hrun | exact Hl].
Defined.

Lemma collect_emits_stored_ids_witness :
  is_Some (collect storage_2 ∅ !! 35108).
Proof.
  apply (collect_emits_stored_ids two_ops storage_2 [57317; 35108]);
    [apply run_two_ops | by vm_compute |].
  exists (always, (1, [(0, 2)]), 35108).
  split; [right; left|]. split; [split; by vm_compute | reflexivity].
Defined.

Lemma collect_returns_traces_witness :
  exists v, collect storage_2 ∅ !! 35108 = Some v.
Proof.
  destruct (collect_returns_traces two_ops storage_2 [57317; 35108])
    with (ev := (always, (1, [(0, 2)]), 35108)) as (v & Hv & _).
  - apply lp64_layout_ok.
  - repeat (apply Forall_cons; split; [split; by vm_compute|]). constructor.
  - apply run_two_ops.
  - by vm_compute.
  - right. left.
  - split; by vm_compute.
  - by exists v.
Defined.

Lemma puts_never_give_up_witness : 57317 <> 0 /\ has_room storage_2.
Proof.
  destruct (puts_never_give_up two_ops storage_2 [57317; 35108])
    as (Hids & Hroom & _); [| apply run_two_ops | by vm_compute |].
  - intros op Hin. apply elem_of_cons in Hin as [-> | Hin]; [reflexivity|].
    apply list_elem_of_singleton in Hin as ->. reflexivity.
  - split; [apply Hids; by left | exact Hroom].
Defined.

Lemma run_twin_ops :
  run_puts CallTraceStorage_new twin_ops = Some (storage_1, [57317; 57317]).
Proof. reflexivity. Qed.

Lemma ids_identify_hashes_witness :
  (0, 1) <> (1, method_twin) /\
  op_hash (layout := lp64_layout) (always, (1, [(0, 1)])) =
  op_hash (layout := lp64_layout) (always, (1, [(1, method_twin)])).
Proof.
  split; [discriminate|].
  apply (ids_identify_hashes twin_ops storage_1 [57317; 57317]
           run_twin_ops ltac:(by vm_compute)
           (always, (1, [(0, 1)]), 57317)
           (always, (1, [(1, method_twin)]), 57317)).
  - left.
  - right. left.
  - split; by vm_compute.
  - split; by vm_compute.
  - reflexivity.
Defined.

Lemma put_merges_collisions_witness :
  put always CallTraceStorage_new 1 [(0, 1)] = Some (storage_1, 57317) /\
  put always storage_1 1 [(1, method_twin)] = Some (storage_1, 57317).
Proof.
  assert (Hput : put always CallTraceStorage_new 1 [(0, 1)] =
                 Some (storage_1, 57317)) by reflexivity.
  split; [exact Hput|].
  apply (put_merges_collisions (layout := lp64_layout)
           always always CallTraceStorage_new
           1 [(0, 1)] 1 [(1, method_twin)] storage_1 57317);
    [by vm_compute | exact Hput | reflexivity].
Defined.

Lemma collect_size_is_total_witness :
  Z.of_nat (size (collect storage_2 ∅)) = 2.
Proof.
  apply (collect_size_is_total two_ops storage_2 [57317; 35108]);
    [apply run_two_ops | by vm_compute].
Defined.
